(** * image-to-scad: the depth-to-geometry core, embedded in Rocq

    The development follows the Python sources

    - [image_to_scad/exceptions.py]   (exception hierarchy),
    - [image_to_scad/config.py]       (ConversionConfig, HeightData),
    - [image_to_scad/pipeline/depth_analyzer.py] (DepthAnalyzer),
    - [image_to_scad/pipeline/depth_estimator.py] (input validation),
    - [image_to_scad/pipeline/image_loader.py] (ImageLoader),
    - [image_to_scad/utils/file_utils.py], [image_to_scad/cli.py],

    and, for the surface mesh, the written specification of the
    Surface Mesh Builder.

    Modelling conventions.

    - A numpy float is an exact rational ([Q]) and the arithmetic on
      arrays is exact: NaN and the infinities are outside the model, and
      a statement about values is the exact-arithmetic reading of the
      corresponding floating-point fact.  Where a rounding decides
      more than a last digit it is kept: the cast
      [astype(np.float32)], the fill value of [np.full_like], and the
      product under [int(...)] are rounded, by [fl32] and [fl].  A
      literal is the number it is written as: [1e-6] is [10^-6].
    - A numpy array is an object in a store ([heap]); a Python variable
      holding an array holds its address ([loc]).  Every numpy expression
      that builds an array allocates a new object, as numpy does.
    - A Python exception is a value of [exn]; a method is a function in
      the state-and-exception monad [M].
    - [cv2.resize] and [cv2.GaussianBlur] are external: they are the
      operations of the class [Cv2], constrained only by [Cv2Laws]. *)

From Stdlib Require Import QArith Qminmax ZArith Lia Lqa.
From stdpp Require Import base option list strings pretty gmap.

Local Open Scope Q_scope.

(* ================================================================== *)
(** * Exceptions ([exceptions.py] and the built-in ones the code raises) *)
(* ================================================================== *)

Inductive exn_class : Set :=
  (* Python built-ins *)
  | ValueError
  | AttributeError
  | ZeroDivisionError
  | SystemError
  (* exceptions.py *)
  | ImageToScadError
  | ImageLoadError
  | DepthEstimationError
  | DepthAnalysisError
  | OpenSCADGenerationError
  | STLExportError
  | ConfigurationError.

#[global] Instance exn_class_eq_dec : EqDecision exn_class.
Proof. solve_decision. Defined.

(** [issubclass(c, ImageToScadError)]: the six classes of [exceptions.py]
    derive from [ImageToScadError]; the built-ins do not. *)
Definition is_ImageToScadError (c : exn_class) : bool :=
  match c with
  | ValueError | AttributeError | ZeroDivisionError | SystemError => false
  | ImageToScadError | ImageLoadError | DepthEstimationError
  | DepthAnalysisError | OpenSCADGenerationError | STLExportError
  | ConfigurationError => true
  end.

Record exn : Set := Exn { exn_cls : exn_class; exn_msg : string }.

(** The outcome of a call: an exception raised or a value returned. *)
Inductive result (A : Type) : Type :=
  | Raised (e : exn)
  | Returned (v : A).
Arguments Raised {A} e.
Arguments Returned {A} v.

Definition raises {A} (r : result A) : Prop := ∃ e, r = Raised e.
Definition raises_class {A} (c : exn_class) (r : result A) : Prop :=
  ∃ msg, r = Raised (Exn c msg).

(* ================================================================== *)
(** * Numbers *)
(* ================================================================== *)

Definition Qltb (x y : Q) : bool := negb (Qle_bool y x).

Lemma Qltb_lt x y : Qltb x y = true ↔ x < y.
Proof.
  unfold Qltb. rewrite negb_true_iff. split.
  - intros H. apply Qnot_le_lt. intros Hle.
    apply Qle_bool_iff in Hle. congruence.
  - intros H. destruct (Qle_bool y x) eqn:E; [|done].
    apply Qle_bool_iff in E. exfalso. eapply Qlt_not_le; eauto.
Qed.

Lemma Qltb_ge x y : Qltb x y = false ↔ y <= x.
Proof.
  unfold Qltb. rewrite negb_false_iff. apply Qle_bool_iff.
Qed.

(** Python's [int(x)] on a float: truncation toward zero. *)
Definition py_int (x : Q) : Z := Z.quot (Qnum x) (Z.pos (Qden x)).

(** ** Rounding

    [fl x] is the double nearest to [x].  [Float64Laws] holds of IEEE
    754 binary64 with round-to-nearest (the relative error of a
    rounding is at most [2^-53] in the normal range, of which the law
    covers a part), and of exact arithmetic as well, where [fl] is the
    identity. *)
Class Float64 : Type := { fl : Q → Q }.

Definition unit_roundoff : Q := 1 # 9007199254740992.

Class Float64Laws (F : Float64) : Prop := {
  fl_int : ∀ n : Z, (Z.abs n ≤ 9007199254740992)%Z →
                    fl (inject_Z n) == inject_Z n;
  fl_mono : ∀ x y, x <= y → fl x <= fl y;
  fl_near : ∀ x, (1 # 18446744073709551616) <= x →
                 x <= 18446744073709551616 →
                 x - x * unit_roundoff <= fl x <= x + x * unit_roundoff
}.

(** [n * x] for an int [n] and a float [x]: [n] is converted, the
    product rounded. *)
Definition int_mul_float `{F : Float64} (n : Z) (x : Q) : Q :=
  fl (fl (inject_Z n) * x).

(** [fl32 x] is the float32 nearest to [x]; nothing more is assumed of
    it.  Beyond the largest float32 numpy's cast gives an infinity,
    and so may the float32 arithmetic on large numbers: there the code
    leaves the model.  The statements about values are therefore made
    for numbers that are [moderate], of magnitude up to [2^100]. *)
Class Float32 : Type := { fl32 : Q → Q }.


(** [min(a, b)] and [max(a, b)] on Python ints. *)
Definition py_min (a b : Z) : Z := Z.min a b.
Definition py_max (a b : Z) : Z := Z.max a b.

(** The literal [1e-6]. *)
Definition eps : Q := 1 # 1000000.


(* ================================================================== *)
(** * numpy arrays and the object store *)
(* ================================================================== *)

Inductive dtype : Set := float32 | float64 | int64 | uint8.

Record ndarray : Type := NDArray {
  arr_dtype : dtype;
  shape : list nat;
  data : list Q          (* row-major *)
}.

(** A number as an array of the given dtype holds it: rounded to the
    nearest float, or truncated to an integer (a number outside the
    range of the integer type is outside the model). *)
Definition cast `{F : Float64} `{F32 : Float32} (dt : dtype) (v : Q) : Q :=
  match dt with
  | float32 => fl32 v
  | float64 => fl v
  | int64 | uint8 => inject_Z (py_int v)
  end.

Definition ndim (a : ndarray) : nat := length (shape a).
Definition size (a : ndarray) : nat := foldr Nat.mul 1%nat (shape a).

(** numpy's invariant: as many elements as the shape says. *)
Definition wf_ndarray (a : ndarray) : Prop := length (data a) = size a.

(** A grid: a well-formed 2D array with at least one element. *)
Definition is_grid (a : ndarray) : Prop :=
  wf_ndarray a ∧ ∃ r c, shape a = [r; c] ∧ (0 < r)%nat ∧ (0 < c)%nat.

Abbreviation loc := nat (only parsing).
Abbreviation heap := (list ndarray) (only parsing).

(** What [analyze] may be handed: an array object, or something that is
    not an array (the tests pass a nested list). *)
Inductive pyval : Type :=
  | PyNdarray (l : loc)
  | PyList (rows : list (list Q)).

(* ================================================================== *)
(** * The state-and-exception monad *)
(* ================================================================== *)

Definition M (A : Type) : Type := heap → result A * heap.

Definition run {A} (m : M A) (h : heap) : result A * heap := m h.

#[global] Instance M_ret : MRet M := λ A v h, (Returned v, h).
#[global] Instance M_bind : MBind M := λ A B f m h,
  match m h with
  | (Raised e, h') => (Raised e, h')
  | (Returned v, h') => f v h'
  end.

Definition raise {A} (c : exn_class) (msg : string) : M A :=
  λ h, (Raised (Exn c msg), h).

(** Dereference an address. *)
Definition load (l : loc) : M ndarray :=
  λ h, match h !! l with
       | Some a => (Returned a, h)
       | None => (Raised (Exn SystemError "dangling reference"), h)
       end.

(** Allocate a new array object; its address is the next free one. *)
Definition alloc (a : ndarray) : M loc :=
  λ h, (Returned (length h), h ++ [a]).

(** Overwrite an object in place (what [a[...] = b], [a += s] or an
    [out=] argument do); objects are mutable.  No method of the
    analyzer uses it, which is what the frame theorem below records. *)
Definition store (l : loc) (a : ndarray) : M unit :=
  λ h, (Returned (), <[l := a]> h).

(* ================================================================== *)
(** * The numpy operations the analyzer uses *)
(* ================================================================== *)

(** Smallest and largest element of a non-empty sequence. *)
Definition Qlist_min (l : list Q) : option Q :=
  match l with
  | [] => None
  | x :: l' => Some (foldl Qmin x l')
  end.

Definition Qlist_max (l : list Q) : option Q :=
  match l with
  | [] => None
  | x :: l' => Some (foldl Qmax x l')
  end.

(** [a.min()] and [a.max()]: numpy raises [ValueError] on a zero-size
    array. *)
Definition ndarray_min (l : loc) : M Q :=
  a ← load l;
  match Qlist_min (data a) with
  | Some m => mret m
  | None => raise ValueError
      "zero-size array to reduction operation minimum which has no identity"
  end.

Definition ndarray_max (l : loc) : M Q :=
  a ← load l;
  match Qlist_max (data a) with
  | Some m => mret m
  | None => raise ValueError
      "zero-size array to reduction operation maximum which has no identity"
  end.

(** Element-wise arithmetic with a scalar; the result is a new array of
    the same dtype and shape. *)
Definition map_array (f : Q → Q) (a : ndarray) : ndarray :=
  NDArray (arr_dtype a) (shape a) (f <$> data a).

Definition ndarray_elementwise (f : Q → Q) (l : loc) : M loc :=
  a ← load l; alloc (map_array f a).

(** [s - a] *)
Definition ndarray_rsub (s : Q) (l : loc) : M loc :=
  ndarray_elementwise (λ v, s - v) l.
(** [a - s] *)
Definition ndarray_sub (l : loc) (s : Q) : M loc :=
  ndarray_elementwise (λ v, v - s) l.
(** [a + s] *)
Definition ndarray_add (l : loc) (s : Q) : M loc :=
  ndarray_elementwise (λ v, v + s) l.
(** [a * s] *)
Definition ndarray_mul (l : loc) (s : Q) : M loc :=
  ndarray_elementwise (λ v, v * s) l.
(** [a / s]; the analyzer divides only by a span of at least [1e-6]. *)
Definition ndarray_truediv (l : loc) (s : Q) : M loc :=
  ndarray_elementwise (λ v, v / s) l.

(** [np.full_like(a, v)]: an array like [a], filled with [v] as a
    value of [a]'s dtype. *)
Definition np_full_like `{F : Float64} `{F32 : Float32}
    (l : loc) (v : Q) : M loc :=
  a ← load l; alloc (map_array (λ _, cast (arr_dtype a) v) a).

(** [a.astype(dt)] (a new array, every value cast to [dt]) and
    [a.copy()]. *)
Definition ndarray_astype `{F : Float64} `{F32 : Float32}
    (l : loc) (dt : dtype) : M loc :=
  a ← load l; alloc (NDArray dt (shape a) (cast dt <$> data a)).

Definition ndarray_copy (l : loc) : M loc :=
  a ← load l; alloc a.

(** [rows, cols = a.shape]: unpacking fails unless the shape has
    exactly two entries. *)
Definition ndarray_shape2 (l : loc) : M (nat * nat) :=
  a ← load l;
  match shape a with
  | [rows; cols] => mret (rows, cols)
  | _ :: _ :: _ :: _ =>
      raise ValueError "too many values to unpack (expected 2)"
  | _ => raise ValueError "not enough values to unpack (expected 2)"
  end.

(** [rows / cols] on Python ints: true division. *)
Definition py_truediv (a b : nat) : M Q :=
  if (b =? 0)%nat then raise ZeroDivisionError "division by zero"
  else mret (inject_Z (Z.of_nat a) / inject_Z (Z.of_nat b)).

(** A method call on a value that may not be an array. *)
Definition as_ndarray (v : pyval) (attr : string) : M loc :=
  match v with
  | PyNdarray l => mret l
  | PyList _ =>
      raise AttributeError ("'list' object has no attribute '" +:+ attr +:+ "'")
  end.

(* ================================================================== *)
(** * OpenCV, as an interface *)
(* ================================================================== *)

Inductive interpolation : Set := INTER_NEAREST | INTER_LINEAR | INTER_CUBIC.

(** [cv2.resize(src, (width, height), interpolation=interp)] and
    [cv2.GaussianBlur(src, (kw, kh), sigmaX)], as functions on array
    values. *)
Class Cv2 : Type := {
  cv_resize : ndarray → nat * nat → interpolation → ndarray;
  cv_GaussianBlur : ndarray → Z * Z → Q → ndarray
}.

(** A kernel width OpenCV accepts: positive and odd. *)
Definition odd_positive (k : Z) : Prop := (0 < k ∧ k mod 2 = 1)%Z.

(** All that is assumed of OpenCV: given a grid and a positive size,
    [resize] delivers a grid of that size; given a grid and an odd
    kernel, [GaussianBlur] delivers a grid of the same size. *)
Class Cv2Laws (cv : Cv2) : Prop := {
  resize_shape : ∀ a w h i,
    is_grid a → (0 < w)%nat → (0 < h)%nat →
    shape (cv_resize a (w, h) i) = [h; w];
  resize_wf : ∀ a w h i,
    is_grid a → (0 < w)%nat → (0 < h)%nat →
    wf_ndarray (cv_resize a (w, h) i);
  GaussianBlur_shape : ∀ a kw kh s,
    is_grid a → odd_positive kw → odd_positive kh →
    shape (cv_GaussianBlur a (kw, kh) s) = shape a;
  GaussianBlur_wf : ∀ a kw kh s,
    is_grid a → odd_positive kw → odd_positive kh →
    wf_ndarray (cv_GaussianBlur a (kw, kh) s)
}.

(** Both functions deliver an array of the dtype they were given (as
    OpenCV does for a float32 grid).  Only the statements on the value
    of a flat grid need it. *)
Class Cv2KeepsDtype (cv : Cv2) : Prop := {
  resize_dtype : ∀ a d i, arr_dtype (cv_resize a d i) = arr_dtype a;
  GaussianBlur_dtype : ∀ a k s,
    arr_dtype (cv_GaussianBlur a k s) = arr_dtype a
}.

(** Both calls return a new array object. *)
Definition cv2_resize `{Cv2} (src : loc) (dsize : Z * Z)
    (interp : interpolation) : M loc :=
  a ← load src;
  alloc (cv_resize a (Z.to_nat dsize.1, Z.to_nat dsize.2) interp).

Definition cv2_GaussianBlur `{Cv2} (src : loc) (ksize : Z * Z)
    (sigmaX : Q) : M loc :=
  a ← load src;
  alloc (cv_GaussianBlur a ksize sigmaX).

(* ================================================================== *)
(** * [config.py] *)
(* ================================================================== *)

Module ConversionConfig.

Record t : Type := Build {
  base_thickness : Q;
  max_height : Q;
  model_width : Q;
  detail_level : Q;
  smoothing : bool;
  invert_depth : bool;
  output_style : string
}.

(** Membership of a string in a tuple of strings ([not in] negates it). *)
Definition str_in (s : string) (tup : list string) : bool :=
  existsb (String.eqb s) tup.

Definition __post_init__ (self : t) : result unit :=
  if Qle_bool (base_thickness self) 0 then
    Raised (Exn ValueError "base_thickness must be positive")
  else if Qle_bool (max_height self) 0 then
    Raised (Exn ValueError "max_height must be positive")
  else if Qle_bool (model_width self) 0 then
    Raised (Exn ValueError "model_width must be positive")
  else if negb (Qle_bool (1 # 2) (detail_level self)
                && Qle_bool (detail_level self) 2) then
    Raised (Exn ValueError "detail_level must be between 0.5 and 2.0")
  else if negb (str_in (output_style self) ["relief"%string]) then
    Raised (Exn ValueError
              ("Unsupported output_style: " +:+ output_style self))
  else Returned ().

(** The dataclass constructor: fill in the fields, then run
    [__post_init__]; the object is handed out only if that returns. *)
Definition new (base_thickness max_height model_width detail_level : Q)
    (smoothing invert_depth : bool) (output_style : string) : result t :=
  let self := Build base_thickness max_height model_width detail_level
                    smoothing invert_depth output_style in
  match __post_init__ self with
  | Raised e => Raised e
  | Returned _ => Returned self
  end.

(** [ConversionConfig()] with every field at its default. *)
Definition default : t :=
  Build 2 15 100 1 true false "relief".

End ConversionConfig.

Module HeightData.

Record t : Type := Build {
  heights : loc;
  width_mm : Q;
  height_mm : Q;
  resolution : nat * nat
}.

(** [__post_init__]: reject an array that is not 2D, else compute the
    [resolution] field. *)
Definition __post_init__ (heights : loc) : M (nat * nat) :=
  a ← load heights;
  if negb (ndim a =? 2)%nat then
    raise ValueError "heights must be a 2D array"
  else
    mret (nth 0 (shape a) 0%nat, nth 1 (shape a) 0%nat).

(** The dataclass constructor. *)
Definition new (heights : loc) (width_mm height_mm : Q) : M t :=
  resolution ← __post_init__ heights;
  mret (Build heights width_mm height_mm resolution).

End HeightData.

(* ================================================================== *)
(** * [pipeline/depth_analyzer.py]: class DepthAnalyzer *)
(* ================================================================== *)

(** The analyzer's only attribute is its logger; logging has no effect
    on arrays and is left out, so the methods are plain functions. *)
Module DepthAnalyzer.
Section methods.
Context `{cv : Cv2} `{F : Float64} `{F32 : Float32}.

Import ConversionConfig.

Definition _validate_depth_map (depth_map : pyval) : M unit :=
  match depth_map with
  | PyList _ => raise ValueError "depth_map must be a numpy array"
  | PyNdarray l =>
      a ← load l;
      if negb (ndim a =? 2)%nat then
        raise ValueError
          ("depth_map must be 2D, got " +:+ pretty (ndim a) +:+ "D")
      else if (size a =? 0)%nat then
        raise ValueError "depth_map is empty"
      else mret ()
  end.

Definition _apply_detail_level (heights : loc) (detail_level : Q) : M loc :=
  if Qeq_bool detail_level 1 then mret heights
  else
    '(rows, cols) ← ndarray_shape2 heights;
    let new_rows := py_int (int_mul_float (Z.of_nat rows) detail_level) in
    let new_cols := py_int (int_mul_float (Z.of_nat cols) detail_level) in
    (* Clamp to reasonable limits *)
    let new_rows := py_max 32 (py_min 2048 new_rows) in
    let new_cols := py_max 32 (py_min 2048 new_cols) in
    if bool_decide ((new_rows, new_cols) = (Z.of_nat rows, Z.of_nat cols))
    then mret heights
    else
      resized ← cv2_resize heights (new_cols, new_rows) INTER_CUBIC;
      mret resized.

Definition _invert (heights : loc) : M loc :=
  mx ← ndarray_max heights;
  t ← ndarray_rsub mx heights;
  mn ← ndarray_min heights;
  ndarray_add t mn.

Definition _smooth (heights : loc) (kernel_size : Z) : M loc :=
  (* Ensure kernel size is odd *)
  let kernel_size :=
    if (kernel_size mod 2 =? 1)%Z then kernel_size
    else (kernel_size + 1)%Z in
  smoothed ← cv2_GaussianBlur heights (kernel_size, kernel_size) 0;
  mret smoothed.

(** The default of [_smooth]'s [kernel_size] parameter. *)
Definition _smooth_default_kernel_size : Z := 5.

Definition _normalize_to_range (heights : loc) (min_height max_height : Q)
    : M loc :=
  h_min ← ndarray_min heights;
  h_max ← ndarray_max heights;
  if Qltb (h_max - h_min) eps then
    (* Flat image, return base thickness *)
    np_full_like heights min_height
  else
    (* Normalize to [0, 1] then scale to [min_height, max_height] *)
    t ← ndarray_sub heights h_min;
    normalized ← ndarray_truediv t (h_max - h_min);
    t' ← ndarray_mul normalized (max_height - min_height);
    scaled ← ndarray_add t' min_height;
    mret scaled.

Definition analyze (depth_map : pyval) (config : ConversionConfig.t)
    : M HeightData.t :=
  _ ← _validate_depth_map depth_map;
  (* Work with a copy to avoid modifying the original *)
  depth_arr ← as_ndarray depth_map "astype";
  heights ← ndarray_astype depth_arr float32;
  heights ← ndarray_copy heights;
  (* Apply detail level (resolution adjustment) *)
  heights ← _apply_detail_level heights (detail_level config);
  (* Optionally invert depth *)
  heights ← (if invert_depth config then _invert heights
             else mret heights);
  (* Apply smoothing if enabled *)
  heights ← (if smoothing config
             then _smooth heights _smooth_default_kernel_size
             else mret heights);
  (* Normalize to height range *)
  heights ← _normalize_to_range heights
              (base_thickness config)
              (base_thickness config + max_height config);
  (* Calculate physical dimensions *)
  '(rows, cols) ← ndarray_shape2 heights;
  aspect_ratio ← py_truediv rows cols;
  let width_mm := model_width config in
  let height_mm := width_mm * aspect_ratio in
  HeightData.new heights width_mm height_mm.

End methods.
End DepthAnalyzer.

(* ================================================================== *)
(** * A reference instance of the OpenCV interface

    Nearest-neighbour resampling and a two-tap averaging filter: simple
    stand-ins with the sizes OpenCV delivers, used to run the analyzer
    on concrete grids. *)
(* ================================================================== *)

Module Cv2Ref.

Definition resize_row (a : ndarray) (r c w h i : nat) : list Q :=
  (λ j, nth ((i * r / h) * c + j * c / w)%nat (data a) 0) <$> seq 0 w.

Definition resize_nn (a : ndarray) (dsize : nat * nat)
    (_ : interpolation) : ndarray :=
  let '(w, h) := dsize in
  match shape a with
  | [r; c] =>
      NDArray (arr_dtype a) [h; w]
              (i ← seq 0 h; resize_row a r c w h i)
  | _ => NDArray (arr_dtype a) [h; w] (replicate (h * w) 0)
  end.

Fixpoint blur2 (l : list Q) : list Q :=
  match l with
  | x :: (y :: _) as l' => (x + y) / 2 :: blur2 l'
  | _ => l
  end.

Definition blur (a : ndarray) (_ : Z * Z) (_ : Q) : ndarray :=
  NDArray (arr_dtype a) (shape a) (blur2 (data a)).

#[global] Instance cv : Cv2 :=
  {| cv_resize := resize_nn; cv_GaussianBlur := blur |}.

Lemma length_resized {A B} (f : A → list B) (n : nat) (l : list A) :
  (∀ x, length (f x) = n) → length (x ← l; f x) = (length l * n)%nat.
Proof.
  intros Hf. induction l as [|x l IH]; [done|].
  cbn. rewrite length_app, Hf. cbn in IH. rewrite IH. lia.
Qed.

Lemma length_blur2 l : length (blur2 l) = length l.
Proof.
  induction l as [|x [|y l] IH]; [done..|].
  cbn [blur2 length]. f_equal. exact IH.
Qed.

#[global] Instance laws : Cv2Laws cv.
Proof.
  split.
  - intros a w h i _ _ _. cbn. unfold resize_nn.
    destruct (shape a) as [|? [|? [|? ?]]]; done.
  - intros a w h i _ _ _. cbn. unfold resize_nn, wf_ndarray, size.
    destruct (shape a) as [|r [|c [|? ?]]]; cbn [data shape foldr];
      rewrite ?length_replicate; try lia.
    rewrite (length_resized _ w).
    + rewrite length_seq. lia.
    + intros x. unfold resize_row. by rewrite length_fmap, length_seq.
  - done.
  - intros a kw kh s [Hwf _] _ _. unfold wf_ndarray, size in *. cbn.
    by rewrite length_blur2.
Qed.

#[global] Instance keeps_dtype : Cv2KeepsDtype cv.
Proof.
  split.
  - intros a [w h] i. cbn. unfold resize_nn.
    by destruct (shape a) as [|? [|? [|? ?]]].
  - done.
Qed.

End Cv2Ref.

(* ================================================================== *)
(** * Reasoning about monadic code *)
(* ================================================================== *)

Lemma run_ret {A} (v : A) h : run (mret v) h = (Returned v, h).
Proof. done. Qed.

Lemma run_bind {A B} (m : M A) (f : A → M B) h :
  run (m ≫= f) h =
  match run m h with
  | (Raised e, h') => (Raised e, h')
  | (Returned v, h') => run (f v) h'
  end.
Proof. done. Qed.

Lemma run_load h l a : h !! l = Some a → run (load l) h = (Returned a, h).
Proof. intros Hl. unfold run, load. by rewrite Hl. Qed.

Lemma run_raise {A} c msg h : run (raise (A:=A) c msg) h = (Raised (Exn c msg), h).
Proof. done. Qed.

(** ** Computations under which the store only grows

    [heap_mono m]: whatever the initial store, the store [m] leaves has
    it as a prefix -- objects were added, none was overwritten. *)
Definition heap_mono {A} (m : M A) : Prop :=
  ∀ h, h `prefix_of` (run m h).2.

Create HintDb mono discriminated.

Lemma mono_ret {A} (v : A) : heap_mono (mret v).
Proof. intros h. done. Qed.

Lemma mono_raise {A} c msg : heap_mono (raise (A:=A) c msg).
Proof. intros h. done. Qed.

Lemma mono_load l : heap_mono (load l).
Proof. intros h. unfold run, load. case_match; cbn; reflexivity. Qed.

Lemma mono_alloc a : heap_mono (alloc a).
Proof. intros h. cbn. by apply prefix_app_r. Qed.

(** An in-place write is not of this kind. *)
Example store_overwrites (a b : ndarray) :
  (run (store 0 b) [a]).2 !! 0%nat = Some b ∧ (a ≠ b → ¬ heap_mono (store 0 b)).
Proof.
  split; [done|]. intros Hab Hmono.
  specialize (Hmono [a]). cbn in Hmono.
  apply (prefix_lookup_Some _ _ 0%nat a) in Hmono; [|done].
  cbn in Hmono. congruence.
Qed.

Lemma mono_bind {A B} (m : M A) (f : A → M B) :
  heap_mono m → (∀ v, heap_mono (f v)) → heap_mono (m ≫= f).
Proof.
  intros Hm Hf h. rewrite run_bind. specialize (Hm h).
  destruct (run m h) as [[e|v] h']; [done|].
  etrans; [exact Hm|]. apply Hf.
Qed.

Lemma mono_if {A} (b : bool) (m1 m2 : M A) :
  heap_mono m1 → heap_mono m2 → heap_mono (if b then m1 else m2).
Proof. by destruct b. Qed.

Lemma mono_prod_match {A B C} (p : A * B) (f : A → B → M C) :
  (∀ a b, heap_mono (f a b)) → heap_mono (let '(a, b) := p in f a b).
Proof. destruct p. auto. Qed.

#[global] Hint Resolve mono_ret mono_raise mono_load mono_alloc : mono.
#[global] Hint Resolve mono_bind mono_if mono_prod_match : mono.

Ltac mono := repeat (intros; first
  [ apply mono_ret | apply mono_raise | apply mono_load | apply mono_alloc
  | apply mono_bind | apply mono_if | apply mono_prod_match
  | match goal with
    | |- heap_mono (match ?x with _ => _ end) => destruct x
    end
  | solve [auto with mono] ]).

Lemma mono_elementwise f l : heap_mono (ndarray_elementwise f l).
Proof. unfold ndarray_elementwise. mono. Qed.
#[global] Hint Resolve mono_elementwise : mono.

Lemma mono_min l : heap_mono (ndarray_min l).
Proof. unfold ndarray_min. mono. Qed.
Lemma mono_max l : heap_mono (ndarray_max l).
Proof. unfold ndarray_max. mono. Qed.
Lemma mono_astype `{Float64} `{Float32} l dt :
  heap_mono (ndarray_astype l dt).
Proof. unfold ndarray_astype. mono. Qed.
Lemma mono_copy l : heap_mono (ndarray_copy l).
Proof. unfold ndarray_copy. mono. Qed.
Lemma mono_shape2 l : heap_mono (ndarray_shape2 l).
Proof. unfold ndarray_shape2. mono. Qed.
Lemma mono_truediv a b : heap_mono (py_truediv a b).
Proof. unfold py_truediv. mono. Qed.
Lemma mono_as_ndarray v s : heap_mono (as_ndarray v s).
Proof. unfold as_ndarray. mono. Qed.
Lemma mono_resize `{Cv2} l d i : heap_mono (cv2_resize l d i).
Proof. unfold cv2_resize. mono. Qed.
Lemma mono_blur `{Cv2} l k s : heap_mono (cv2_GaussianBlur l k s).
Proof. unfold cv2_GaussianBlur. mono. Qed.
Lemma mono_HeightData_new l w hh : heap_mono (HeightData.new l w hh).
Proof. unfold HeightData.new, HeightData.__post_init__. mono. Qed.
#[global] Hint Resolve mono_min mono_max mono_astype mono_copy mono_shape2
  mono_truediv mono_as_ndarray mono_resize mono_blur mono_HeightData_new : mono.

Section analyzer_mono.
Context `{cv : Cv2} `{F : Float64} `{F32 : Float32}.
Import DepthAnalyzer.

Lemma mono_validate v : heap_mono (_validate_depth_map v).
Proof. unfold _validate_depth_map. mono. Qed.

Lemma mono_apply_detail_level l d : heap_mono (_apply_detail_level l d).
Proof. unfold _apply_detail_level. mono. Qed.

Lemma mono_invert l : heap_mono (_invert l).
Proof.
  unfold _invert, ndarray_rsub, ndarray_add. mono.
Qed.

Lemma mono_smooth l k : heap_mono (_smooth l k).
Proof. unfold _smooth. mono. Qed.

Lemma mono_normalize l lo hi : heap_mono (_normalize_to_range l lo hi).
Proof.
  unfold _normalize_to_range, np_full_like, ndarray_sub, ndarray_truediv,
    ndarray_mul, ndarray_add. mono.
Qed.

Hint Resolve mono_validate mono_apply_detail_level mono_invert
  mono_smooth mono_normalize : mono.

Lemma mono_analyze v cfg : heap_mono (analyze v cfg).
Proof. unfold analyze. mono. Qed.
End analyzer_mono.

(** ** Successful runs

    [returns m h P]: started in store [h], [m] returns a value [v] and
    leaves a store [h'] with [P v h']. *)
Definition returns {A} (m : M A) (h : heap) (P : A → heap → Prop) : Prop :=
  ∃ v h', run m h = (Returned v, h') ∧ P v h'.

Lemma returns_ret {A} (v : A) h (P : A → heap → Prop) :
  P v h → returns (mret v) h P.
Proof. intros HP. by exists v, h. Qed.

Lemma returns_bind {A B} (m : M A) (f : A → M B) h P Q :
  returns m h P →
  (∀ v h1, P v h1 → returns (f v) h1 Q) →
  returns (m ≫= f) h Q.
Proof.
  intros (v & h1 & Hrun & HP) Hf.
  destruct (Hf v h1 HP) as (w & h2 & Hrun' & HQ).
  exists w, h2. split; [|done].
  rewrite run_bind, Hrun. exact Hrun'.
Qed.

Lemma returns_bind_ret {A B} (v : A) (f : A → M B) h Q :
  returns (f v) h Q → returns (mret v ≫= f) h Q.
Proof. intros (w & h' & Hrun & HQ). by exists w, h'. Qed.

Lemma returns_weaken {A} (m : M A) h (P Q : A → heap → Prop) :
  returns m h P → (∀ v h', P v h' → Q v h') → returns m h Q.
Proof. intros (v & h' & ? & ?) HPQ. exists v, h'. auto. Qed.

Lemma returns_load h l a :
  h !! l = Some a → returns (load l) h (λ v h', v = a ∧ h' = h).
Proof.
  intros Hl. exists a, h. split; [|done].
  unfold run, load. by rewrite Hl.
Qed.

(** [fresh_at h a l h']: [h'] is [h] grown by new objects, among them
    [a] at the new address [l]. *)
Definition fresh_at (h : heap) (a : ndarray) (l : loc) (h' : heap) : Prop :=
  h `prefix_of` h' ∧ (length h ≤ l)%nat ∧ h' !! l = Some a.

Lemma fresh_at_snoc h a : fresh_at h a (length h) (h ++ [a]).
Proof.
  split_and!.
  - by apply prefix_app_r.
  - done.
  - rewrite lookup_app_r by done. by rewrite Nat.sub_diag.
Qed.

Lemma fresh_at_trans h0 h a l h' :
  h0 `prefix_of` h → fresh_at h a l h' → fresh_at h0 a l h'.
Proof.
  intros Hpre (Hp & Hlen & Hl). split_and!; [by etrans| |done].
  apply prefix_length in Hpre. lia.
Qed.

Lemma fresh_at_prefix h0 a l h h' :
  fresh_at h0 a l h → h `prefix_of` h' → fresh_at h0 a l h'.
Proof.
  intros (Hp & Hlen & Hl) Hpre. split_and!; [by etrans|done|].
  by eapply prefix_lookup_Some.
Qed.

Lemma returns_alloc h a : returns (alloc a) h (fresh_at h a).
Proof. exists (length h), (h ++ [a]). split; [done|apply fresh_at_snoc]. Qed.

Lemma returns_elementwise f h l a :
  h !! l = Some a →
  returns (ndarray_elementwise f l) h (fresh_at h (map_array f a)).
Proof.
  intros Hl. unfold ndarray_elementwise.
  eapply returns_bind; [by apply returns_load|].
  intros v h1 [-> ->]. apply returns_alloc.
Qed.

Lemma returns_min h l a m :
  h !! l = Some a → Qlist_min (data a) = Some m →
  returns (ndarray_min l) h (λ v h', v = m ∧ h' = h).
Proof.
  intros Hl Hm. unfold ndarray_min.
  eapply returns_bind; [by apply returns_load|].
  intros v h1 [-> ->]. rewrite Hm. by apply returns_ret.
Qed.

Lemma returns_max h l a m :
  h !! l = Some a → Qlist_max (data a) = Some m →
  returns (ndarray_max l) h (λ v h', v = m ∧ h' = h).
Proof.
  intros Hl Hm. unfold ndarray_max.
  eapply returns_bind; [by apply returns_load|].
  intros v h1 [-> ->]. rewrite Hm. by apply returns_ret.
Qed.

Lemma returns_shape2 h l a r c :
  h !! l = Some a → shape a = [r; c] →
  returns (ndarray_shape2 l) h (λ v h', v = (r, c) ∧ h' = h).
Proof.
  intros Hl Hs. unfold ndarray_shape2.
  eapply returns_bind; [by apply returns_load|].
  intros v h1 [-> ->]. rewrite Hs. by apply returns_ret.
Qed.

(* ================================================================== *)
(** * Minimum and maximum of a grid *)
(* ================================================================== *)

Ltac in_list :=
  repeat first
    [ assumption | apply list_elem_of_here | apply list_elem_of_further ].

Lemma Qmin_cases (x y : Q) : Qmin x y = x ∨ Qmin x y = y.
Proof.
  unfold Qmin, GenericMinMax.gmin. destruct (x ?= y); auto.
Qed.

Lemma Qmax_cases (x y : Q) : Qmax x y = x ∨ Qmax x y = y.
Proof.
  unfold Qmax, GenericMinMax.gmax. destruct (x ?= y); auto.
Qed.

Lemma foldl_Qmin_spec (l : list Q) (x : Q) :
  foldl Qmin x l ∈ x :: l ∧ ∀ y, y ∈ x :: l → foldl Qmin x l <= y.
Proof.
  revert x. induction l as [|z l IH]; intros x; cbn.
  - split; [in_list|]. intros y ->%list_elem_of_singleton. apply Qle_refl.
  - destruct (IH (Qmin x z)) as [Hin Hle]. split.
    + apply elem_of_cons in Hin as [Heq|Hin].
      * rewrite Heq. destruct (Qmin_cases x z) as [-> | ->]; in_list.
      * in_list.
    + intros y Hy.
      assert (foldl Qmin (Qmin x z) l <= Qmin x z) as H0
        by (apply Hle; in_list).
      apply elem_of_cons in Hy as [-> | Hy].
      { eapply Qle_trans; [exact H0|apply Q.le_min_l]. }
      apply elem_of_cons in Hy as [-> | Hy].
      { eapply Qle_trans; [exact H0|apply Q.le_min_r]. }
      apply Hle. in_list.
Qed.

Lemma foldl_Qmax_spec (l : list Q) (x : Q) :
  foldl Qmax x l ∈ x :: l ∧ ∀ y, y ∈ x :: l → y <= foldl Qmax x l.
Proof.
  revert x. induction l as [|z l IH]; intros x; cbn.
  - split; [in_list|]. intros y ->%list_elem_of_singleton. apply Qle_refl.
  - destruct (IH (Qmax x z)) as [Hin Hle]. split.
    + apply elem_of_cons in Hin as [Heq|Hin].
      * rewrite Heq. destruct (Qmax_cases x z) as [-> | ->]; in_list.
      * in_list.
    + intros y Hy.
      assert (Qmax x z <= foldl Qmax (Qmax x z) l) as H0
        by (apply Hle; in_list).
      apply elem_of_cons in Hy as [-> | Hy].
      { eapply Qle_trans; [apply Q.le_max_l|exact H0]. }
      apply elem_of_cons in Hy as [-> | Hy].
      { eapply Qle_trans; [apply Q.le_max_r|exact H0]. }
      apply Hle. in_list.
Qed.

Lemma Qlist_min_spec l m :
  Qlist_min l = Some m → m ∈ l ∧ ∀ y, y ∈ l → m <= y.
Proof.
  destruct l as [|x l]; [done|]. intros [= <-]. apply foldl_Qmin_spec.
Qed.

Lemma Qlist_max_spec l m :
  Qlist_max l = Some m → m ∈ l ∧ ∀ y, y ∈ l → y <= m.
Proof.
  destruct l as [|x l]; [done|]. intros [= <-]. apply foldl_Qmax_spec.
Qed.

Lemma Qlist_min_is_Some l : l ≠ [] → is_Some (Qlist_min l).
Proof. destruct l; [done|]. by eexists. Qed.

Lemma Qlist_max_is_Some l : l ≠ [] → is_Some (Qlist_max l).
Proof. destruct l; [done|]. by eexists. Qed.

(** A lower bound that is attained is the minimum, up to the equality
    of rationals. *)
Lemma Qlist_min_unique l m m' :
  Qlist_min l = Some m → m' ∈ l → (∀ y, y ∈ l → m' <= y) → m == m'.
Proof.
  intros [Hin Hle]%Qlist_min_spec Hin' Hle'.
  apply Qle_antisym; auto.
Qed.

Lemma Qlist_max_unique l m m' :
  Qlist_max l = Some m → m' ∈ l → (∀ y, y ∈ l → y <= m') → m == m'.
Proof.
  intros [Hin Hle]%Qlist_max_spec Hin' Hle'.
  apply Qle_antisym; auto.
Qed.

Lemma Qlist_min_le_max l mn mx :
  Qlist_min l = Some mn → Qlist_max l = Some mx → mn <= mx.
Proof.
  intros [Hin _]%Qlist_min_spec [_ Hle]%Qlist_max_spec. auto.
Qed.

(* ================================================================== *)
(** * The four stages as functions on grids

    The stages of the Height Field Normalizer as the specification
    words them, on array values: resample, invert, smooth,
    normalize-to-range.  The theorems below relate the methods of
    [DepthAnalyzer] to them. *)
(* ================================================================== *)

Module Stage.
Section stages.
Context `{cv : Cv2} `{F : Float64} `{F32 : Float32}.

Definition grid_min (a : ndarray) : Q := default 0 (Qlist_min (data a)).
Definition grid_max (a : ndarray) : Q := default 0 (Qlist_max (data a)).

(** Clamp a target dimension to [[32, 2048]]. *)
Definition clamp_dim (n : Z) : Z := Z.max 32 (Z.min 2048 n).

(** A grid dimension scaled by the detail level (the product a
    double, truncated to an integer), before and after clamping. *)
Definition scaled_dim (n : nat) (d : Q) : Z :=
  py_int (int_mul_float (Z.of_nat n) d).
Definition target_dim (n : nat) (d : Q) : Z := clamp_dim (scaled_dim n d).

(** Resample: scale the dimensions by the detail level, clamp each to
    [[32, 2048]], interpolate cubically; nothing to do if the clamped
    target size is the source size. *)
Definition resample (d : Q) (a : ndarray) : ndarray :=
  match shape a with
  | [rows; cols] =>
      if bool_decide ((target_dim rows d, target_dim cols d)
                      = (Z.of_nat rows, Z.of_nat cols))
      then a
      else cv_resize a (Z.to_nat (target_dim cols d),
                        Z.to_nat (target_dim rows d)) INTER_CUBIC
  | _ => a
  end.

(** Invert: each value [v] becomes [max(grid) - v + min(grid)]. *)
Definition invert (a : ndarray) : ndarray :=
  map_array (λ v, grid_max a - v + grid_min a) a.

(** Smooth: Gaussian blur with kernel width 5. *)
Definition smooth (a : ndarray) : ndarray :=
  cv_GaussianBlur a (5, 5)%Z 0.

(** The value span [max(grid) - min(grid)]. *)
Definition span (a : ndarray) : Q := grid_max a - grid_min a.

(** Normalize-to-range: map [[min(grid), max(grid)]] linearly to
    [[lo, hi]]; a grid whose span is below [1e-6] becomes [lo]
    everywhere, as a value of the grid's dtype. *)
Definition normalize_to_range (lo hi : Q) (a : ndarray) : ndarray :=
  if Qltb (span a) eps then map_array (λ _, cast (arr_dtype a) lo) a
  else map_array
         (λ v, (v - grid_min a) / (grid_max a - grid_min a) * (hi - lo) + lo)
         a.

(** A stage that is applied only under a condition. *)
Definition only_if (b : bool) (f : ndarray → ndarray) : ndarray → ndarray :=
  if b then f else id.


(** The stages in their fixed order, each on the output of the one
    before. *)
Definition pipeline (cfg : ConversionConfig.t) : ndarray → ndarray :=
  let base := ConversionConfig.base_thickness cfg in
  normalize_to_range base (base + ConversionConfig.max_height cfg)
  ∘ only_if (ConversionConfig.smoothing cfg) smooth
  ∘ only_if (ConversionConfig.invert_depth cfg) invert
  ∘ only_if (negb (Qeq_bool (ConversionConfig.detail_level cfg) 1))
            (resample (ConversionConfig.detail_level cfg)).

End stages.
End Stage.

Lemma is_grid_intro a :
  wf_ndarray a → ndim a = 2%nat → size a ≠ 0%nat → is_grid a.
Proof.
  unfold ndim, size. intros Hwf Hnd Hsz. split; [done|].
  destruct (shape a) as [|r [|c [|? ?]]]; try done.
  exists r, c. cbn in Hsz. split; [done|]. nia.
Qed.

Lemma is_grid_ndim a : is_grid a → ndim a = 2%nat.
Proof. intros (_ & r & c & Hs & _). unfold ndim. by rewrite Hs. Qed.

Lemma is_grid_size a : is_grid a → size a ≠ 0%nat.
Proof.
  intros (_ & r & c & Hs & ? & ?). unfold size. rewrite Hs. cbn. nia.
Qed.

Lemma is_grid_nonempty a : is_grid a → data a ≠ [].
Proof.
  intros Hg Hnil. pose proof (is_grid_size a Hg) as Hsz.
  destruct Hg as [Hwf _]. unfold wf_ndarray in Hwf.
  rewrite Hnil in Hwf. cbn in Hwf. congruence.
Qed.

Lemma is_grid_map f a : is_grid a → is_grid (map_array f a).
Proof.
  intros (Hwf & r & c & Hs & ? & ?). split.
  - unfold wf_ndarray, size in *. cbn. by rewrite length_fmap.
  - exists r, c. done.
Qed.

Lemma is_grid_retype dt f a :
  is_grid a → is_grid (NDArray dt (shape a) (f <$> data a)).
Proof.
  intros (Hwf & Hs). split; [|done].
  unfold wf_ndarray, size in *. cbn. by rewrite length_fmap.
Qed.

Lemma clamp_dim_range n : (32 ≤ Stage.clamp_dim n ≤ 2048)%Z.
Proof. unfold Stage.clamp_dim. lia. Qed.

Section stage_grids.
Context `{cv : Cv2} {laws : Cv2Laws cv} `{F : Float64} `{F32 : Float32}.

Lemma is_grid_resample d a : is_grid a → is_grid (Stage.resample d a).
Proof.
  intros Hg. pose proof Hg as (Hwf & r & c & Hs & ? & ?).
  unfold Stage.resample. rewrite Hs. case_bool_decide; [done|].
  unfold Stage.target_dim.
  pose proof (clamp_dim_range (Stage.scaled_dim r d)).
  pose proof (clamp_dim_range (Stage.scaled_dim c d)).
  split; [apply resize_wf; [done|lia..]|].
  eexists _, _. split; [apply resize_shape; [done|lia..]|]. lia.
Qed.

Lemma is_grid_invert a : is_grid a → is_grid (Stage.invert a).
Proof. apply is_grid_map. Qed.

Lemma is_grid_smooth a : is_grid a → is_grid (Stage.smooth a).
Proof.
  intros Hg. pose proof Hg as (Hwf & r & c & Hs & ? & ?).
  unfold Stage.smooth. split.
  - by apply GaussianBlur_wf.
  - exists r, c. by rewrite GaussianBlur_shape.
Qed.

Lemma is_grid_normalize lo hi a :
  is_grid a → is_grid (Stage.normalize_to_range lo hi a).
Proof.
  intros Hg. unfold Stage.normalize_to_range.
  case_match; by apply is_grid_map.
Qed.

Lemma is_grid_only_if b f a :
  (∀ a, is_grid a → is_grid (f a)) →
  is_grid a → is_grid (Stage.only_if b f a).
Proof. intros Hf Hg. destruct b; cbn; auto. Qed.
End stage_grids.

(* ================================================================== *)
(** * What each method of the analyzer returns *)
(* ================================================================== *)

Lemma map_array_compose f g a :
  map_array g (map_array f a) = map_array (g ∘ f) a.
Proof. unfold map_array. cbn. by rewrite <- list_fmap_compose. Qed.

Lemma grid_min_Some a : data a ≠ [] → Qlist_min (data a) = Some (Stage.grid_min a).
Proof.
  intros [m Hm]%Qlist_min_is_Some. unfold Stage.grid_min. by rewrite Hm.
Qed.

Lemma grid_max_Some a : data a ≠ [] → Qlist_max (data a) = Some (Stage.grid_max a).
Proof.
  intros [m Hm]%Qlist_max_is_Some. unfold Stage.grid_max. by rewrite Hm.
Qed.

Ltac step_with lem :=
  eapply returns_bind; [eapply lem; eauto|]; cbn beta.

Section stage_returns.
Context `{cv : Cv2} `{F : Float64} `{F32 : Float32}.
Import DepthAnalyzer.

Lemma returns_cv2_resize h l a dsize i :
  h !! l = Some a →
  returns (cv2_resize l dsize i) h
    (fresh_at h (cv_resize a (Z.to_nat dsize.1, Z.to_nat dsize.2) i)).
Proof.
  intros Hl. unfold cv2_resize.
  step_with returns_load. intros ? ? [-> ->]. apply returns_alloc.
Qed.

Lemma returns_cv2_GaussianBlur h l a k s :
  h !! l = Some a →
  returns (cv2_GaussianBlur l k s) h (fresh_at h (cv_GaussianBlur a k s)).
Proof.
  intros Hl. unfold cv2_GaussianBlur.
  step_with returns_load. intros ? ? [-> ->]. apply returns_alloc.
Qed.

Lemma _validate_returns h l a :
  h !! l = Some a → ndim a = 2%nat → size a ≠ 0%nat →
  returns (_validate_depth_map (PyNdarray l)) h (λ _ h', h' = h).
Proof.
  intros Hl Hnd Hsz. unfold _validate_depth_map.
  step_with returns_load. intros v h1 [-> ->].
  rewrite Hnd. cbn. apply Nat.eqb_neq in Hsz. rewrite Hsz.
  by apply returns_ret.
Qed.

Lemma _apply_detail_level_returns h l a d :
  h !! l = Some a → ndim a = 2%nat →
  returns (_apply_detail_level l d) h
    (λ l' h', h `prefix_of` h' ∧
              h' !! l' =
                Some (Stage.only_if (negb (Qeq_bool d 1)) (Stage.resample d) a)).
Proof.
  intros Hl Hnd. unfold _apply_detail_level.
  destruct (Qeq_bool d 1); cbn.
  { by apply returns_ret. }
  unfold ndim in Hnd.
  destruct (shape a) as [|r [|c [|? ?]]] eqn:Hs; try done.
  step_with returns_shape2. intros v h1 [-> ->].
  unfold Stage.resample, Stage.target_dim, Stage.scaled_dim,
    Stage.clamp_dim, py_max, py_min. rewrite Hs.
  case_bool_decide.
  { by apply returns_ret. }
  step_with returns_cv2_resize. intros l' h' (Hp & _ & Hl').
  by apply returns_ret.
Qed.

Lemma _invert_returns h l a :
  h !! l = Some a → data a ≠ [] →
  returns (_invert l) h (fresh_at h (Stage.invert a)).
Proof.
  intros Hl Hne. unfold _invert.
  step_with returns_max; [by apply grid_max_Some|].
  intros ? ? [-> ->].
  unfold ndarray_rsub. step_with returns_elementwise.
  intros t h1 Ht.
  step_with returns_min.
  { eapply prefix_lookup_Some; [exact Hl|apply Ht]. }
  { by apply grid_min_Some. }
  intros ? ? [-> ->].
  unfold ndarray_add.
  eapply returns_weaken.
  { eapply returns_elementwise. apply Ht. }
  intros l' h' Hf. cbn beta in Hf.
  rewrite map_array_compose in Hf.
  eapply fresh_at_trans; [apply Ht|exact Hf].
Qed.

Lemma _smooth_returns h l a :
  h !! l = Some a →
  returns (_smooth l _smooth_default_kernel_size) h
          (fresh_at h (Stage.smooth a)).
Proof.
  intros Hl. unfold _smooth. cbn.
  step_with returns_cv2_GaussianBlur. intros l' h' Hf.
  by apply returns_ret.
Qed.

Lemma _normalize_to_range_returns h l a lo hi :
  h !! l = Some a → data a ≠ [] →
  returns (_normalize_to_range l lo hi) h
          (fresh_at h (Stage.normalize_to_range lo hi a)).
Proof.
  intros Hl Hne.
  unfold _normalize_to_range, Stage.normalize_to_range, Stage.span.
  step_with returns_min; [by apply grid_min_Some|].
  intros ? ? [-> ->].
  step_with returns_max; [by apply grid_max_Some|].
  intros ? ? [-> ->].
  destruct (Qltb _ _).
  { unfold np_full_like.
    step_with returns_load. intros ? ? [-> ->]. apply returns_alloc. }
  unfold ndarray_sub, ndarray_truediv, ndarray_mul, ndarray_add.
  step_with returns_elementwise. intros t1 h1 H1.
  step_with returns_elementwise; [apply H1|]. intros t2 h2 H2.
  step_with returns_elementwise; [apply H2|]. intros t3 h3 H3.
  step_with returns_elementwise; [apply H3|]. intros t4 h4 H4.
  apply returns_ret.
  rewrite !map_array_compose in H4.
  eapply fresh_at_trans; [|exact H4].
  etrans; [apply H1|]. etrans; [apply H2|]. apply H3.
Qed.

End stage_returns.

(** The array [a.astype(np.float32).copy()] holds: every value of [a]
    rounded to float32. *)
Definition as_float32 `{F32 : Float32} (a : ndarray) : ndarray :=
  NDArray float32 (shape a) (fl32 <$> data a).

Section analyze_returns.
Context `{cv : Cv2} {laws : Cv2Laws cv} `{F : Float64} `{F32 : Float32}.
Import DepthAnalyzer.

Lemma returns_astype h l a dt :
  h !! l = Some a →
  returns (ndarray_astype l dt) h
          (fresh_at h (NDArray dt (shape a) (cast dt <$> data a))).
Proof.
  intros Hl. unfold ndarray_astype.
  step_with returns_load. intros ? ? [-> ->]. apply returns_alloc.
Qed.

Lemma returns_copy h l a :
  h !! l = Some a → returns (ndarray_copy l) h (fresh_at h a).
Proof.
  intros Hl. unfold ndarray_copy.
  step_with returns_load. intros ? ? [-> ->]. apply returns_alloc.
Qed.

Lemma returns_HeightData_new h l a r c w hh :
  h !! l = Some a → shape a = [r; c] →
  returns (HeightData.new l w hh) h
    (λ hd h', h' = h ∧ hd = HeightData.Build l w hh (r, c)).
Proof.
  intros Hl Hs. unfold HeightData.new.
  eapply returns_bind.
  { unfold HeightData.__post_init__.
    step_with returns_load. intros ? ? [-> ->].
    unfold ndim. rewrite Hs. cbn.
    by apply (returns_ret _ _ (λ v h', v = (r, c) ∧ h' = h)). }
  intros ? ? [-> ->]. by apply returns_ret.
Qed.

(** The result of a successful [analyze], in full. *)
Definition analyze_post (h : heap) (cfg : ConversionConfig.t)
    (a : ndarray) (hd : HeightData.t) (h' : heap) : Prop :=
  let out := Stage.pipeline cfg (as_float32 a) in
  fresh_at h out (HeightData.heights hd) h'
  ∧ is_grid out
  ∧ HeightData.width_mm hd = ConversionConfig.model_width cfg
  ∧ ∃ rows cols,
      shape out = [rows; cols]
      ∧ HeightData.resolution hd = (rows, cols)
      ∧ HeightData.height_mm hd =
          ConversionConfig.model_width cfg
          * (inject_Z (Z.of_nat rows) / inject_Z (Z.of_nat cols)).

Lemma analyze_returns h l a cfg :
  h !! l = Some a → is_grid a →
  returns (analyze (PyNdarray l) cfg) h (analyze_post h cfg a).
Proof.
  intros Hl Hg. unfold analyze.
  step_with _validate_returns;
    [by apply is_grid_ndim|by apply is_grid_size|].
  intros _ ? ->. cbn [as_ndarray].
  apply returns_bind_ret.
  step_with returns_astype. intros l1 h1 H1.
  step_with returns_copy; [apply H1|]. intros l2 h2 H2.
  change (NDArray float32 (shape a) (cast float32 <$> data a))
    with (as_float32 a) in H1, H2.
  assert (is_grid (as_float32 a)) as Hg0 by by apply is_grid_retype.
  (* resample *)
  step_with _apply_detail_level_returns;
    [apply H2|by apply is_grid_ndim|].
  intros l3 h3 [Hp3 H3].
  set (d := ConversionConfig.detail_level cfg) in *.
  set (a3 := Stage.only_if _ (Stage.resample d) (as_float32 a)) in *.
  assert (is_grid a3) as Hg3
    by (apply is_grid_only_if; [apply is_grid_resample|done]).
  (* invert *)
  eapply (returns_bind _ _ _
    (λ l4 h4, h3 `prefix_of` h4 ∧
       h4 !! l4 = Some (Stage.only_if (ConversionConfig.invert_depth cfg)
                                      Stage.invert a3))).
  { destruct (ConversionConfig.invert_depth cfg); cbn.
    - eapply returns_weaken.
      + eapply _invert_returns; [exact H3|by apply is_grid_nonempty].
      + intros ? ? (? & _ & ?). done.
    - by apply returns_ret. }
  intros l4 h4 [Hp4 H4].
  set (a4 := Stage.only_if _ Stage.invert a3) in *.
  assert (is_grid a4) as Hg4
    by (apply is_grid_only_if; [apply is_grid_invert|done]).
  (* smooth *)
  eapply (returns_bind _ _ _
    (λ l5 h5, h4 `prefix_of` h5 ∧
       h5 !! l5 = Some (Stage.only_if (ConversionConfig.smoothing cfg)
                                      Stage.smooth a4))).
  { destruct (ConversionConfig.smoothing cfg); cbn.
    - eapply returns_weaken.
      + eapply _smooth_returns. exact H4.
      + intros ? ? (? & _ & ?). done.
    - by apply returns_ret. }
  intros l5 h5 [Hp5 H5].
  set (a5 := Stage.only_if _ Stage.smooth a4) in *.
  assert (is_grid a5) as Hg5
    by (apply is_grid_only_if; [apply is_grid_smooth|done]).
  (* normalize *)
  step_with _normalize_to_range_returns; [by apply is_grid_nonempty|].
  intros l6 h6 H6.
  set (a6 := Stage.normalize_to_range _ _ a5) in *.
  assert (is_grid a6) as Hg6 by by apply is_grid_normalize.
  pose proof Hg6 as (_ & rows & cols & Hs6 & Hr & Hc).
  step_with returns_shape2; [apply H6|]. intros ? ? [-> ->].
  unfold py_truediv.
  destruct (Nat.eqb_spec cols 0) as [->|_]; [lia|].
  apply returns_bind_ret.
  eapply returns_weaken.
  { eapply returns_HeightData_new; [apply H6|exact Hs6]. }
  intros hd h' [-> ->]. unfold analyze_post. cbn.
  change (Stage.pipeline cfg (as_float32 a)) with a6.
  split_and!; [|done|done|by exists rows, cols].
  eapply fresh_at_trans; [|exact H6].
  etrans; [apply H1|]. etrans; [apply H2|].
  etrans; [exact Hp3|]. etrans; [exact Hp4|]. exact Hp5.
Qed.

End analyze_returns.

(* ================================================================== *)
(** * Arithmetic of the normalize and invert steps *)
(* ================================================================== *)

Lemma eps_pos : 0 < eps.
Proof. done. Qed.

(** The affine map of the normalize step sends [[mn, mx]] into
    [[lo, hi]]. *)
Lemma scale_in_range (lo hi mn mx x : Q) :
  lo <= hi → mn < mx → mn <= x → x <= mx →
  lo <= (x - mn) / (mx - mn) * (hi - lo) + lo
  ∧ (x - mn) / (mx - mn) * (hi - lo) + lo <= hi.
Proof.
  intros Hlh Hspan Hx1 Hx2.
  set (s := mx - mn). set (t := (x - mn) / s).
  assert (0 < s) as Hs by (unfold s; lra).
  assert (t * s == x - mn) as Hts.
  { unfold t. rewrite Qmult_comm. apply Qmult_div_r. lra. }
  assert (0 <= t) as Ht0.
  { apply Qnot_lt_le. intros Hneg. nra. }
  assert (t <= 1) as Ht1.
  { apply Qnot_lt_le. intros Hbig. unfold s in *. nra. }
  split; nra.
Qed.

Lemma scale_at_min (lo hi mn mx : Q) :
  mn < mx → (mn - mn) / (mx - mn) * (hi - lo) + lo == lo.
Proof. intros H. field. lra. Qed.

Lemma scale_at_max (lo hi mn mx : Q) :
  mn < mx → (mx - mn) / (mx - mn) * (hi - lo) + lo == hi.
Proof. intros H. field. lra. Qed.

Lemma Qlist_min_fmap_exists (f : Q → Q) l :
  l ≠ [] → is_Some (Qlist_min (f <$> l)).
Proof. intros H. apply Qlist_min_is_Some. by destruct l. Qed.

Lemma Qlist_max_fmap_exists (f : Q → Q) l :
  l ≠ [] → is_Some (Qlist_max (f <$> l)).
Proof. intros H. apply Qlist_max_is_Some. by destruct l. Qed.

Section normalize_facts.
Context `{F : Float64} `{F32 : Float32}.
Variables (lo hi : Q) (a : ndarray).
Hypothesis Hne : data a ≠ [].

Let mn := Stage.grid_min a.
Let mx := Stage.grid_max a.

Lemma grid_min_spec : mn ∈ data a ∧ ∀ y, y ∈ data a → mn <= y.
Proof. apply Qlist_min_spec. by apply grid_min_Some. Qed.

Lemma grid_max_spec : mx ∈ data a ∧ ∀ y, y ∈ data a → y <= mx.
Proof. apply Qlist_max_spec. by apply grid_max_Some. Qed.

Lemma grid_min_le_max : mn <= mx.
Proof. apply grid_max_spec, grid_min_spec. Qed.

(** Flat branch: every value is [lo], as a value of the grid's
    dtype. *)
Lemma normalize_flat :
  Stage.span a < eps →
  Stage.normalize_to_range lo hi a
  = map_array (λ _, cast (arr_dtype a) lo) a.
Proof.
  intros Hflat%Qltb_lt. unfold Stage.normalize_to_range.
  by rewrite Hflat.
Qed.


(** Scaling branch: every value is in [[lo, hi]]. *)
Lemma normalize_scaled_in_range v :
  lo <= hi → eps <= Stage.span a →
  v ∈ data (Stage.normalize_to_range lo hi a) →
  lo <= v ∧ v <= hi.
Proof.
  intros Hlh. unfold Stage.normalize_to_range, Stage.span. fold mn mx.
  intros Hspan. pose proof Hspan as E. apply Qltb_ge in E. rewrite E. cbn.
  pose proof eps_pos.
  intros (x & -> & Hx)%list_elem_of_fmap.
  apply scale_in_range; [done|lra|by apply grid_min_spec
                        |by apply grid_max_spec].
Qed.


(** Scaling branch: the extremes [lo] and [hi] are attained. *)
Lemma normalize_min_max :
  lo <= hi → eps <= Stage.span a →
  ∃ mn' mx',
    Qlist_min (data (Stage.normalize_to_range lo hi a)) = Some mn'
    ∧ Qlist_max (data (Stage.normalize_to_range lo hi a)) = Some mx'
    ∧ mn' == lo ∧ mx' == hi.
Proof.
  intros Hlh Hspan0. pose proof Hspan0 as Hspan. revert Hspan.
  unfold Stage.span. fold mn mx.
  intros Hspan. pose proof eps_pos.
  assert (mn < mx) as Hlt by lra.
  pose proof (λ v, normalize_scaled_in_range v Hlh Hspan0) as Hrange.
  revert Hrange. unfold Stage.normalize_to_range, Stage.span. fold mn mx.
  apply Qltb_ge in Hspan. rewrite Hspan. cbn. intros Hrange.
  set (f := λ v, (v - mn) / (mx - mn) * (hi - lo) + lo) in *.
  destruct (Qlist_min_fmap_exists f _ Hne) as [mn' Hmn'].
  destruct (Qlist_max_fmap_exists f _ Hne) as [mx' Hmx'].
  exists mn', mx'. split_and!; [done..| |].
  - pose proof (Qlist_min_spec _ _ Hmn') as [Hin Hle].
    apply Qle_antisym; [|by apply Hrange].
    rewrite <- (scale_at_min lo hi mn mx Hlt). change (mn' <= f mn).
    apply Hle, list_elem_of_fmap_2, grid_min_spec.
  - pose proof (Qlist_max_spec _ _ Hmx') as [Hin Hle].
    apply Qle_antisym; [by apply Hrange|].
    rewrite <- (scale_at_max lo hi mn mx Hlt). change (f mx <= mx').
    apply Hle, list_elem_of_fmap_2, grid_max_spec.
Qed.

End normalize_facts.

(* ================================================================== *)
(** * Valid configurations *)
(* ================================================================== *)

(** A configuration is valid if its [__post_init__] check passes: these
    are the objects the constructor hands out. *)
Definition config_valid (cfg : ConversionConfig.t) : Prop :=
  ConversionConfig.__post_init__ cfg = Returned ().

Lemma str_in_relief s :
  ConversionConfig.str_in s ["relief"%string] = true ↔ s = "relief"%string.
Proof.
  unfold ConversionConfig.str_in. cbn. rewrite orb_false_r.
  apply String.eqb_eq.
Qed.

Lemma Qle_bool_false x y : Qle_bool x y = false ↔ y < x.
Proof.
  split.
  - intros H. apply Qnot_le_lt. intros Hle%Qle_bool_iff. congruence.
  - intros H. destruct (Qle_bool x y) eqn:E; [|done].
    apply Qle_bool_iff in E. exfalso. eapply Qlt_not_le; eauto.
Qed.

#[local] Arguments ConversionConfig.str_in : simpl never.

Lemma config_valid_iff cfg :
  config_valid cfg ↔
    0 < ConversionConfig.base_thickness cfg
    ∧ 0 < ConversionConfig.max_height cfg
    ∧ 0 < ConversionConfig.model_width cfg
    ∧ (1 # 2) <= ConversionConfig.detail_level cfg
    ∧ ConversionConfig.detail_level cfg <= 2
    ∧ ConversionConfig.output_style cfg = "relief"%string.
Proof.
  unfold config_valid, ConversionConfig.__post_init__.
  destruct cfg as [bt mh mw dl sm inv os]. cbn.
  destruct (Qle_bool bt 0) eqn:E1.
  { apply Qle_bool_iff in E1. split; [done|]. intros (? & _). lra. }
  destruct (Qle_bool mh 0) eqn:E2.
  { apply Qle_bool_iff in E2. split; [done|]. intros (_ & ? & _). lra. }
  destruct (Qle_bool mw 0) eqn:E3.
  { apply Qle_bool_iff in E3. split; [done|]. intros (_ & _ & ? & _). lra. }
  apply Qle_bool_false in E1, E2, E3.
  destruct (Qle_bool (1 # 2) dl) eqn:E4; cbn.
  2:{ apply Qle_bool_false in E4. split; [done|].
      intros (_ & _ & _ & ? & _). lra. }
  destruct (Qle_bool dl 2) eqn:E5; cbn.
  2:{ apply Qle_bool_false in E5. split; [done|].
      intros (_ & _ & _ & _ & ? & _). lra. }
  apply Qle_bool_iff in E4, E5.
  destruct (ConversionConfig.str_in os ["relief"%string]) eqn:E6; cbn.
  - apply str_in_relief in E6. done.
  - split; [done|]. intros (_ & _ & _ & _ & _ & Hos).
    apply str_in_relief in Hos. congruence.
Qed.

(* ================================================================== *)
(** * Sample inputs *)
(* ================================================================== *)

Module Sample.
(** A 2x3 ramp, a flat 2x2 grid, a 64x64 ramp and a 1D array. *)
Definition ramp23 : ndarray := NDArray float64 [2; 3]%nat [1; 2; 3; 4; 5; 6].
Definition flat22 : ndarray :=
  NDArray float32 [2; 2]%nat [1 # 2; 1 # 2; 1 # 2; 1 # 2].
Definition vec3 : ndarray := NDArray int64 [3]%nat [1; 2; 3].
Definition plain : ConversionConfig.t :=
  ConversionConfig.Build 2 15 100 1 false false "relief".
Definition inverted : ConversionConfig.t :=
  ConversionConfig.Build 2 15 100 1 false true "relief".
End Sample.

(* ================================================================== *)
(** * Properties of [DepthAnalyzer.analyze] *)
(* ================================================================== *)

Section analyze_facts.
Context `{cv : Cv2} {laws : Cv2Laws cv} `{F : Float64} `{F32 : Float32}.



(** What [analyze] returns on a grid, with the store it leaves. *)
Lemma analyze_run h l a cfg :
  h !! l = Some a → wf_ndarray a → ndim a = 2%nat → size a ≠ 0%nat →
  ∃ hd h',
    run (DepthAnalyzer.analyze (PyNdarray l) cfg) h = (Returned hd, h')
    ∧ analyze_post h cfg a hd h'.
Proof.
  intros Hl Hwf Hnd Hsz. apply analyze_returns; [done|].
  by apply is_grid_intro.
Qed.

End analyze_facts.

Section analyze_claims.
Context `{cv : Cv2} {laws : Cv2Laws cv} {keeps : Cv2KeepsDtype cv}.
Context `{F : Float64} `{F32 : Float32}.
Import ConversionConfig.







End analyze_claims.

(* ================================================================== *)
(** * Reference instances of the roundings

    [Exact] is arithmetic without rounding: every number is taken for
    a float.  [Binary.round p emin] rounds a rational to the nearest
    number with [p] significant bits that is a multiple of [2^emin],
    ties to even: with 53 bits it is IEEE 754 binary64, with 24 bits
    binary32, but for the infinities, which are not represented. *)
(* ================================================================== *)

Module Exact.
#[global] Instance float : Float64 := {| fl := λ x, x |}.
#[global] Instance float32 : Float32 := {| fl32 := λ x, x |}.

Lemma float_laws : Float64Laws float.
Proof.
  split; cbn.
  - done.
  - done.
  - intros x H1 H2. unfold unit_roundoff. split; lra.
Qed.
End Exact.

Module Binary.
Definition pow2 (e : Z) : Q :=
  if (0 <=? e)%Z then inject_Z (2 ^ e) else 1 # Z.to_pos (2 ^ (- e)).

(** [floor (log2 x)], for [0 < x] *)
Definition exponent (x : Q) : Z :=
  let e := (Z.log2 (Qnum x) - Z.log2 (Z.pos (Qden x)))%Z in
  if Qle_bool (pow2 e) x then e else (e - 1)%Z.

Definition round_half_even (x : Q) : Z :=
  let f := (Qnum x / Z.pos (Qden x))%Z in
  match Qcompare (x - inject_Z f) (1 # 2) with
  | Lt => f
  | Eq => if Z.even f then f else (f + 1)%Z
  | Gt => (f + 1)%Z
  end.

Definition round_pos (p emin : Z) (x : Q) : Q :=
  let e := Z.max (exponent x - (p - 1)) emin in
  Qred (inject_Z (round_half_even (x / pow2 e)) * pow2 e).

Definition round (p emin : Z) (x : Q) : Q :=
  match Qnum x with
  | Z0 => 0
  | Z.pos _ => round_pos p emin x
  | Z.neg _ => - round_pos p emin (- x)
  end.
End Binary.

Module Binary64.
Definition round : Q → Q := Binary.round 53 (-1074).
Definition float : Float64 := {| fl := round |}.
End Binary64.

Module Binary32.
Definition round : Q → Q := Binary.round 24 (-149).
Definition float32 : Float32 := {| fl32 := round |}.
End Binary32.





(** The 2x3 ramp analysed without smoothing: the heights run from 2
    to 17, and from 17 to 2 when the depth is inverted. *)
Example analyze_ramp23 :
  let r := run (DepthAnalyzer.analyze (cv := Cv2Ref.cv) (PyNdarray 0)
                  Sample.plain) [Sample.ramp23] in
  r.1 = Returned (HeightData.Build 6 100 (200 # 3) (2, 3)%nat)
  ∧ (λ a : ndarray, Qred <$> data a) <$> (r.2 !! 6%nat)
    = Some [2; 5; 8; 11; 14; 17].
Proof. vm_compute. done. Qed.

Example analyze_ramp23_inverted :
  let r := run (DepthAnalyzer.analyze (cv := Cv2Ref.cv) (PyNdarray 0)
                  Sample.inverted) [Sample.ramp23] in
  r.1 = Returned (HeightData.Build 8 100 (200 # 3) (2, 3)%nat)
  ∧ (λ a : ndarray, Qred <$> data a) <$> (r.2 !! 8%nat)
    = Some [17; 14; 11; 8; 5; 2].
Proof. vm_compute. done. Qed.

(** ** The roundings at work

    With the binary roundings the model follows the code where exact
    arithmetic would not.  The two values [1e8] and [1e8 + 1] are one
    float32, so the grid is flat after the cast and comes out at the
    base thickness; [16] and [16.00000096] are less than [1e-6] apart
    as doubles and more than that as float32, so the grid is scaled.
    A flat grid analysed with a base thickness of [0.7] holds the
    float32 nearest [0.7], which is below it.  A flat grid of integers
    filled with [2.5] holds [2].  And 640 rows at the double nearest
    [0.7] become 448, where the exact product truncates to 447. *)
Module Rounded.
Definition near_1e8 : ndarray :=
  NDArray float64 [1; 2]%nat [100000000; 100000001].
Definition near_16 : ndarray :=
  NDArray float64 [1; 2]%nat [16; 16 + (96 # 100000000)].
Definition thin : ConversionConfig.t :=
  ConversionConfig.Build (7 # 10) 15 100 1 false false "relief".
Definition ints : ndarray := NDArray int64 [1; 2]%nat [3; 3].
Definition heights_of (r : result HeightData.t * heap) : option (list Q) :=
  match r.1 with
  | Returned hd => (λ a : ndarray, Qred <$> data a)
                     <$> (r.2 !! HeightData.heights hd)
  | Raised _ => None
  end.
Definition analyze (a : ndarray) (cfg : ConversionConfig.t)
    : option (list Q) :=
  heights_of (run (DepthAnalyzer.analyze (cv := Cv2Ref.cv)
                     (F := Binary64.float) (F32 := Binary32.float32)
                     (PyNdarray 0) cfg) [a]).
End Rounded.

Example analyze_near_1e8 :
  Rounded.analyze Rounded.near_1e8 Sample.plain = Some [2; 2]
  ∧ Rounded.heights_of
      (run (DepthAnalyzer.analyze (cv := Cv2Ref.cv)
              (F := Exact.float) (F32 := Exact.float32)
              (PyNdarray 0) Sample.plain) [Rounded.near_1e8])
    = Some [2; 17].
Proof. split; vm_compute; reflexivity. Qed.

Example analyze_near_16 :
  Rounded.analyze Rounded.near_16 Sample.plain = Some [2; 17]
  ∧ Stage.span Rounded.near_16 < eps
  ∧ eps <= Stage.span (as_float32 (F32 := Binary32.float32)
                         Rounded.near_16).
Proof. split_and!; vm_compute; done. Qed.

Example analyze_flat_thin :
  Rounded.analyze Sample.flat22 Rounded.thin
  = Some (replicate 4 (11744051 # 16777216))
  ∧ (11744051 # 16777216) < 7 # 10.
Proof. split; vm_compute; reflexivity. Qed.

Example full_like_ints :
  (λ a : ndarray, data a)
    <$> (run (DepthAnalyzer._normalize_to_range
                (F := Binary64.float) (F32 := Binary32.float32)
                0%nat (5 # 2) 10) [Rounded.ints]).2 !! 1%nat
  = Some [2; 2].
Proof. vm_compute. reflexivity. Qed.

Example scaled_dim_640 :
  let d := Binary64.round (7 # 10) in
  Stage.scaled_dim (F := Binary64.float) 640 d = 448%Z
  ∧ py_int (inject_Z 640 * d) = 447%Z
  ∧ Stage.scaled_dim (F := Binary64.float) 480 d = 336%Z
  ∧ Stage.scaled_dim (F := Binary64.float) 50 d = 35%Z.
Proof. split_and!; vm_compute; reflexivity. Qed.

(* ================================================================== *)
(** * The input is never written; the resolution of the output *)
(* ================================================================== *)

Section analyze_shape.
Context `{cv : Cv2} {laws : Cv2Laws cv} `{F : Float64} `{F32 : Float32}.
Import ConversionConfig.

Lemma resample_shape d a r c :
  is_grid a → shape a = [r; c] →
  shape (Stage.resample d a)
  = [Z.to_nat (Stage.target_dim r d); Z.to_nat (Stage.target_dim c d)].
Proof.
  intros Hg Hs. unfold Stage.resample. rewrite Hs.
  case_bool_decide as Heq.
  - injection Heq as -> ->. by rewrite Hs, !Nat2Z.id.
  - unfold Stage.target_dim.
    pose proof (clamp_dim_range (Stage.scaled_dim r d)).
    pose proof (clamp_dim_range (Stage.scaled_dim c d)).
    apply resize_shape; [done|lia..].
Qed.

Lemma normalize_shape lo hi a :
  shape (Stage.normalize_to_range lo hi a) = shape a.
Proof. unfold Stage.normalize_to_range. by case_match. Qed.

(** After the resample step the shape no longer changes. *)
Lemma pipeline_shape cfg a :
  is_grid a →
  shape (Stage.pipeline cfg a)
  = shape (Stage.only_if (negb (Qeq_bool (detail_level cfg) 1))
                         (Stage.resample (detail_level cfg)) a).
Proof.
  intros Hg. unfold Stage.pipeline, compose. rewrite normalize_shape.
  set (a1 := Stage.only_if _ (Stage.resample _) a).
  assert (is_grid a1) as Hg1
    by (apply is_grid_only_if; [apply is_grid_resample|done]).
  assert (is_grid (Stage.only_if (invert_depth cfg) Stage.invert a1))
    as Hg2 by (apply is_grid_only_if; [apply is_grid_invert|done]).
  destruct (smoothing cfg); cbn.
  - unfold Stage.smooth. rewrite GaussianBlur_shape by done.
    by destruct (invert_depth cfg).
  - by destruct (invert_depth cfg).
Qed.

(** C9.  [analyze] does not write to the caller's depth map: on a
    non-empty 2D grid and a valid configuration it returns, and in the
    store it leaves the input array -- like every object that existed
    before the call -- is what it was; the height grid it returns is a
    new object.  Nor does a call that raises write to an object: for
    any argument and any store, what was in the store is still
    there. *)
Theorem analyze_preserves_input (h : heap) (l : loc) (a : ndarray)
    (cfg : ConversionConfig.t) :
  config_valid cfg →
  h !! l = Some a → wf_ndarray a → ndim a = 2%nat → size a ≠ 0%nat →
  (∃ hd h',
     run (DepthAnalyzer.analyze (PyNdarray l) cfg) h = (Returned hd, h')
     ∧ h' !! l = Some a
     ∧ (∀ l0 b, h !! l0 = Some b → h' !! l0 = Some b)
     ∧ HeightData.heights hd ≠ l
     ∧ h !! HeightData.heights hd = None)
  ∧ (∀ v (h0 : heap) l0 b,
       h0 !! l0 = Some b →
       (run (DepthAnalyzer.analyze v cfg) h0).2 !! l0 = Some b).
Proof.
  intros _ Hl Hwf Hnd Hsz. split.
  - destruct (analyze_run h l a cfg Hl Hwf Hnd Hsz)
      as (hd & h' & Hrun & (Hpre & Hlen & _) & _).
    exists hd, h'. split; [exact Hrun|].
    assert (∀ l0 b, h !! l0 = Some b → h' !! l0 = Some b) as Hframe.
    { intros l0 b Hb. by eapply prefix_lookup_Some. }
    split_and!; [by apply Hframe|exact Hframe| |].
    + apply lookup_lt_Some in Hl. lia.
    + by apply lookup_ge_None.
  - intros v h0 l0 b Hb.
    eapply prefix_lookup_Some; [exact Hb|apply mono_analyze].
Qed.

(** C10.  With [detail_level] equal to [1.0] the resample step is
    skipped and nothing is clamped: the height grid has the resolution
    of the input, below 32 per axis if the input is.  With any other
    [detail_level] both dimensions of the height grid lie in
    [[32, 2048]], so a smaller grid is scaled up to at least 32 per
    axis, also for a [detail_level] below one. *)
Theorem analyze_resolution (h : heap) (l : loc) (a : ndarray)
    (cfg : ConversionConfig.t) (r c : nat) :
  h !! l = Some a → wf_ndarray a → shape a = [r; c] →
  (0 < r)%nat → (0 < c)%nat →
  ∃ hd h' out,
    run (DepthAnalyzer.analyze (PyNdarray l) cfg) h = (Returned hd, h')
    ∧ h' !! HeightData.heights hd = Some out
    ∧ (detail_level cfg == 1 →
       shape out = [r; c] ∧ HeightData.resolution hd = (r, c))
    ∧ (¬ detail_level cfg == 1 →
       ∃ r' c', shape out = [r'; c'] ∧ HeightData.resolution hd = (r', c')
                ∧ (32 ≤ r' ≤ 2048)%nat ∧ (32 ≤ c' ≤ 2048)%nat).
Proof.
  intros Hl Hwf Hs Hr Hc.
  assert (ndim a = 2%nat) as Hnd by (unfold ndim; by rewrite Hs).
  assert (size a ≠ 0%nat) as Hsz by (unfold size; rewrite Hs; cbn; nia).
  destruct (analyze_run h l a cfg Hl Hwf Hnd Hsz)
    as (hd & h' & Hrun & Hfresh & _ & _ & rows & cols & Hso & Hres & _).
  assert (is_grid (as_float32 a)) as Hg
    by by apply is_grid_retype, is_grid_intro.
  eexists hd, h', _. split; [exact Hrun|]. split; [apply Hfresh|].
  rewrite pipeline_shape in Hso by done. rewrite pipeline_shape by done.
  split.
  - intros Heq%Qeq_bool_iff. rewrite Heq in Hso |- *. cbn in Hso |- *.
    rewrite Hs in Hso. injection Hso as <- <-. by rewrite Hs.
  - intros Hneq. destruct (Qeq_bool (detail_level cfg) 1) eqn:E.
    { apply Qeq_bool_iff in E. done. }
    cbn in Hso |- *. rewrite (resample_shape _ _ r c) in Hso |- * by done.
    injection Hso as <- <-. eexists _, _. split; [done|]. split; [done|].
    unfold Stage.target_dim.
    pose proof (clamp_dim_range (Stage.scaled_dim r (detail_level cfg))).
    pose proof (clamp_dim_range (Stage.scaled_dim c (detail_level cfg))).
    lia.
Qed.

End analyze_shape.

Lemma analyze_preserves_input_witness :
  ∃ hd h',
    run (DepthAnalyzer.analyze (cv := Cv2Ref.cv) (PyNdarray 0) Sample.inverted)
        [Sample.ramp23] = (Returned hd, h')
    ∧ h' !! 0%nat = Some Sample.ramp23
    ∧ (∀ l0 b, [Sample.ramp23] !! l0 = Some b → h' !! l0 = Some b)
    ∧ HeightData.heights hd ≠ 0%nat
    ∧ [Sample.ramp23] !! HeightData.heights hd = None.
Proof.
  apply (analyze_preserves_input (cv := Cv2Ref.cv)
           [Sample.ramp23] 0%nat Sample.ramp23 Sample.inverted).
  - reflexivity.
  - reflexivity.
  - reflexivity.
  - reflexivity.
  - cbn. lia.
Defined.

(* ================================================================== *)
(** * Detail level and the number of grid points *)
(* ================================================================== *)

Lemma py_int_floor (x : Q) (n : Z) :
  (0 ≤ n)%Z → inject_Z n <= x → x < inject_Z (n + 1) → py_int x = n.
Proof.
  destruct x as [p q]. unfold py_int, Qle, Qlt. cbn. intros Hn H1 H2.
  rewrite Z.quot_div_nonneg by nia.
  symmetry. apply (Z.div_unique p (Z.pos q) n (p - n * Z.pos q)); nia.
Qed.


Section rounding.
Context `{F : Float64} {FL : Float64Laws F}.




End rounding.

Section scaled_dims.
Context `{F : Float64} {FL : Float64Laws F}.




End scaled_dims.

(** A target dimension is not clamped when clamping leaves the scaled
    dimension as it is. *)
Definition unclamped `{F : Float64} (n : nat) (d : Q) : Prop :=
  Stage.target_dim n d = Stage.scaled_dim n d.


Module Sample2.
Definition coarse : ConversionConfig.t :=
  ConversionConfig.Build 2 15 100 (1 # 2) true false "relief".
End Sample2.

Section detail_level.
Context `{cv : Cv2} {laws : Cv2Laws cv}.
Context `{F : Float64} {FL : Float64Laws F} `{F32 : Float32}.
Import ConversionConfig.


End detail_level.


Lemma analyze_resolution_witness :
  ∃ hd h' out,
    run (DepthAnalyzer.analyze (cv := Cv2Ref.cv) (PyNdarray 0) Sample2.coarse)
        [Sample.ramp23] = (Returned hd, h')
    ∧ h' !! HeightData.heights hd = Some out
    ∧ (1 # 2 == 1 →
       shape out = [2; 3]%nat ∧ HeightData.resolution hd = (2, 3)%nat)
    ∧ (¬ 1 # 2 == 1 →
       ∃ r' c', shape out = [r'; c'] ∧ HeightData.resolution hd = (r', c')
                ∧ (32 ≤ r' ≤ 2048)%nat ∧ (32 ≤ c' ≤ 2048)%nat).
Proof.
  apply (analyze_resolution (cv := Cv2Ref.cv)
           [Sample.ramp23] 0%nat Sample.ramp23 Sample2.coarse 2 3).
  - reflexivity.
  - reflexivity.
  - reflexivity.
  - lia.
  - lia.
Defined.

(** A 10x10 grid shows why the targets must not be clamped: at 0.5 and
    at 2.0 alike both dimensions end up at the lower limit. *)
Example clamped_targets_coincide :
  Stage.target_dim 10 (1 # 2) = 32%Z ∧ Stage.target_dim 10 2 = 32%Z
  ∧ ¬ unclamped 10 (1 # 2) ∧ ¬ unclamped 10 2.
Proof. split_and!; [done|done|by intros [=]|by intros [=]]. Qed.

Example coarse_analysis_of_small_grid :
  HeightData.resolution
    <$> match (run (DepthAnalyzer.analyze (cv := Cv2Ref.cv) (PyNdarray 0)
                      Sample2.coarse) [Sample.ramp23]).1 with
        | Returned hd => Some hd
        | Raised _ => None
        end
  = Some (32, 32)%nat.
Proof. vm_compute. done. Qed.

(* ================================================================== *)
(** * Inversion *)
(* ================================================================== *)

Section invert_facts.
Variable a : ndarray.
Hypothesis Hne : data a ≠ [].

Let mn := Stage.grid_min a.
Let mx := Stage.grid_max a.
Let f := λ v : Q, mx - v + mn.

Lemma invert_data : data (Stage.invert a) = f <$> data a.
Proof. done. Qed.

Lemma invert_bounds v : v ∈ data a → mn <= f v ∧ f v <= mx.
Proof.
  intros Hv. unfold f, mn, mx.
  pose proof (proj2 (grid_min_spec a Hne) v Hv).
  pose proof (proj2 (grid_max_spec a Hne) v Hv).
  split; lra.
Qed.

Lemma invert_at_max : f mx == mn.
Proof. unfold f. ring. Qed.

Lemma invert_at_min : f mn == mx.
Proof. unfold f. ring. Qed.

(** The reflected grid has the minimum and the maximum of the
    original. *)
Lemma invert_min_max :
  ∃ mn' mx',
    Qlist_min (data (Stage.invert a)) = Some mn'
    ∧ Qlist_max (data (Stage.invert a)) = Some mx'
    ∧ mn' == mn ∧ mx' == mx.
Proof.
  rewrite invert_data.
  destruct (Qlist_min_fmap_exists f _ Hne) as [mn' Hmn'].
  destruct (Qlist_max_fmap_exists f _ Hne) as [mx' Hmx'].
  exists mn', mx'. split_and!; [done..| |].
  - rewrite <- invert_at_max.
    eapply Qlist_min_unique; [exact Hmn'| |].
    + apply list_elem_of_fmap_2, grid_max_spec, Hne.
    + intros y (v & -> & Hv)%list_elem_of_fmap.
      rewrite invert_at_max. by apply invert_bounds.
  - rewrite <- invert_at_min.
    eapply Qlist_max_unique; [exact Hmx'| |].
    + apply list_elem_of_fmap_2, grid_min_spec, Hne.
    + intros y (v & -> & Hv)%list_elem_of_fmap.
      rewrite invert_at_min. by apply invert_bounds.
Qed.



End invert_facts.



Example invert_ramp23 :
  run (DepthAnalyzer._invert 0) [Sample.ramp23]
  = (Returned 2%nat,
     [Sample.ramp23;
      NDArray float64 [2; 3]%nat [6 - 1; 6 - 2; 6 - 3; 6 - 4; 6 - 5; 6 - 6];
      NDArray float64 [2; 3]%nat
        [6 - 1 + 1; 6 - 2 + 1; 6 - 3 + 1; 6 - 4 + 1; 6 - 5 + 1; 6 - 6 + 1]]).
Proof. reflexivity. Qed.

(* ================================================================== *)
(** * Input validation *)
(* ================================================================== *)

Lemma _validate_rejects h l a :
  h !! l = Some a → ndim a ≠ 2%nat ∨ size a = 0%nat →
  ∃ msg, run (DepthAnalyzer._validate_depth_map (PyNdarray l)) h
         = (Raised (Exn ValueError msg), h).
Proof.
  intros Hl Hbad. unfold DepthAnalyzer._validate_depth_map.
  rewrite run_bind, (run_load h l a Hl).
  destruct (Nat.eqb_spec (ndim a) 2) as [Hnd|Hnd]; cbn [negb].
  - destruct Hbad as [?|Hsz]; [done|]. rewrite Hsz. cbn. by eexists.
  - by eexists.
Qed.

Section input_validation.
Context `{cv : Cv2} {laws : Cv2Laws cv} `{F : Float64} `{F32 : Float32}.

(** C5, as the code has it.  On an array, [analyze] raises exactly when
    the array is not 2D or is empty.  The exception is Python's
    [ValueError], raised by [_validate_depth_map] on entry: the store
    is as it was, no array has been created.  A non-empty 2D array
    makes [analyze] return.  A value that is not an array is rejected
    with [ValueError] as well. *)
Theorem analyze_input_validation (h : heap) (l : loc) (a : ndarray)
    (cfg : ConversionConfig.t) :
  h !! l = Some a → wf_ndarray a →
  (raises (run (DepthAnalyzer.analyze (PyNdarray l) cfg) h).1
   ↔ ndim a ≠ 2%nat ∨ size a = 0%nat)
  ∧ (ndim a ≠ 2%nat ∨ size a = 0%nat →
     ∃ msg,
       run (DepthAnalyzer._validate_depth_map (PyNdarray l)) h
       = (Raised (Exn ValueError msg), h)
       ∧ run (DepthAnalyzer.analyze (PyNdarray l) cfg) h
         = (Raised (Exn ValueError msg), h))
  ∧ (ndim a = 2%nat → size a ≠ 0%nat →
     ∃ hd h',
       run (DepthAnalyzer.analyze (PyNdarray l) cfg) h = (Returned hd, h'))
  ∧ (∀ rows,
       run (DepthAnalyzer.analyze (PyList rows) cfg) h
       = (Raised (Exn ValueError "depth_map must be a numpy array"), h)).
Proof.
  intros Hl Hwf.
  assert (ndim a ≠ 2%nat ∨ size a = 0%nat →
     ∃ msg,
       run (DepthAnalyzer._validate_depth_map (PyNdarray l)) h
       = (Raised (Exn ValueError msg), h)
       ∧ run (DepthAnalyzer.analyze (PyNdarray l) cfg) h
         = (Raised (Exn ValueError msg), h)) as Hbad.
  { intros Hbad. destruct (_validate_rejects h l a Hl Hbad) as [msg Hmsg].
    exists msg. split; [exact Hmsg|].
    unfold DepthAnalyzer.analyze. by rewrite run_bind, Hmsg. }
  assert (ndim a = 2%nat → size a ≠ 0%nat →
     ∃ hd h',
       run (DepthAnalyzer.analyze (PyNdarray l) cfg) h = (Returned hd, h'))
    as Hgood.
  { intros Hnd Hsz.
    destruct (analyze_run h l a cfg Hl Hwf Hnd Hsz) as (hd & h' & Hrun & _).
    eauto. }
  split_and!; [|exact Hbad|exact Hgood|done].
  split.
  - intros [e He].
    destruct (decide (ndim a = 2%nat)) as [Hnd|]; [|by left].
    destruct (decide (size a = 0%nat)) as [|Hsz]; [by right|].
    destruct (Hgood Hnd Hsz) as (hd & h' & Hrun).
    rewrite Hrun in He. done.
  - intros [msg [_ Hrun]]%Hbad. rewrite Hrun. by eexists.
Qed.

End input_validation.

(** On the 1D array [[1, 2, 3]] and on a 2D array without elements. *)
Lemma analyze_input_validation_witness :
  (raises (run (DepthAnalyzer.analyze (cv := Cv2Ref.cv) (PyNdarray 0)
                  ConversionConfig.default) [Sample.vec3]).1
   ↔ ndim Sample.vec3 ≠ 2%nat ∨ size Sample.vec3 = 0%nat)
  ∧ (ndim Sample.vec3 ≠ 2%nat ∨ size Sample.vec3 = 0%nat →
     ∃ msg,
       run (DepthAnalyzer._validate_depth_map (PyNdarray 0)) [Sample.vec3]
       = (Raised (Exn ValueError msg), [Sample.vec3])
       ∧ run (DepthAnalyzer.analyze (cv := Cv2Ref.cv) (PyNdarray 0)
                ConversionConfig.default) [Sample.vec3]
         = (Raised (Exn ValueError msg), [Sample.vec3]))
  ∧ (ndim Sample.vec3 = 2%nat → size Sample.vec3 ≠ 0%nat →
     ∃ hd h',
       run (DepthAnalyzer.analyze (cv := Cv2Ref.cv) (PyNdarray 0)
              ConversionConfig.default) [Sample.vec3] = (Returned hd, h'))
  ∧ (∀ rows,
       run (DepthAnalyzer.analyze (cv := Cv2Ref.cv) (PyList rows)
              ConversionConfig.default) [Sample.vec3]
       = (Raised (Exn ValueError "depth_map must be a numpy array"),
          [Sample.vec3])).
Proof.
  apply (analyze_input_validation (cv := Cv2Ref.cv)
           [Sample.vec3] 0%nat Sample.vec3 ConversionConfig.default).
  - reflexivity.
  - reflexivity.
Defined.

(** "Fails with the pipeline's typed input error": the exception
    raised is one of the package's own classes, those deriving from
    [ImageToScadError]. *)
Definition raises_typed_error {A} (r : result A) : Prop :=
  ∃ e, r = Raised e ∧ is_ImageToScadError (exn_cls e) = true.

(** C5 as stated does not hold.  The 1D array [[1, 2, 3]] is not 2D,
    yet [analyze] does not fail with a typed error of the package on
    it: what it raises is the built-in [ValueError].  And the 2x2 grid
    [[[1, 2], [3, 4]]], handed over as a nested list, is 2D and not
    empty and is rejected all the same. *)
Lemma analyze_input_error_counterexample :
  (let r := (run (DepthAnalyzer.analyze (cv := Cv2Ref.cv) (PyNdarray 0)
                    ConversionConfig.default) [Sample.vec3]).1 in
   r = Raised (Exn ValueError "depth_map must be 2D, got 1D")
   ∧ ¬ (raises_typed_error r
        ↔ ndim Sample.vec3 ≠ 2%nat ∨ size Sample.vec3 = 0%nat))
  ∧ (let rows := [[1; 2]; [3; 4]] in
     let r := (run (DepthAnalyzer.analyze (cv := Cv2Ref.cv) (PyList rows)
                      ConversionConfig.default) []).1 in
     length rows = 2%nat
     ∧ Forall (λ row, length row = 2%nat) rows
     ∧ r = Raised (Exn ValueError "depth_map must be a numpy array")).
Proof.
  split.
  - split; [reflexivity|]. intros [_ Hclaim].
    destruct Hclaim as (e & He & Hcls); [left; cbn; lia|].
    vm_compute in He. injection He as <-. discriminate Hcls.
  - split; [reflexivity|]. split; [repeat constructor|reflexivity].
Qed.

(* ================================================================== *)
(** * Construction of a configuration *)
(* ================================================================== *)

Lemma __post_init___raises_ValueError cfg e :
  ConversionConfig.__post_init__ cfg = Raised e → exn_cls e = ValueError.
Proof.
  unfold ConversionConfig.__post_init__.
  repeat case_match; intros [= <-]; done.
Qed.

Lemma new_rejects_detail_2_5 bt mh mw sm inv os :
  raises_class ValueError (ConversionConfig.new bt mh mw (5 # 2) sm inv os).
Proof.
  unfold ConversionConfig.new, ConversionConfig.__post_init__. cbn.
  change (Qle_bool (1 # 2) (5 # 2) && Qle_bool (5 # 2) 2) with false.
  cbn [negb].
  destruct (Qle_bool bt 0), (Qle_bool mh 0), (Qle_bool mw 0); by eexists.
Qed.

(** C6, amended.  For parameters that are numbers, the constructor of
    [ConversionConfig] raises exactly when a parameter is out of its
    range: [base_thickness <= 0], [max_height <= 0],
    [model_width <= 0], [detail_level] outside [[0.5, 2.0]], or an
    [output_style] other than ["relief"].  The exception is the
    built-in [ValueError], not a configuration error of the package;
    a configuration object is handed out only if every parameter is
    in range, and then it carries the parameters given.
    [detail_level = 2.5] is rejected. *)
Theorem config_construction_validates (bt mh mw dl : Q) (sm inv : bool)
    (os : string) :
  let r := ConversionConfig.new bt mh mw dl sm inv os in
  (raises r ↔
     bt <= 0 ∨ mh <= 0 ∨ mw <= 0 ∨ ¬ ((1 # 2) <= dl ∧ dl <= 2)
     ∨ os ≠ "relief"%string)
  ∧ (raises r → raises_class ValueError r)
  ∧ (∀ cfg, r = Returned cfg →
       cfg = ConversionConfig.Build bt mh mw dl sm inv os ∧ config_valid cfg)
  ∧ (raises r ∨ ∃ cfg, r = Returned cfg)
  ∧ raises_class ValueError
      (ConversionConfig.new bt mh mw (5 # 2) sm inv os).
Proof.
  set (self := ConversionConfig.Build bt mh mw dl sm inv os).
  assert (ConversionConfig.new bt mh mw dl sm inv os =
          match ConversionConfig.__post_init__ self with
          | Raised e => Raised e
          | Returned _ => Returned self
          end) as Hnew by done.
  cbn zeta. rewrite Hnew. clear Hnew.
  pose proof (config_valid_iff self) as Hvalid.
  pose proof (__post_init___raises_ValueError self) as Hcls.
  unfold config_valid in Hvalid. cbn in Hvalid.
  destruct (ConversionConfig.__post_init__ self) as [e|[]] eqn:E.
  - assert (bt <= 0 ∨ mh <= 0 ∨ mw <= 0 ∨ ¬ ((1 # 2) <= dl ∧ dl <= 2)
            ∨ os ≠ "relief"%string) as Hout.
    { destruct (Qlt_le_dec 0 bt); [|by left].
      destruct (Qlt_le_dec 0 mh); [|by right; left].
      destruct (Qlt_le_dec 0 mw); [|by right; right; left].
      destruct (Qlt_le_dec dl (1 # 2)).
      { right; right; right; left. intros []. lra. }
      destruct (Qlt_le_dec 2 dl).
      { right; right; right; left. intros []. lra. }
      destruct (decide (os = "relief"%string)); [|by repeat right].
      assert (Raised e = Returned ()) by by apply Hvalid. done. }
    split_and!.
    + split; [done|]. intros _. by eexists.
    + intros _. destruct e as [c msg]. exists msg.
      specialize (Hcls _ eq_refl). cbn in Hcls. by rewrite Hcls.
    + done.
    + left. by eexists.
    + apply new_rejects_detail_2_5.
  - destruct Hvalid as [Hvalid _]. specialize (Hvalid eq_refl).
    destruct Hvalid as (? & ? & ? & ? & ? & ?).
    split_and!.
    + split; [intros []; done|].
      intros [?|[?|[?|[Hn|?]]]]; first [lra | done | by destruct Hn].
    + intros []. done.
    + intros cfg [= <-]. done.
    + right. by eexists.
    + apply new_rejects_detail_2_5.
Qed.

(** C6 as stated does not hold.  Constructing a configuration with
    [detail_level = 2.5] and every other parameter at its default
    raises, but not a configuration error: the exception is the
    built-in [ValueError], which is neither [ConfigurationError] nor
    any other class deriving from [ImageToScadError]. *)
Lemma config_construction_counterexample :
  let r := ConversionConfig.new 2 15 100 (5 # 2) true false "relief" in
  r = Raised (Exn ValueError "detail_level must be between 0.5 and 2.0")
  ∧ ¬ raises_class ConfigurationError r
  ∧ ¬ raises_typed_error r.
Proof.
  cbn zeta. split; [reflexivity|]. split.
  - intros [msg Hr]. vm_compute in Hr. discriminate Hr.
  - intros (e & He & Hcls). vm_compute in He. injection He as <-.
    discriminate Hcls.
Qed.

Example config_rejects_detail_level :
  ConversionConfig.new 2 15 100 (5 # 2) true false "relief"
  = Raised (Exn ValueError "detail_level must be between 0.5 and 2.0").
Proof. reflexivity. Qed.

Example config_rejects_base_thickness :
  ConversionConfig.new 0 15 100 1 true false "relief"
  = Raised (Exn ValueError "base_thickness must be positive").
Proof. reflexivity. Qed.

Example config_rejects_output_style :
  ConversionConfig.new 2 15 100 1 true false "lithophane"
  = Raised (Exn ValueError "Unsupported output_style: lithophane").
Proof. reflexivity. Qed.

Example config_defaults_accepted :
  ConversionConfig.new 2 15 100 1 true false "relief"
  = Returned ConversionConfig.default.
Proof. reflexivity. Qed.

(* ================================================================== *)
(** * The Surface Mesh Builder

    The module that builds the mesh ([pipeline/scad_generator.py]) is
    not among the sources at hand; what follows is written from the
    specification of the Surface Mesh Builder.

    Conventions: [x] grows with the column index, [y] with the row
    index, [z] is up, the frame is right-handed; a face lists its
    vertices counter-clockwise as seen from the side its normal points
    to, so each face induces a direction on each of its edges. *)
(* ================================================================== *)

Module Mesh.

(** Modelled from the spec: the typed error of the Mesh Builder
    ("reject with GeometryError if a dimension is < 2"). *)
Inductive error : Set := GeometryError (msg : string).

(** Modelled from the spec: the Mesh of the data model, "an ordered
    sequence of 3D vertices" and "an ordered sequence of faces, each
    face a tuple of vertex indices". *)
Record mesh : Type := Build {
  vertices : list (Q * Q * Q);
  faces : list (list nat)
}.

Section faces.
Context {V : Type} (top base : nat → nat → V).

(** Modelled from the spec: "Top surface: two triangles per interior
    grid cell connecting its four corner vertices, oriented with
    upward-facing normals".  The cell with corner [(r, c)] has the
    corners [(r, c)], [(r, c+1)], [(r+1, c+1)], [(r+1, c)]. *)
Definition top_faces (r c : nat) : list (list V) :=
  [[top r c; top r (S c); top (S r) (S c)];
   [top r c; top (S r) (S c); top (S r) c]].

(** Modelled from the spec: "Base: a flat closing surface at z = 0", on
    the "mirrored set of vertices at z = 0": the triangles of the top
    surface mirrored, with the winding reversed (normals pointing
    down). *)
Definition base_faces (r c : nat) : list (list V) :=
  [[base r c; base (S r) (S c); base r (S c)];
   [base r c; base (S r) c; base (S r) (S c)]].

(** Modelled from the spec: "Walls: one quad per boundary edge cell
    connecting the top-surface boundary to the corresponding base
    boundary"; one wall along each of the four sides of the grid
    (row 0, the last row, column 0, the last column), facing outward. *)
Definition wall_north (c : nat) : list V :=
  [top 0 (S c); top 0 c; base 0 c; base 0 (S c)].
Definition wall_south (R c : nat) : list V :=
  [top (R - 1) c; top (R - 1) (S c); base (R - 1) (S c); base (R - 1) c].
Definition wall_west (r : nat) : list V :=
  [top r 0; top (S r) 0; base (S r) 0; base r 0].
Definition wall_east (C r : nat) : list V :=
  [top (S r) (C - 1); top r (C - 1); base r (C - 1); base (S r) (C - 1)].

(** The grid cells of an [R] x [C] grid, by their corner [(r, c)]. *)
Definition cells (R C : nat) : list (nat * nat) :=
  r ← seq 0 (R - 1); c ← seq 0 (C - 1); [(r, c)].

(** Modelled from the spec: the faces of the mesh of an [R] x [C]
    height grid: top surface, base, walls. *)
Definition build_faces (R C : nat) : list (list V) :=
  (cells R C ≫= λ rc, top_faces rc.1 rc.2)
  ++ (cells R C ≫= λ rc, base_faces rc.1 rc.2)
  ++ (wall_north <$> seq 0 (C - 1))
  ++ (wall_south R <$> seq 0 (C - 1))
  ++ (wall_west <$> seq 0 (R - 1))
  ++ (wall_east C <$> seq 0 (R - 1)).

End faces.

(** Vertex indices: the top vertices row by row, then the base
    vertices in the same order. *)
Definition top_index (C : nat) (r c : nat) : nat := (r * C + c)%nat.
Definition base_index (R C : nat) (r c : nat) : nat :=
  (R * C + (r * C + c))%nat.

(** [heights[r, c]] *)
Definition height_at (heights : ndarray) (C r c : nat) : Q :=
  nth (r * C + c) (data heights) 0.

(** Modelled from the spec: "a vertex for every grid cell at its top
    surface position (x, y, height(r,c)) scaled into the
    [0, widthMm] x [0, heightMm] plane, plus a mirrored set of vertices
    at z = 0 for the base". *)
Definition grid_x (width_mm : Q) (C c : nat) : Q :=
  inject_Z (Z.of_nat c) * width_mm / inject_Z (Z.of_nat (C - 1)).
Definition grid_y (height_mm : Q) (R r : nat) : Q :=
  inject_Z (Z.of_nat r) * height_mm / inject_Z (Z.of_nat (R - 1)).

Definition grid_points (R C : nat) : list (nat * nat) :=
  r ← seq 0 R; c ← seq 0 C; [(r, c)].

Definition build_vertices (heights : ndarray) (width_mm height_mm : Q)
    (R C : nat) : list (Q * Q * Q) :=
  ((λ rc, (grid_x width_mm C rc.2, grid_y height_mm R rc.1,
           height_at heights C rc.1 rc.2)) <$> grid_points R C)
  ++ ((λ rc, (grid_x width_mm C rc.2, grid_y height_mm R rc.1, 0))
        <$> grid_points R C).

(** Modelled from the spec: [build(heightField) -> Mesh], which
    rejects a grid with a dimension below 2. *)
Definition build (heights : ndarray) (width_mm height_mm : Q)
    : error + mesh :=
  match shape heights with
  | [R; C] =>
      if (R <? 2)%nat || (C <? 2)%nat then
        inl (GeometryError "a surface needs at least a 2x2 grid")
      else
        inr (Build (build_vertices heights width_mm height_mm R C)
                   (build_faces (top_index C) (base_index R C) R C))
  | _ => inl (GeometryError "the height grid must be 2D")
  end.

(** The directed edges of a face: each vertex to its successor, the
    last to the first. *)
Definition face_edges {V} (f : list V) : list (V * V) :=
  zip f (rotate 1 f).

(** The directed edges of all faces, with multiplicity. *)
Definition half_edges {V} (fs : list (list V)) : list (V * V) :=
  fs ≫= face_edges.

(** How often [x] occurs in [l]. *)
Definition count `{EqDecision A} (x : A) (l : list A) : nat :=
  length (filter (λ y, y = x) l).

(** A face is incident to the edge between [u] and [v] if it runs
    through it, in either direction. *)
Definition incident `{EqDecision V} (u v : V) (f : list V) : bool :=
  bool_decide ((u, v) ∈ face_edges f ∨ (v, u) ∈ face_edges f).

(** Watertight and consistently oriented: every edge of every face is
    an edge of exactly two faces, which run through it in opposite
    directions. *)
Definition watertight `{EqDecision V} (fs : list (list V)) : Prop :=
  ∀ u v, (u, v) ∈ half_edges fs →
    u ≠ v
    ∧ length (filter (λ f, incident u v f = true) fs) = 2%nat
    ∧ count (u, v) (half_edges fs) = 1%nat
    ∧ count (v, u) (half_edges fs) = 1%nat.

End Mesh.

Example mesh_2x2_faces :
  Mesh.build_faces (Mesh.top_index 2) (Mesh.base_index 2 2) 2 2
  = [[0; 1; 3]; [0; 3; 2]; [4; 7; 5]; [4; 6; 7];
     [1; 0; 4; 5]; [2; 3; 7; 6]; [0; 2; 6; 4]; [3; 1; 5; 7]]%nat.
Proof. reflexivity. Qed.

Example mesh_2x2_half_edges :
  Mesh.half_edges [[0; 1; 3]; [0; 3; 2]]%nat
  = [(0, 1); (1, 3); (3, 0); (0, 3); (3, 2); (2, 0)]%nat.
Proof. reflexivity. Qed.

(* ================================================================== *)
(** * Counting edges *)
(* ================================================================== *)

Section counting.
Context `{EqDecision A}.
Implicit Types (x : A) (l : list A).

Lemma count_nil x : Mesh.count x [] = 0%nat.
Proof. done. Qed.

Lemma count_cons x y l :
  Mesh.count x (y :: l)
  = ((if decide (y = x) then 1 else 0) + Mesh.count x l)%nat.
Proof.
  unfold Mesh.count. rewrite filter_cons. by case_decide.
Qed.

Lemma count_app x l1 l2 :
  Mesh.count x (l1 ++ l2) = (Mesh.count x l1 + Mesh.count x l2)%nat.
Proof. unfold Mesh.count. by rewrite filter_app, length_app. Qed.

Lemma count_zero x l : Mesh.count x l = 0%nat ↔ x ∉ l.
Proof.
  induction l as [|y l IH].
  { split; [intros _; apply not_elem_of_nil|done]. }
  rewrite count_cons, not_elem_of_cons. case_decide as Heq.
  - split; [lia|]. intros [? _]. congruence.
  - rewrite <- IH. split; [|lia]. intros ?. split; [congruence|lia].
Qed.

Lemma count_pos x l : (0 < Mesh.count x l)%nat ↔ x ∈ l.
Proof.
  destruct (decide (x ∈ l)) as [Hin|Hnin].
  - split; [done|]. intros _.
    destruct (Mesh.count x l) eqn:E; [|lia].
    apply count_zero in E. done.
  - pose proof (proj2 (count_zero x l) Hnin). split; [lia|done].
Qed.

Lemma count_NoDup x l : NoDup l → x ∈ l → Mesh.count x l = 1%nat.
Proof.
  induction 1 as [|y l Hy Hnd IH]; [by intros ?%elem_of_nil|].
  rewrite count_cons, elem_of_cons. case_decide as Heq.
  - subst y. intros _. apply count_zero in Hy. lia.
  - intros [?|Hin]; [congruence|]. by rewrite IH.
Qed.

End counting.

Section face_facts.
Context `{EqDecision V}.
Implicit Types (f : list V) (u v : V).

Lemma half_edges_cons f (fs : list (list V)) :
  Mesh.half_edges (f :: fs) = Mesh.face_edges f ++ Mesh.half_edges fs.
Proof. done. Qed.

(** A triangle or quad with distinct corners runs through an edge at
    most once, in one direction. *)
Lemma face_edge_once f u v :
  NoDup f → length f = 3%nat ∨ length f = 4%nat →
  (Mesh.count (u, v) (Mesh.face_edges f)
   + Mesh.count (v, u) (Mesh.face_edges f) ≤ 1)%nat.
Proof.
  intros Hnd Hlen.
  destruct f as [|a [|b [|c [|d [|? ?]]]]]; cbn in Hlen; try lia; clear Hlen.
  - apply NoDup_cons in Hnd as [Ha Hnd].
    apply NoDup_cons in Hnd as [Hb _].
    rewrite !not_elem_of_cons in Ha. rewrite !not_elem_of_cons in Hb.
    destruct Ha as (? & ? & _), Hb as (? & _).
    change (Mesh.face_edges [a; b; c]) with [(a, b); (b, c); (c, a)].
    rewrite !count_cons, !count_nil.
    repeat case_decide; first [lia | congruence].
  - apply NoDup_cons in Hnd as [Ha Hnd].
    apply NoDup_cons in Hnd as [Hb Hnd].
    apply NoDup_cons in Hnd as [Hc _].
    rewrite !not_elem_of_cons in Ha. rewrite !not_elem_of_cons in Hb.
    rewrite !not_elem_of_cons in Hc.
    destruct Ha as (? & ? & ? & _), Hb as (? & ? & _), Hc as (? & _).
    change (Mesh.face_edges [a; b; c; d])
      with [(a, b); (b, c); (c, d); (d, a)].
    rewrite !count_cons, !count_nil.
    repeat case_decide; first [lia | congruence].
Qed.

(** If no face runs through an edge more than once, the faces incident
    to it are as many as the directed edges along it. *)
Lemma incident_count (fs : list (list V)) u v :
  (∀ f, f ∈ fs →
     (Mesh.count (u, v) (Mesh.face_edges f)
      + Mesh.count (v, u) (Mesh.face_edges f) ≤ 1)%nat) →
  length (filter (λ f, Mesh.incident u v f = true) fs)
  = (Mesh.count (u, v) (Mesh.half_edges fs)
     + Mesh.count (v, u) (Mesh.half_edges fs))%nat.
Proof.
  induction fs as [|f fs IH]; intros Hfs; [done|].
  rewrite half_edges_cons, !count_app, filter_cons.
  assert (∀ f', f' ∈ fs →
     (Mesh.count (u, v) (Mesh.face_edges f')
      + Mesh.count (v, u) (Mesh.face_edges f') ≤ 1)%nat) as Hfs'.
  { intros f' Hf'. apply Hfs. by apply list_elem_of_further. }
  specialize (IH Hfs').
  specialize (Hfs f (list_elem_of_here _ _)).
  pose proof (count_pos (u, v) (Mesh.face_edges f)) as Huv.
  pose proof (count_pos (v, u) (Mesh.face_edges f)) as Hvu.
  case_decide as Hinc; unfold Mesh.incident in Hinc.
  - apply bool_decide_eq_true in Hinc. cbn [length]. rewrite IH.
    destruct Hinc as [Hin|Hin]; [apply Huv in Hin|apply Hvu in Hin]; lia.
  - rewrite IH. rewrite bool_decide_eq_true in Hinc.
    assert (Mesh.count (u, v) (Mesh.face_edges f) = 0%nat).
    { apply count_zero. tauto. }
    assert (Mesh.count (v, u) (Mesh.face_edges f) = 0%nat).
    { apply count_zero. tauto. }
    lia.
Qed.

(** The criterion used below: the directed edges are pairwise
    distinct and come in opposite pairs, and the faces are triangles
    or quads with distinct corners. *)
Lemma watertight_intro (fs : list (list V)) :
  NoDup (Mesh.half_edges fs) →
  (∀ u v, (u, v) ∈ Mesh.half_edges fs → (v, u) ∈ Mesh.half_edges fs) →
  (∀ f, f ∈ fs → NoDup f ∧ (length f = 3%nat ∨ length f = 4%nat)) →
  Mesh.watertight fs.
Proof.
  intros Hnd Hsym Hfaces u v Huv.
  pose proof (count_NoDup _ _ Hnd Huv) as Hc1.
  pose proof (count_NoDup _ _ Hnd (Hsym _ _ Huv)) as Hc2.
  split_and!; [|  |done|done].
  - intros <-.
    apply list_elem_of_bind in Huv as (f & He & Hf).
    destruct (Hfaces f Hf) as [Hndf Hlen].
    pose proof (face_edge_once f u u Hndf Hlen) as Honce.
    apply count_pos in He. lia.
  - rewrite incident_count; [lia|].
    intros f Hf. destruct (Hfaces f Hf). by apply face_edge_once.
Qed.

End face_facts.

(* ================================================================== *)
(** * The faces of the grid mesh *)
(* ================================================================== *)

(** The corners of the mesh by name: the vertex above and the vertex
    below grid point [(r, c)]. *)
Inductive corner : Set :=
  | OnTop (r c : nat)
  | OnBase (r c : nat).

#[global] Instance corner_eq_dec : EqDecision corner.
Proof. solve_decision. Defined.

Ltac in_cases H :=
  repeat match type of H with
         | _ ∈ _ :: _ => apply elem_of_cons in H as [H|H]
         | _ ∈ [] => by apply elem_of_nil in H
         end.

Lemma elem_of_cells R C r c :
  (r, c) ∈ Mesh.cells R C ↔ (r < R - 1 ∧ c < C - 1)%nat.
Proof.
  unfold Mesh.cells. rewrite list_elem_of_bind. split.
  - intros (r' & Hin & Hr'). apply list_elem_of_bind in Hin as (c' & Hin & Hc').
    apply list_elem_of_singleton in Hin. injection Hin as -> ->.
    apply elem_of_seq in Hr', Hc'. lia.
  - intros [Hr Hc]. exists r. split; [|apply elem_of_seq; lia].
    apply list_elem_of_bind. exists c.
    split; [apply list_elem_of_here|apply elem_of_seq; lia].
Qed.

Lemma NoDup_cells R C : NoDup (Mesh.cells R C).
Proof.
  unfold Mesh.cells. apply NoDup_bind; [| |apply NoDup_seq].
  - intros r1 r2 [r c] _ _ (c1 & H1 & _)%list_elem_of_bind
      (c2 & H2 & _)%list_elem_of_bind.
    apply list_elem_of_singleton in H1, H2. congruence.
  - intros r _. apply NoDup_bind; [| |apply NoDup_seq].
    + intros c1 c2 [r' c] _ _ H1%list_elem_of_singleton
        H2%list_elem_of_singleton. congruence.
    + intros c _. apply NoDup_singleton.
Qed.

Section build_faces_membership.
Context {V : Type} (top base : nat → nat → V) (R C : nat).

(** The faces of the mesh, one kind at a time. *)
Lemma elem_of_build_faces (f : list V) :
  f ∈ Mesh.build_faces top base R C ↔
    (∃ r c, (r < R - 1 ∧ c < C - 1)%nat
            ∧ (f ∈ Mesh.top_faces top r c ∨ f ∈ Mesh.base_faces base r c))
    ∨ (∃ c, (c < C - 1)%nat
            ∧ (f = Mesh.wall_north top base c
               ∨ f = Mesh.wall_south top base R c))
    ∨ (∃ r, (r < R - 1)%nat
            ∧ (f = Mesh.wall_west top base r
               ∨ f = Mesh.wall_east top base C r)).
Proof.
  unfold Mesh.build_faces. rewrite !elem_of_app, !list_elem_of_bind.
  rewrite !list_elem_of_fmap. split.
  - intros [([r c] & Hf & Hrc%elem_of_cells)
           |[([r c] & Hf & Hrc%elem_of_cells)
           |[(c & -> & Hc%elem_of_seq)|[(c & -> & Hc%elem_of_seq)
           |[(r & -> & Hr%elem_of_seq)|(r & -> & Hr%elem_of_seq)]]]]].
    + left. exists r, c. auto.
    + left. exists r, c. auto.
    + right; left. exists c. split; [lia|auto].
    + right; left. exists c. split; [lia|auto].
    + right; right. exists r. split; [lia|auto].
    + right; right. exists r. split; [lia|auto].
  - intros [(r & c & Hrc & [Hf|Hf])
           |[(c & Hc & [-> | ->])|(r & Hr & [-> | ->])]].
    + left. exists (r, c). split; [done|by apply elem_of_cells].
    + right; left. exists (r, c). split; [done|by apply elem_of_cells].
    + do 2 right; left. exists c. split; [done|apply elem_of_seq; lia].
    + do 3 right; left. exists c. split; [done|apply elem_of_seq; lia].
    + do 4 right; left. exists r. split; [done|apply elem_of_seq; lia].
    + do 5 right. exists r. split; [done|apply elem_of_seq; lia].
Qed.

End build_faces_membership.

Ltac nodup_explicit :=
  repeat (apply NoDup_cons; split;
          [rewrite ?not_elem_of_cons; split_and?;
           try apply not_elem_of_nil; intros [=]; lia|]);
  apply NoDup_nil_2.

Ltac face_kinds H :=
  let r := fresh "r" in
  let c := fresh "c" in
  let Hr := fresh "Hr" in
  let Hc := fresh "Hc" in
  apply elem_of_build_faces in H
    as [(r & c & [Hr Hc] & [H|H])|[(c & Hc & [H|H])|(r & Hr & [H|H])]];
  [unfold Mesh.top_faces in H; in_cases H
  |unfold Mesh.base_faces in H; in_cases H
  |unfold Mesh.wall_north in H|unfold Mesh.wall_south in H
  |unfold Mesh.wall_west in H|unfold Mesh.wall_east in H].

Section grid_mesh.
Variables R C : nat.
Hypothesis HR : (2 ≤ R)%nat.
Hypothesis HC : (2 ≤ C)%nat.

Local Abbreviation grid_faces := (Mesh.build_faces OnTop OnBase R C).

(** ** Which directed edges the mesh has

    On the top and on the base: every step from a grid point to a
    neighbour in its row or column and along the diagonal of a cell, in
    both directions.  Between top and base: at every point of the
    boundary of the grid, down and up. *)
Definition in_grid (r c : nat) : Prop := (r < R ∧ c < C)%nat.

Definition grid_step (r c r' c' : nat) : Prop :=
  in_grid r c ∧ in_grid r' c'
  ∧ ((r' = r ∧ (c' = S c ∨ c = S c'))
     ∨ (c' = c ∧ (r' = S r ∨ r = S r'))
     ∨ (r' = S r ∧ c' = S c)
     ∨ (r = S r' ∧ c = S c')).

Definition on_boundary (r c : nat) : Prop :=
  in_grid r c ∧ (r = 0 ∨ r = R - 1 ∨ c = 0 ∨ c = C - 1)%nat.

Definition is_half_edge (u v : corner) : Prop :=
  match u, v with
  | OnTop r c, OnTop r' c' | OnBase r c, OnBase r' c' => grid_step r c r' c'
  | OnTop r c, OnBase r' c' | OnBase r c, OnTop r' c' =>
      r' = r ∧ c' = c ∧ on_boundary r c
  end.

Lemma is_half_edge_sym u v : is_half_edge u v → is_half_edge v u.
Proof.
  destruct u, v; cbn; unfold grid_step, on_boundary, in_grid; lia.
Qed.

Lemma half_edge_sound u v :
  (u, v) ∈ Mesh.half_edges grid_faces → is_half_edge u v.
Proof.
  intros (f & He & Hf)%list_elem_of_bind.
  apply elem_of_build_faces in Hf
    as [(r & c & Hrc & [Hf|Hf])|[(c & Hc & [-> | ->])|(r & Hr & [-> | ->])]].
  - unfold Mesh.top_faces in Hf. in_cases Hf; subst f; cbn in He;
      in_cases He; injection He as -> ->; cbn;
      unfold grid_step, in_grid; lia.
  - unfold Mesh.base_faces in Hf. in_cases Hf; subst f; cbn in He;
      in_cases He; injection He as -> ->; cbn;
      unfold grid_step, in_grid; lia.
  - cbn in He. in_cases He; injection He as -> ->; cbn;
      unfold grid_step, on_boundary, in_grid; lia.
  - cbn in He. in_cases He; injection He as -> ->; cbn;
      unfold grid_step, on_boundary, in_grid; lia.
  - cbn in He. in_cases He; injection He as -> ->; cbn;
      unfold grid_step, on_boundary, in_grid; lia.
  - cbn in He. in_cases He; injection He as -> ->; cbn;
      unfold grid_step, on_boundary, in_grid; lia.
Qed.

Lemma edge_of_face f e :
  f ∈ grid_faces → e ∈ Mesh.face_edges f → e ∈ Mesh.half_edges grid_faces.
Proof. intros Hf He. apply list_elem_of_bind. eauto. Qed.

Lemma top_face_in r c f :
  (r < R - 1)%nat → (c < C - 1)%nat → f ∈ Mesh.top_faces OnTop r c →
  f ∈ grid_faces.
Proof. intros. apply elem_of_build_faces. left. exists r, c. auto. Qed.

Lemma base_face_in r c f :
  (r < R - 1)%nat → (c < C - 1)%nat → f ∈ Mesh.base_faces OnBase r c →
  f ∈ grid_faces.
Proof. intros. apply elem_of_build_faces. left. exists r, c. auto. Qed.

Lemma wall_north_in c :
  (c < C - 1)%nat → Mesh.wall_north OnTop OnBase c ∈ grid_faces.
Proof. intros. apply elem_of_build_faces. right; left. exists c. auto. Qed.

Lemma wall_south_in c :
  (c < C - 1)%nat → Mesh.wall_south OnTop OnBase R c ∈ grid_faces.
Proof. intros. apply elem_of_build_faces. right; left. exists c. auto. Qed.

Lemma wall_west_in r :
  (r < R - 1)%nat → Mesh.wall_west OnTop OnBase r ∈ grid_faces.
Proof. intros. apply elem_of_build_faces. right; right. exists r. auto. Qed.

Lemma wall_east_in r :
  (r < R - 1)%nat → Mesh.wall_east OnTop OnBase C r ∈ grid_faces.
Proof. intros. apply elem_of_build_faces. right; right. exists r. auto. Qed.

(** The face that owns a directed edge, kind by kind. *)
Ltac owner_of lem r c :=
  first
    [ solve [eapply edge_of_face;
             [eapply (lem r c); [lia|lia|apply list_elem_of_here]
             |cbn; in_list]]
    | solve [eapply edge_of_face;
             [eapply (lem r c);
              [lia|lia|apply list_elem_of_further, list_elem_of_here]
             |cbn; in_list]] ].
Ltac owner_top r c := owner_of top_face_in r c.
Ltac owner_base r c := owner_of base_face_in r c.
Ltac owner_wall lem :=
  solve [eapply edge_of_face; [apply lem; lia|cbn; in_list]].

Lemma top_edges_complete r c r' c' :
  grid_step r c r' c' →
  (OnTop r c, OnTop r' c') ∈ Mesh.half_edges grid_faces.
Proof.
  intros ([Hr Hc] & [Hr' Hc'] & Hstep).
  destruct Hstep as [[-> [-> | ->]]|[[-> [-> | ->]]|[[-> ->]|[-> ->]]]].
  - (* along a row, to the right *)
    destruct (decide (S r < R)%nat).
    + owner_top r c.
    + assert (r = R - 1)%nat as -> by lia.
      owner_wall (wall_south_in c).
  - (* along a row, to the left *)
    destruct r as [|r0].
    + owner_wall (wall_north_in c').
    + owner_top r0 c'.
  - (* along a column, downward in the grid *)
    destruct c as [|c0].
    + owner_wall (wall_west_in r).
    + owner_top r c0.
  - (* along a column, upward in the grid *)
    destruct (decide (S c < C)%nat).
    + owner_top r' c.
    + assert (c = C - 1)%nat as -> by lia.
      owner_wall (wall_east_in r').
  - owner_top r c.
  - owner_top r' c'.
Qed.

Lemma base_edges_complete r c r' c' :
  grid_step r c r' c' →
  (OnBase r c, OnBase r' c') ∈ Mesh.half_edges grid_faces.
Proof.
  intros ([Hr Hc] & [Hr' Hc'] & Hstep).
  destruct Hstep as [[-> [-> | ->]]|[[-> [-> | ->]]|[[-> ->]|[-> ->]]]].
  - destruct r as [|r0].
    + owner_wall (wall_north_in c).
    + owner_base r0 c.
  - destruct (decide (S r < R)%nat).
    + owner_base r c'.
    + assert (r = R - 1)%nat as -> by lia.
      owner_wall (wall_south_in c').
  - destruct (decide (S c < C)%nat).
    + owner_base r c.
    + assert (c = C - 1)%nat as -> by lia.
      owner_wall (wall_east_in r).
  - destruct c as [|c0].
    + owner_wall (wall_west_in r').
    + owner_base r' c0.
  - owner_base r c.
  - owner_base r' c'.
Qed.

Lemma down_edges_complete r c :
  on_boundary r c →
  (OnTop r c, OnBase r c) ∈ Mesh.half_edges grid_faces.
Proof.
  intros ([Hr Hc] & Hb).
  destruct (decide (r = 0 ∧ c < C - 1)%nat) as [[-> ?]|].
  { owner_wall (wall_north_in c). }
  destruct (decide (c = C - 1 ∧ r < R - 1)%nat) as [[-> ?]|].
  { owner_wall (wall_east_in r). }
  destruct (decide (r = R - 1 ∧ 1 ≤ c)%nat) as [[-> ?]|].
  { destruct c as [|c0]; [lia|]. owner_wall (wall_south_in c0). }
  assert (c = 0)%nat as -> by lia.
  destruct r as [|r0]; [lia|]. owner_wall (wall_west_in r0).
Qed.

Lemma up_edges_complete r c :
  on_boundary r c →
  (OnBase r c, OnTop r c) ∈ Mesh.half_edges grid_faces.
Proof.
  intros ([Hr Hc] & Hb).
  destruct (decide (r = R - 1 ∧ c < C - 1)%nat) as [[-> ?]|].
  { owner_wall (wall_south_in c). }
  destruct (decide (c = 0 ∧ r < R - 1)%nat) as [[-> ?]|].
  { owner_wall (wall_west_in r). }
  destruct (decide (r = 0 ∧ 1 ≤ c)%nat) as [[-> ?]|].
  { destruct c as [|c0]; [lia|]. owner_wall (wall_north_in c0). }
  assert (c = C - 1)%nat as -> by lia.
  destruct r as [|r0]; [lia|]. owner_wall (wall_east_in r0).
Qed.

Lemma half_edge_complete u v :
  is_half_edge u v → (u, v) ∈ Mesh.half_edges grid_faces.
Proof.
  destruct u as [r c|r c], v as [r' c'|r' c']; cbn.
  - apply top_edges_complete.
  - intros (-> & -> & Hb). by apply down_edges_complete.
  - intros (-> & -> & Hb). by apply up_edges_complete.
  - apply base_edges_complete.
Qed.

(** Every directed edge has its opposite. *)
Lemma half_edges_sym u v :
  (u, v) ∈ Mesh.half_edges grid_faces →
  (v, u) ∈ Mesh.half_edges grid_faces.
Proof.
  intros H. by apply half_edge_complete, is_half_edge_sym, half_edge_sound.
Qed.

(** ** No directed edge occurs twice *)

(** The faces are triangles and quads with distinct corners. *)
Lemma grid_face_shape f :
  f ∈ grid_faces → NoDup f ∧ (length f = 3%nat ∨ length f = 4%nat).
Proof.
  intros Hf. face_kinds Hf; subst f; (split; [nodup_explicit|cbn; lia]).
Qed.

Lemma NoDup_face_edges {V} (f : list V) : NoDup f → NoDup (Mesh.face_edges f).
Proof.
  intros Hnd. apply (NoDup_fmap_1 fst). unfold Mesh.face_edges.
  rewrite fst_zip; [done|]. by rewrite length_rotate.
Qed.

(** Two faces with a directed edge in common are the same face. *)
Lemma grid_edge_owner_unique f1 f2 e :
  f1 ∈ grid_faces → f2 ∈ grid_faces →
  e ∈ Mesh.face_edges f1 → e ∈ Mesh.face_edges f2 → f1 = f2.
Proof.
  intros H1 H2 He1 He2.
  face_kinds H1; subst f1; cbn in He1; in_cases He1; subst e;
    face_kinds H2; subst f2; cbn in He2; in_cases He2;
    injection He2 as ??; simplify_eq;
    first [reflexivity | exfalso; lia | repeat f_equal; lia].
Qed.

(** No face is listed twice. *)
Ltac family_member H :=
  repeat match type of H with
         | _ ∈ _ ++ _ => apply elem_of_app in H as [H|H]
         | _ ∈ _ ≫= _ =>
             let rc := fresh "rc" in
             let Hrc := fresh "Hrc" in
             apply list_elem_of_bind in H as (rc & H & Hrc);
             destruct rc; cbn [fst snd] in H;
             unfold Mesh.top_faces, Mesh.base_faces in H; in_cases H
         | _ ∈ _ <$> _ =>
             let i := fresh "i" in
             let Hi := fresh "Hi" in
             apply list_elem_of_fmap in H as (i & H & Hi);
             unfold Mesh.wall_north, Mesh.wall_south, Mesh.wall_west,
               Mesh.wall_east in H
         end.

Lemma NoDup_grid_faces : NoDup grid_faces.
Proof.
  unfold Mesh.build_faces. rewrite !NoDup_app. split_and!.
  - apply NoDup_bind; [| |apply NoDup_cells].
    + intros [r1 c1] [r2 c2] f _ _ H1 H2. cbn [fst snd] in *.
      unfold Mesh.top_faces in *. in_cases H1; in_cases H2; congruence.
    + intros [r c] _. cbn [fst snd]. unfold Mesh.top_faces. nodup_explicit.
  - intros f H1 H2. family_member H1; family_member H2; congruence.
  - apply NoDup_bind; [| |apply NoDup_cells].
    + intros [r1 c1] [r2 c2] f _ _ H1 H2. cbn [fst snd] in *.
      unfold Mesh.base_faces in *. in_cases H1; in_cases H2; congruence.
    + intros [r c] _. cbn [fst snd]. unfold Mesh.base_faces. nodup_explicit.
  - intros f H1 H2. family_member H1; family_member H2; congruence.
  - apply NoDup_fmap_2; [|apply NoDup_seq]. intros c1 c2. by intros [=].
  - intros f H1 H2. family_member H1; family_member H2;
      simplify_eq; lia.
  - apply NoDup_fmap_2; [|apply NoDup_seq]. intros c1 c2. by intros [=].
  - intros f H1 H2. family_member H1; family_member H2;
      simplify_eq; lia.
  - apply NoDup_fmap_2; [|apply NoDup_seq]. intros c1 c2. by intros [=].
  - intros f H1 H2. family_member H1; family_member H2;
      simplify_eq; lia.
  - apply NoDup_fmap_2; [|apply NoDup_seq]. intros c1 c2. by intros [=].
Qed.

Lemma NoDup_grid_half_edges : NoDup (Mesh.half_edges grid_faces).
Proof.
  apply NoDup_bind; [| |apply NoDup_grid_faces].
  - intros f1 f2 e Hf1 Hf2 He1 He2. by eapply grid_edge_owner_unique.
  - intros f Hf. apply NoDup_face_edges. by apply grid_face_shape.
Qed.

(** The mesh of the grid, with its corners by name, is watertight. *)
Lemma grid_faces_watertight : Mesh.watertight grid_faces.
Proof.
  apply watertight_intro.
  - apply NoDup_grid_half_edges.
  - apply half_edges_sym.
  - apply grid_face_shape.
Qed.

End grid_mesh.

(* ================================================================== *)
(** * From corners to vertex indices *)
(* ================================================================== *)

(** The index of a corner in the vertex list. *)
Definition corner_index (R C : nat) (v : corner) : nat :=
  match v with
  | OnTop r c => Mesh.top_index C r c
  | OnBase r c => Mesh.base_index R C r c
  end.

Definition corner_in_grid (R C : nat) (v : corner) : Prop :=
  match v with
  | OnTop r c | OnBase r c => (r < R ∧ c < C)%nat
  end.

Lemma row_major_inj (C r c r' c' : nat) :
  (c < C)%nat → (c' < C)%nat → (r * C + c = r' * C + c')%nat →
  r = r' ∧ c = c'.
Proof.
  intros Hc Hc' Heq.
  assert (r = r') as ->.
  { destruct (Nat.lt_trichotomy r r') as [Hlt|[?|Hlt]]; [|done|]; exfalso.
    - assert (S r * C ≤ r' * C)%nat as Hle by (apply Nat.mul_le_mono_r; lia).
      cbn in Hle. lia.
    - assert (S r' * C ≤ r * C)%nat as Hle by (apply Nat.mul_le_mono_r; lia).
      cbn in Hle. lia. }
  split; [done|lia].
Qed.

Lemma row_major_bound (R C r c : nat) :
  (r < R)%nat → (c < C)%nat → (r * C + c < R * C)%nat.
Proof.
  intros Hr Hc.
  assert (S r * C ≤ R * C)%nat as Hle by (apply Nat.mul_le_mono_r; lia).
  cbn in Hle. lia.
Qed.

Lemma corner_index_inj R C u v :
  corner_in_grid R C u → corner_in_grid R C v →
  corner_index R C u = corner_index R C v → u = v.
Proof.
  destruct u as [r c|r c], v as [r' c'|r' c']; cbn;
    unfold Mesh.top_index, Mesh.base_index; intros [Hr Hc] [Hr' Hc'] Heq.
  - destruct (row_major_inj C r c r' c') as [-> ->]; done.
  - pose proof (row_major_bound R C r c Hr Hc). lia.
  - pose proof (row_major_bound R C r' c' Hr' Hc'). lia.
  - destruct (row_major_inj C r c r' c') as [-> ->]; [done..|lia|done].
Qed.

Lemma corner_index_bound R C v :
  corner_in_grid R C v → (corner_index R C v < 2 * (R * C))%nat.
Proof.
  destruct v as [r c|r c]; cbn; unfold Mesh.top_index, Mesh.base_index;
    intros [Hr Hc]; pose proof (row_major_bound R C r c Hr Hc); lia.
Qed.

Lemma face_edges_fmap {V W} (g : V → W) (f : list V) :
  Mesh.face_edges (g <$> f) = prod_map g g <$> Mesh.face_edges f.
Proof.
  unfold Mesh.face_edges, rotate.
  by rewrite prod_map_zip, fmap_app, fmap_drop, fmap_take, length_fmap.
Qed.

Lemma half_edges_fmap {V W} (g : V → W) (fs : list (list V)) :
  Mesh.half_edges ((fmap g : list V → list W) <$> fs)
  = prod_map g g <$> Mesh.half_edges fs.
Proof.
  unfold Mesh.half_edges. induction fs as [|f fs IH]; [done|].
  cbn. rewrite fmap_app, face_edges_fmap. f_equal. exact IH.
Qed.

Lemma fmap_list_bind {A B B'} (g : B → B') (k : A → list B) (l : list A) :
  g <$> (l ≫= k) = l ≫= (λ x, g <$> k x).
Proof.
  induction l as [|x l IH]; [done|]. cbn. by rewrite fmap_app, IH.
Qed.

(** The faces of the mesh are the faces by corner name, index for
    name. *)
Lemma build_faces_index R C :
  Mesh.build_faces (Mesh.top_index C) (Mesh.base_index R C) R C
  = (fmap (corner_index R C) : list corner → list nat)
      <$> Mesh.build_faces OnTop OnBase R C.
Proof.
  unfold Mesh.build_faces.
  rewrite !fmap_app, !fmap_list_bind, <- !list_fmap_compose. done.
Qed.

Section indexed_mesh.
Variables R C : nat.
Hypothesis HR : (2 ≤ R)%nat.
Hypothesis HC : (2 ≤ C)%nat.

Local Abbreviation named_faces := (Mesh.build_faces OnTop OnBase R C).
Local Abbreviation indexed_faces :=
  (Mesh.build_faces (Mesh.top_index C) (Mesh.base_index R C) R C).

Lemma named_face_in_grid f v :
  f ∈ named_faces → v ∈ f → corner_in_grid R C v.
Proof.
  intros Hf Hv. face_kinds Hf; subst f; in_cases Hv; subst v; cbn; lia.
Qed.

Lemma named_edge_in_grid u v :
  (u, v) ∈ Mesh.half_edges named_faces →
  corner_in_grid R C u ∧ corner_in_grid R C v.
Proof.
  intros (f & He & Hf)%list_elem_of_bind.
  unfold Mesh.face_edges in He. split.
  - eapply named_face_in_grid; [exact Hf|]. by eapply elem_of_zip_l.
  - eapply named_face_in_grid; [exact Hf|].
    apply elem_of_zip_r in He. by apply elem_of_rotate in He.
Qed.

Lemma NoDup_indexed_half_edges : NoDup (Mesh.half_edges indexed_faces).
Proof.
  rewrite build_faces_index, half_edges_fmap.
  apply NoDup_fmap_2_strong; [|by apply NoDup_grid_half_edges].
  intros [u v] [u' v'] [Hu Hv]%named_edge_in_grid
    [Hu' Hv']%named_edge_in_grid [= H1 H2].
  f_equal; by eapply corner_index_inj.
Qed.

Lemma indexed_half_edges_sym a b :
  (a, b) ∈ Mesh.half_edges indexed_faces →
  (b, a) ∈ Mesh.half_edges indexed_faces.
Proof.
  rewrite build_faces_index, half_edges_fmap.
  intros ([u v] & [= -> ->] & Huv)%list_elem_of_fmap.
  apply list_elem_of_fmap. exists (v, u).
  split; [done|by apply half_edges_sym].
Qed.

Lemma indexed_face_shape f :
  f ∈ indexed_faces →
  NoDup f ∧ (length f = 3%nat ∨ length f = 4%nat).
Proof.
  rewrite build_faces_index.
  intros (f0 & -> & Hf0)%list_elem_of_fmap.
  destruct (grid_face_shape R C HR HC f0 Hf0) as [Hnd Hlen]. split.
  - apply NoDup_fmap_2_strong; [|done].
    intros u v Hu Hv. apply corner_index_inj; by eapply named_face_in_grid.
  - by rewrite length_fmap.
Qed.

Lemma indexed_face_bound f i :
  f ∈ indexed_faces → i ∈ f → (i < 2 * (R * C))%nat.
Proof.
  rewrite build_faces_index.
  intros (f0 & -> & Hf0)%list_elem_of_fmap (v & -> & Hv)%list_elem_of_fmap.
  apply corner_index_bound. by eapply named_face_in_grid.
Qed.

Lemma indexed_faces_watertight : Mesh.watertight indexed_faces.
Proof.
  apply watertight_intro.
  - apply NoDup_indexed_half_edges.
  - apply indexed_half_edges_sym.
  - apply indexed_face_shape.
Qed.

End indexed_mesh.

(* ================================================================== *)
(** * Where the vertices are, and which way the faces look *)
(* ================================================================== *)

Lemma lookup_bind_const {A B} (k : A → list B) (n : nat) (l : list A)
    (i j : nat) (x : A) :
  (∀ y, length (k y) = n) → l !! i = Some x → (j < n)%nat →
  (l ≫= k) !! (i * n + j)%nat = k x !! j.
Proof.
  intros Hk. revert i. induction l as [|y l IH]; intros i Hi Hj; [done|].
  change ((y :: l) ≫= k) with (k y ++ (l ≫= k)).
  destruct i as [|i]; cbn in Hi.
  - injection Hi as ->. cbn. rewrite lookup_app_l; [done|]. by rewrite Hk.
  - rewrite lookup_app_r by (rewrite Hk; cbn; lia).
    rewrite Hk. replace (S i * n + j - n)%nat with (i * n + j)%nat
      by (cbn; lia).
    by apply IH.
Qed.

Lemma length_bind_const {A B} (k : A → list B) (n : nat) (l : list A) :
  (∀ y, length (k y) = n) → length (l ≫= k) = (length l * n)%nat.
Proof.
  intros Hk. induction l as [|y l IH]; [done|].
  change ((y :: l) ≫= k) with (k y ++ (l ≫= k)).
  rewrite length_app, Hk, IH. cbn. lia.
Qed.

Lemma grid_row_lookup (r C c : nat) :
  (c < C)%nat → (seq 0 C ≫= λ c, [(r, c)]) !! c = Some (r, c).
Proof.
  intros Hc.
  pose proof (lookup_bind_const (λ c, [(r, c)]) 1 (seq 0 C) c 0 c) as H.
  rewrite Nat.mul_1_r, Nat.add_0_r in H. rewrite H; [done|done| |lia].
  by rewrite lookup_seq_lt.
Qed.

Lemma grid_row_length (r C : nat) :
  length (seq 0 C ≫= λ c, [(r, c)]) = C.
Proof.
  rewrite (length_bind_const _ 1) by done. rewrite length_seq. lia.
Qed.

Lemma grid_points_lookup (R C r c : nat) :
  (r < R)%nat → (c < C)%nat →
  Mesh.grid_points R C !! (r * C + c)%nat = Some (r, c).
Proof.
  intros Hr Hc. unfold Mesh.grid_points.
  rewrite (lookup_bind_const _ C _ r c r).
  - by apply grid_row_lookup.
  - intros y. apply grid_row_length.
  - by rewrite lookup_seq_lt.
  - done.
Qed.

Lemma grid_points_length (R C : nat) :
  length (Mesh.grid_points R C) = (R * C)%nat.
Proof.
  unfold Mesh.grid_points. rewrite (length_bind_const _ C).
  - by rewrite length_seq.
  - intros y. apply grid_row_length.
Qed.

Section vertex_positions.
Variables (heights : ndarray) (width_mm height_mm : Q) (R C : nat).

Local Abbreviation vs :=
  (Mesh.build_vertices heights width_mm height_mm R C).

Lemma build_vertices_length : length vs = (2 * (R * C))%nat.
Proof.
  unfold Mesh.build_vertices.
  rewrite length_app, !length_fmap, grid_points_length. lia.
Qed.

Lemma top_vertex r c :
  (r < R)%nat → (c < C)%nat →
  vs !! Mesh.top_index C r c
  = Some (Mesh.grid_x width_mm C c, Mesh.grid_y height_mm R r,
          Mesh.height_at heights C r c).
Proof.
  intros Hr Hc. unfold Mesh.build_vertices, Mesh.top_index.
  rewrite lookup_app_l.
  - by rewrite list_lookup_fmap, grid_points_lookup.
  - rewrite length_fmap, grid_points_length. by apply row_major_bound.
Qed.

Lemma base_vertex r c :
  (r < R)%nat → (c < C)%nat →
  vs !! Mesh.base_index R C r c
  = Some (Mesh.grid_x width_mm C c, Mesh.grid_y height_mm R r, 0).
Proof.
  intros Hr Hc. unfold Mesh.build_vertices, Mesh.base_index.
  rewrite lookup_app_r by (rewrite length_fmap, grid_points_length; lia).
  rewrite length_fmap, grid_points_length.
  replace (R * C + (r * C + c) - R * C)%nat with (r * C + c)%nat by lia.
  by rewrite list_lookup_fmap, grid_points_lookup.
Qed.

End vertex_positions.

(** ** Normals *)

Definition vec : Type := (Q * Q * Q)%type.

Definition vec_sub (p q : vec) : vec :=
  (p.1.1 - q.1.1, p.1.2 - q.1.2, p.2 - q.2).

Definition cross (a b : vec) : vec :=
  (a.1.2 * b.2 - a.2 * b.1.2,
   a.2 * b.1.1 - a.1.1 * b.2,
   a.1.1 * b.1.2 - a.1.2 * b.1.1).

(** The normal of a face by the right-hand rule, from its first three
    vertices. *)
Definition face_normal (vs : list vec) (f : list nat) : option vec :=
  match f with
  | i0 :: i1 :: i2 :: _ =>
      p0 ← vs !! i0; p1 ← vs !! i1; p2 ← vs !! i2;
      Some (cross (vec_sub p1 p0) (vec_sub p2 p0))
  | _ => None
  end.

(** Outward for the relief solid over the grid: the top looks up, the
    base looks down, and each wall looks away from the grid -- the wall
    along row 0 toward smaller [y], the wall along the last row toward
    larger [y], the wall along column 0 toward smaller [x], the wall
    along the last column toward larger [x]. *)
Definition outward (R C : nat) (m : Mesh.mesh) : Prop :=
  let top := Mesh.top_index C in
  let base := Mesh.base_index R C in
  let normal := face_normal (Mesh.vertices m) in
  (∀ r c f, (r < R - 1)%nat → (c < C - 1)%nat →
     f ∈ Mesh.top_faces top r c → ∃ n, normal f = Some n ∧ 0 < n.2)
  ∧ (∀ r c f, (r < R - 1)%nat → (c < C - 1)%nat →
     f ∈ Mesh.base_faces base r c → ∃ n, normal f = Some n ∧ n.2 < 0)
  ∧ (∀ c, (c < C - 1)%nat →
     ∃ n, normal (Mesh.wall_north top base c) = Some n ∧ n.1.2 < 0)
  ∧ (∀ c, (c < C - 1)%nat →
     ∃ n, normal (Mesh.wall_south top base R c) = Some n ∧ 0 < n.1.2)
  ∧ (∀ r, (r < R - 1)%nat →
     ∃ n, normal (Mesh.wall_west top base r) = Some n ∧ n.1.1 < 0)
  ∧ (∀ r, (r < R - 1)%nat →
     ∃ n, normal (Mesh.wall_east top base C r) = Some n ∧ 0 < n.1.1).

Lemma inject_nat_lt (a b : nat) :
  (a < b)%nat → inject_Z (Z.of_nat a) < inject_Z (Z.of_nat b).
Proof. intros H. rewrite <- Zlt_Qlt. lia. Qed.

Lemma scaled_coordinate_lt (w : Q) (n a b : nat) :
  0 < w → (1 ≤ n)%nat → (a < b)%nat →
  inject_Z (Z.of_nat a) * w / inject_Z (Z.of_nat n)
  < inject_Z (Z.of_nat b) * w / inject_Z (Z.of_nat n).
Proof.
  intros Hw Hn Hab.
  assert (0 < inject_Z (Z.of_nat n)) as Hd.
  { change 0 with (inject_Z 0). rewrite <- Zlt_Qlt. lia. }
  unfold Qdiv. apply Qmult_lt_r; [by apply Qinv_lt_0_compat|].
  apply Qmult_lt_r; [done|]. by apply inject_nat_lt.
Qed.

Section orientation.
Variables (heights : ndarray) (width_mm height_mm : Q) (R C : nat).
Hypothesis HR : (2 ≤ R)%nat.
Hypothesis HC : (2 ≤ C)%nat.
Hypothesis Hwidth : 0 < width_mm.
Hypothesis Hheight : 0 < height_mm.
Hypothesis Hlen : length (data heights) = (R * C)%nat.
Hypothesis Hpos : ∀ v, v ∈ data heights → 0 < v.

Lemma grid_x_lt c : Mesh.grid_x width_mm C c < Mesh.grid_x width_mm C (S c).
Proof. apply scaled_coordinate_lt; [done|lia|lia]. Qed.

Lemma grid_y_lt r : Mesh.grid_y height_mm R r < Mesh.grid_y height_mm R (S r).
Proof. apply scaled_coordinate_lt; [done|lia|lia]. Qed.

Lemma height_at_pos r c :
  (r < R)%nat → (c < C)%nat → 0 < Mesh.height_at heights C r c.
Proof.
  intros Hr Hc. unfold Mesh.height_at.
  pose proof (row_major_bound R C r c Hr Hc) as Hi.
  rewrite <- Hlen in Hi. apply lookup_lt_is_Some in Hi as [v Hv].
  rewrite (nth_lookup_Some _ _ _ _ Hv).
  apply Hpos. by eapply list_elem_of_lookup_2.
Qed.

Ltac normal_of_face :=
  unfold face_normal; cbn [mbind option_bind];
  rewrite ?top_vertex, ?base_vertex by lia; cbn [mbind option_bind];
  eexists; split; [reflexivity|]; cbn.

Lemma build_outward :
  outward R C
    (Mesh.Build (Mesh.build_vertices heights width_mm height_mm R C)
                (Mesh.build_faces (Mesh.top_index C) (Mesh.base_index R C)
                                  R C)).
Proof.
  unfold outward. cbn [Mesh.vertices]. split_and!.
  - intros r c f Hr Hc Hf. unfold Mesh.top_faces in Hf.
    pose proof (grid_x_lt c). pose proof (grid_y_lt r).
    in_cases Hf; subst f; normal_of_face; nra.
  - intros r c f Hr Hc Hf. unfold Mesh.base_faces in Hf.
    pose proof (grid_x_lt c). pose proof (grid_y_lt r).
    in_cases Hf; subst f; normal_of_face; nra.
  - intros c Hc. unfold Mesh.wall_north.
    pose proof (grid_x_lt c).
    pose proof (height_at_pos 0 c ltac:(lia) ltac:(lia)).
    pose proof (height_at_pos 0 (S c) ltac:(lia) ltac:(lia)).
    normal_of_face. nra.
  - intros c Hc. unfold Mesh.wall_south.
    pose proof (grid_x_lt c).
    pose proof (height_at_pos (R - 1) c ltac:(lia) ltac:(lia)).
    pose proof (height_at_pos (R - 1) (S c) ltac:(lia) ltac:(lia)).
    normal_of_face. nra.
  - intros r Hr. unfold Mesh.wall_west.
    pose proof (grid_y_lt r).
    pose proof (height_at_pos r 0 ltac:(lia) ltac:(lia)).
    pose proof (height_at_pos (S r) 0 ltac:(lia) ltac:(lia)).
    normal_of_face. nra.
  - intros r Hr. unfold Mesh.wall_east.
    pose proof (grid_y_lt r).
    pose proof (height_at_pos r (C - 1) ltac:(lia) ltac:(lia)).
    pose proof (height_at_pos (S r) (C - 1) ltac:(lia) ltac:(lia)).
    normal_of_face. nra.
Qed.

End orientation.

(* ================================================================== *)
(** * The mesh of a height grid is watertight *)
(* ================================================================== *)

(** C2.  For a height grid with at least two rows and two columns (and
    positive heights and dimensions, as a normalized height field has),
    the Surface Mesh Builder returns a mesh in which every edge of
    every face is shared by exactly two faces, which traverse it in
    opposite directions; every face index names a vertex; and all
    normals point out of the solid. *)
Theorem build_watertight (heights : ndarray) (width_mm height_mm : Q)
    (R C : nat) :
  shape heights = [R; C] → wf_ndarray heights →
  (2 ≤ R)%nat → (2 ≤ C)%nat →
  0 < width_mm → 0 < height_mm →
  Forall (λ v, 0 < v) (data heights) →
  ∃ m, Mesh.build heights width_mm height_mm = inr m
       ∧ (∀ f i, f ∈ Mesh.faces m → i ∈ f →
            (i < length (Mesh.vertices m))%nat)
       ∧ Mesh.watertight (Mesh.faces m)
       ∧ outward R C m.
Proof.
  intros Hs Hwf HR HC Hw Hh Hpos.
  unfold Mesh.build. rewrite Hs.
  destruct (Nat.ltb_spec R 2) as [?|_]; [lia|].
  destruct (Nat.ltb_spec C 2) as [?|_]; [lia|]. cbn [orb].
  eexists. split; [reflexivity|]. cbn [Mesh.faces Mesh.vertices].
  split_and!.
  - intros f i Hf Hi. rewrite build_vertices_length.
    by eapply indexed_face_bound.
  - by apply indexed_faces_watertight.
  - apply build_outward; try done.
    + unfold wf_ndarray, size in Hwf. rewrite Hs in Hwf. cbn in Hwf. lia.
    + by apply Forall_forall.
Qed.

Module Sample3.
(** A 2x2 height grid. *)
Definition heights22 : ndarray :=
  NDArray float32 [2; 2]%nat [2; 17; 9; 2].
End Sample3.

Lemma build_watertight_witness :
  ∃ m, Mesh.build Sample3.heights22 100 100 = inr m
       ∧ (∀ f i, f ∈ Mesh.faces m → i ∈ f →
            (i < length (Mesh.vertices m))%nat)
       ∧ Mesh.watertight (Mesh.faces m)
       ∧ outward 2 2 m.
Proof.
  apply (build_watertight Sample3.heights22 100 100 2 2).
  - reflexivity.
  - reflexivity.
  - lia.
  - lia.
  - reflexivity.
  - reflexivity.
  - repeat constructor.
Defined.

Example build_rejects_row :
  Mesh.build (NDArray float32 [1; 3]%nat [2; 3; 4]) 100 100
  = inl (Mesh.GeometryError "a surface needs at least a 2x2 grid").
Proof. reflexivity. Qed.

(* ================================================================== *)
(** * Further properties of the analyzer's stages *)
(* ================================================================== *)

(** Values up to the equality of rationals, position by position. *)
Definition same_values (l k : list Q) : Prop := Forall2 Qeq l k.


Lemma same_values_fmap (f g : Q → Q) l :
  (∀ v, v ∈ l → f v == g v) → same_values (f <$> l) (g <$> l).
Proof.
  intros H. apply Forall2_fmap, Forall_Forall2_diag, Forall_forall.
  exact H.
Qed.

Lemma same_values_fmap_id (f : Q → Q) l :
  (∀ v, v ∈ l → f v == v) → same_values (f <$> l) l.
Proof.
  intros H. rewrite <- (list_fmap_id l) at 2. by apply same_values_fmap.
Qed.

Lemma grid_min_invert a :
  data a ≠ [] → Stage.grid_min (Stage.invert a) == Stage.grid_min a.
Proof.
  intros Hne. destruct (invert_min_max a Hne) as (mn' & mx' & Hmn & _ & E & _).
  unfold Stage.grid_min at 1. by rewrite Hmn.
Qed.

Lemma grid_max_invert a :
  data a ≠ [] → Stage.grid_max (Stage.invert a) == Stage.grid_max a.
Proof.
  intros Hne. destruct (invert_min_max a Hne) as (mn' & mx' & _ & Hmx & _ & E).
  unfold Stage.grid_max at 1. by rewrite Hmx.
Qed.

Lemma invert_nonempty a : data a ≠ [] → data (Stage.invert a) ≠ [].
Proof. cbn. by destruct (data a). Qed.

Lemma invert_invert a :
  data a ≠ [] →
  same_values (data (Stage.invert (Stage.invert a))) (data a).
Proof.
  intros Hne. pose proof (grid_min_invert a Hne) as Hmn.
  pose proof (grid_max_invert a Hne) as Hmx.
  change (data (Stage.invert (Stage.invert a)))
    with ((λ v, Stage.grid_max (Stage.invert a) - v
                + Stage.grid_min (Stage.invert a))
          <$> ((λ v, Stage.grid_max a - v + Stage.grid_min a) <$> data a)).
  rewrite <- list_fmap_compose. apply same_values_fmap_id.
  intros v _. cbn. lra.
Qed.

(** X1.  [_invert] applied twice gives back the values of the grid it
    started from: the second call returns a new array of the same shape
    and dtype whose values are, position by position, those of the
    first argument; the first argument itself is still in the store,
    unchanged. *)
Theorem invert_twice_restores (h : heap) (l : loc) (a : ndarray) :
  h !! l = Some a → data a ≠ [] →
  ∃ l2 h2 b,
    run (l1 ← DepthAnalyzer._invert l; DepthAnalyzer._invert l1) h
    = (Returned l2, h2)
    ∧ h2 !! l2 = Some b ∧ l2 ≠ l ∧ h2 !! l = Some a
    ∧ shape b = shape a ∧ arr_dtype b = arr_dtype a
    ∧ same_values (data b) (data a).
Proof.
  intros Hl Hne.
  destruct (_invert_returns h l a Hl Hne) as (l1 & h1 & Hrun1 & Hp1 & Hlen1 & Hl1).
  destruct (_invert_returns h1 l1 _ Hl1 (invert_nonempty a Hne))
    as (l2 & h2 & Hrun2 & Hp2 & Hlen2 & Hl2).
  exists l2, h2, (Stage.invert (Stage.invert a)).
  split.
  { rewrite run_bind, Hrun1. exact Hrun2. }
  split; [exact Hl2|].
  assert (h2 !! l = Some a) as Hl'.
  { eapply prefix_lookup_Some; [|exact Hp2].
    eapply prefix_lookup_Some; [exact Hl|exact Hp1]. }
  split_and!; [|exact Hl'|done|done|by apply invert_invert].
  apply lookup_lt_Some in Hl. apply prefix_length in Hp1. lia.
Qed.

Lemma invert_twice_restores_witness :
  ∃ l2 h2 b,
    run (l1 ← DepthAnalyzer._invert 0; DepthAnalyzer._invert l1)
        [Sample.ramp23]
    = (Returned l2, h2)
    ∧ h2 !! l2 = Some b ∧ l2 ≠ 0%nat ∧ h2 !! 0%nat = Some Sample.ramp23
    ∧ shape b = shape Sample.ramp23
    ∧ arr_dtype b = arr_dtype Sample.ramp23
    ∧ same_values (data b) (data Sample.ramp23).
Proof.
  apply (invert_twice_restores [Sample.ramp23] 0%nat Sample.ramp23).
  - reflexivity.
  - cbn. discriminate.
Defined.

(* ------------------------------------------------------------------ *)
(** ** The normalize step keeps the order of the values *)

(** The affine map of the scaling branch. *)
Definition scale (lo hi mn mx v : Q) : Q :=
  (v - mn) / (mx - mn) * (hi - lo) + lo.

Lemma scale_monotone lo hi mn mx x y :
  lo <= hi → mn < mx → x <= y → scale lo hi mn mx x <= scale lo hi mn mx y.
Proof.
  intros Hlh Hspan Hxy. unfold scale, Qdiv.
  assert (0 < / (mx - mn)) as Hk by (apply Qinv_lt_0_compat; lra).
  set (k := / (mx - mn)) in *.
  assert (0 <= k * (hi - lo)) as Hp by nra.
  nra.
Qed.

Lemma scale_strictly_monotone lo hi mn mx x y :
  lo < hi → mn < mx → x < y → scale lo hi mn mx x < scale lo hi mn mx y.
Proof.
  intros Hlh Hspan Hxy. unfold scale, Qdiv.
  assert (0 < / (mx - mn)) as Hk by (apply Qinv_lt_0_compat; lra).
  set (k := / (mx - mn)) in *.
  assert (0 < k * (hi - lo)) as Hp by nra.
  nra.
Qed.

Lemma scale_proper lo hi mn mx x y :
  x == y → scale lo hi mn mx x == scale lo hi mn mx y.
Proof. intros E. unfold scale. by rewrite E. Qed.

Section normalize_order.
Context `{F : Float64} `{F32 : Float32}.

Lemma normalize_data lo hi a :
  data (Stage.normalize_to_range lo hi a) =
  if Qltb (Stage.span a) eps then (λ _, cast (arr_dtype a) lo) <$> data a
  else scale lo hi (Stage.grid_min a) (Stage.grid_max a) <$> data a.
Proof.
  unfold Stage.normalize_to_range. by destruct (Qltb _ _).
Qed.

Lemma normalize_shape_same lo hi a :
  shape (Stage.normalize_to_range lo hi a) = shape a.
Proof. unfold Stage.normalize_to_range. by destruct (Qltb _ _). Qed.

(** X2.  [_normalize_to_range] keeps the order of the values: of two
    positions, the one that held the smaller (or an equal) value holds
    the smaller (or an equal) height afterwards, provided
    [min_height <= max_height]; and where the grid is not flat (a span
    of at least [1e-6]) and [min_height < max_height], a strictly
    smaller value gives a strictly smaller height. *)
Theorem normalize_preserves_order (h : heap) (l : loc) (a : ndarray)
    (lo hi : Q) :
  h !! l = Some a → data a ≠ [] → lo <= hi →
  ∃ l' h' out mn mx,
    run (DepthAnalyzer._normalize_to_range l lo hi) h = (Returned l', h')
    ∧ h' !! l' = Some out
    ∧ shape out = shape a
    ∧ Qlist_min (data a) = Some mn ∧ Qlist_max (data a) = Some mx
    ∧ ∀ i j x y,
        data a !! i = Some x → data a !! j = Some y →
        ∃ x' y',
          data out !! i = Some x' ∧ data out !! j = Some y'
          ∧ (x <= y → x' <= y')
          ∧ (x == y → x' == y')
          ∧ (lo < hi → eps <= mx - mn → x < y → x' < y').
Proof.
  intros Hl Hne Hlh.
  destruct (_normalize_to_range_returns h l a lo hi Hl Hne)
    as (l' & h' & Hrun & _ & _ & Hout).
  exists l', h', (Stage.normalize_to_range lo hi a),
    (Stage.grid_min a), (Stage.grid_max a).
  split; [exact Hrun|]. split; [exact Hout|].
  split; [apply normalize_shape_same|].
  split; [by apply grid_min_Some|]. split; [by apply grid_max_Some|].
  intros i j x y Hx Hy. rewrite normalize_data. unfold Stage.span.
  destruct (Qltb _ eps) eqn:E.
  - exists (cast (arr_dtype a) lo), (cast (arr_dtype a) lo).
    rewrite !list_lookup_fmap, Hx, Hy. cbn.
    split_and!; [done|done|intros; apply Qle_refl|done|].
    apply Qltb_lt in E. intros _ Hspan. lra.
  - apply Qltb_ge in E. pose proof eps_pos.
    assert (Stage.grid_min a < Stage.grid_max a) as Hspan by lra.
    eexists _, _. rewrite !list_lookup_fmap, Hx, Hy. cbn.
    split_and!; [done|done| | |].
    + intros. by apply scale_monotone.
    + apply scale_proper.
    + intros. by apply scale_strictly_monotone.
Qed.

End normalize_order.

Lemma normalize_preserves_order_witness :
  ∃ l' h' out mn mx,
    run (DepthAnalyzer._normalize_to_range 0 2 17) [Sample.ramp23]
    = (Returned l', h')
    ∧ h' !! l' = Some out
    ∧ shape out = shape Sample.ramp23
    ∧ Qlist_min (data Sample.ramp23) = Some mn
    ∧ Qlist_max (data Sample.ramp23) = Some mx
    ∧ ∀ i j x y,
        data Sample.ramp23 !! i = Some x → data Sample.ramp23 !! j = Some y →
        ∃ x' y',
          data out !! i = Some x' ∧ data out !! j = Some y'
          ∧ (x <= y → x' <= y')
          ∧ (x == y → x' == y')
          ∧ (2 < 17 → eps <= mx - mn → x < y → x' < y').
Proof.
  apply (normalize_preserves_order (F := Exact.float) (F32 := Exact.float32)
           [Sample.ramp23] 0%nat Sample.ramp23 2 17).
  - reflexivity.
  - cbn. discriminate.
  - discriminate.
Defined.

(* ------------------------------------------------------------------ *)
(** ** Normalizing twice, and normalizing a rescaled grid *)

Lemma Qlist_min_const (c : Q) (l : list Q) :
  l ≠ [] → Qlist_min ((λ _, c) <$> l) = Some c.
Proof.
  intros Hne. destruct (Qlist_min_fmap_exists (λ _, c) l Hne) as [m Hm].
  rewrite Hm. f_equal.
  apply Qlist_min_spec in Hm as [(? & -> & _)%list_elem_of_fmap _]. done.
Qed.

Lemma Qlist_max_const (c : Q) (l : list Q) :
  l ≠ [] → Qlist_max ((λ _, c) <$> l) = Some c.
Proof.
  intros Hne. destruct (Qlist_max_fmap_exists (λ _, c) l Hne) as [m Hm].
  rewrite Hm. f_equal.
  apply Qlist_max_spec in Hm as [(? & -> & _)%list_elem_of_fmap _]. done.
Qed.

Lemma fmap_nonempty {A B} (f : A → B) (l : list A) : l ≠ [] → f <$> l ≠ [].
Proof. by destruct l. Qed.

Section normalize_twice.
Context `{F : Float64} `{F32 : Float32}.

Lemma normalize_nonempty lo hi a :
  data a ≠ [] → data (Stage.normalize_to_range lo hi a) ≠ [].
Proof.
  intros Hne. rewrite normalize_data.
  destruct (Qltb _ _); by apply fmap_nonempty.
Qed.

(** The minimum and the maximum of the image of a list under a
    monotone map. *)
Lemma Qlist_min_monotone (f : Q → Q) l m m' :
  (∀ x y, x <= y → f x <= f y) →
  Qlist_min l = Some m → Qlist_min (f <$> l) = Some m' → m' == f m.
Proof.
  intros Hf [Hin Hle]%Qlist_min_spec Hm'.
  eapply Qlist_min_unique; [exact Hm'|by apply list_elem_of_fmap_2|].
  intros y (x & -> & Hx)%list_elem_of_fmap. apply Hf, Hle, Hx.
Qed.

Lemma Qlist_max_monotone (f : Q → Q) l m m' :
  (∀ x y, x <= y → f x <= f y) →
  Qlist_max l = Some m → Qlist_max (f <$> l) = Some m' → m' == f m.
Proof.
  intros Hf [Hin Hle]%Qlist_max_spec Hm'.
  eapply Qlist_max_unique; [exact Hm'|by apply list_elem_of_fmap_2|].
  intros y (x & -> & Hx)%list_elem_of_fmap. apply Hf, Hle, Hx.
Qed.

Lemma normalize_normalize lo hi a :
  data a ≠ [] → lo <= hi → eps <= hi - lo ∨ Stage.span a < eps →
  same_values
    (data (Stage.normalize_to_range lo hi (Stage.normalize_to_range lo hi a)))
    (data (Stage.normalize_to_range lo hi a)).
Proof.
  intros Hne Hlh Hcase. pose proof eps_pos as Heps.
  set (b := Stage.normalize_to_range lo hi a).
  destruct (Qlt_le_dec (Stage.span a) eps) as [Hflat|Hspan].
  - set (c := cast (arr_dtype a) lo).
    assert (b = map_array (λ _, c) a) as Hb.
    { unfold b. by rewrite (normalize_flat lo hi a Hflat). }
    rewrite (normalize_data lo hi b). unfold Stage.span, Stage.grid_min,
      Stage.grid_max. rewrite Hb. cbn [data arr_dtype map_array].
    rewrite Qlist_min_const, Qlist_max_const by done.
    cbn. fold c. replace (Qltb (c - c) eps) with true
      by (symmetry; apply Qltb_lt; lra).
    rewrite <- list_fmap_compose. apply same_values_fmap. done.
  - destruct Hcase as [Hhl|?]; [|lra].
    destruct (normalize_min_max lo hi a Hne Hlh Hspan)
      as (mn' & mx' & Hmn & Hmx & Emn & Emx).
    fold b in Hmn, Hmx.
    rewrite (normalize_data lo hi b). unfold Stage.span, Stage.grid_min,
      Stage.grid_max. rewrite Hmn, Hmx. cbn.
    replace (Qltb (mx' - mn') eps) with false
      by (symmetry; apply Qltb_ge; lra).
    apply same_values_fmap_id. intros v _. unfold scale.
    rewrite Emn, Emx. field. lra.
Qed.

(** X3.  Normalizing an already normalized grid to the same range
    changes no value, whenever the range is at least [1e-6] wide (or
    the grid was flat to begin with): a second call of
    [_normalize_to_range] on the result of the first returns a grid
    with, position by position, the same values. *)
Theorem normalize_twice_is_once (h : heap) (l : loc) (a : ndarray)
    (lo hi : Q) :
  h !! l = Some a → data a ≠ [] → eps <= hi - lo →
  ∃ l1 h1 once l2 h2 twice,
    run (DepthAnalyzer._normalize_to_range l lo hi) h = (Returned l1, h1)
    ∧ h1 !! l1 = Some once
    ∧ run (DepthAnalyzer._normalize_to_range l1 lo hi) h1 = (Returned l2, h2)
    ∧ h2 !! l2 = Some twice
    ∧ shape twice = shape once
    ∧ same_values (data twice) (data once).
Proof.
  intros Hl Hne Hhl. pose proof eps_pos.
  destruct (_normalize_to_range_returns h l a lo hi Hl Hne)
    as (l1 & h1 & Hrun1 & _ & _ & Hl1).
  destruct (_normalize_to_range_returns h1 l1 _ lo hi Hl1
              (normalize_nonempty lo hi a Hne))
    as (l2 & h2 & Hrun2 & _ & _ & Hl2).
  eexists l1, h1, _, l2, h2, _.
  split_and!; [exact Hrun1|exact Hl1|exact Hrun2|exact Hl2| |].
  - apply normalize_shape_same.
  - apply normalize_normalize; [done|lra|by left].
Qed.

End normalize_twice.

Lemma normalize_twice_is_once_witness :
  ∃ l1 h1 once l2 h2 twice,
    run (DepthAnalyzer._normalize_to_range 0 2 17) [Sample.ramp23]
    = (Returned l1, h1)
    ∧ h1 !! l1 = Some once
    ∧ run (DepthAnalyzer._normalize_to_range l1 2 17) h1 = (Returned l2, h2)
    ∧ h2 !! l2 = Some twice
    ∧ shape twice = shape once
    ∧ same_values (data twice) (data once).
Proof.
  apply (normalize_twice_is_once (F := Exact.float) (F32 := Exact.float32)
           [Sample.ramp23] 0%nat Sample.ramp23 2 17).
  - reflexivity.
  - cbn. discriminate.
  - discriminate.
Defined.

Section normalize_affinely.
Context `{F : Float64} `{F32 : Float32}.

Lemma normalize_affine lo hi a a' k c :
  data a ≠ [] → 0 < k →
  data a' = (λ v, k * v + c) <$> data a →
  eps <= Stage.span a → eps <= k * Stage.span a →
  same_values (data (Stage.normalize_to_range lo hi a'))
              (data (Stage.normalize_to_range lo hi a)).
Proof.
  intros Hne Hk Hd Hspan Hspan'. pose proof eps_pos.
  assert (data a' ≠ []) as Hne' by (rewrite Hd; by apply fmap_nonempty).
  assert (∀ x y, x <= y → k * x + c <= k * y + c) as Hmono
    by (intros; nra).
  pose proof (grid_min_Some a Hne) as Hmn.
  pose proof (grid_max_Some a Hne) as Hmx.
  pose proof (grid_min_Some a' Hne') as Hmn'.
  pose proof (grid_max_Some a' Hne') as Hmx'.
  rewrite Hd in Hmn', Hmx'.
  pose proof (Qlist_min_monotone _ _ _ _ Hmono Hmn Hmn') as Emn.
  pose proof (Qlist_max_monotone _ _ _ _ Hmono Hmx Hmx') as Emx.
  cbn beta in Emn, Emx. unfold Stage.span in Hspan, Hspan'.
  rewrite !normalize_data. unfold Stage.span.
  replace (Qltb (Stage.grid_max a' - Stage.grid_min a') eps) with false
    by (symmetry; apply Qltb_ge; rewrite Emn, Emx; lra).
  replace (Qltb (Stage.grid_max a - Stage.grid_min a) eps) with false
    by (symmetry; by apply Qltb_ge).
  rewrite Hd, <- list_fmap_compose. apply same_values_fmap.
  intros v _. cbn. unfold scale. rewrite Emn, Emx. field. split; lra.
Qed.

(** X4.  The normalize step sees only relative depth: two grids that
    differ by a change of unit and origin -- each value [v] of the one
    is [k * v + c] in the other, with [k > 0] -- are normalized to the
    same heights, as long as neither is flat (both spans at least
    [1e-6]). *)
Theorem normalize_ignores_scale_and_offset (h : heap) (l1 l2 : loc)
    (a1 a2 : ndarray) (k c lo hi : Q) :
  h !! l1 = Some a1 → h !! l2 = Some a2 → data a1 ≠ [] →
  0 < k → data a2 = (λ v, k * v + c) <$> data a1 →
  ∃ mn mx,
    Qlist_min (data a1) = Some mn ∧ Qlist_max (data a1) = Some mx
    ∧ (eps <= mx - mn → eps <= k * (mx - mn) →
       ∃ l1' h1 out1 l2' h2 out2,
         run (DepthAnalyzer._normalize_to_range l1 lo hi) h
         = (Returned l1', h1)
         ∧ h1 !! l1' = Some out1
         ∧ run (DepthAnalyzer._normalize_to_range l2 lo hi) h
           = (Returned l2', h2)
         ∧ h2 !! l2' = Some out2
         ∧ same_values (data out2) (data out1)).
Proof.
  intros Hl1 Hl2 Hne Hk Hd.
  exists (Stage.grid_min a1), (Stage.grid_max a1).
  split; [by apply grid_min_Some|]. split; [by apply grid_max_Some|].
  intros Hspan Hspan'.
  assert (data a2 ≠ []) as Hne2 by (rewrite Hd; by apply fmap_nonempty).
  destruct (_normalize_to_range_returns h l1 a1 lo hi Hl1 Hne)
    as (l1' & h1 & Hrun1 & _ & _ & Hout1).
  destruct (_normalize_to_range_returns h l2 a2 lo hi Hl2 Hne2)
    as (l2' & h2 & Hrun2 & _ & _ & Hout2).
  eexists l1', h1, _, l2', h2, _.
  split_and!; [exact Hrun1|exact Hout1|exact Hrun2|exact Hout2|].
  by eapply normalize_affine.
Qed.

End normalize_affinely.

Module Sample4.
(** The ramp of [Sample.ramp23] in another unit: [10 * v + 3]. *)
Definition ramp23_scaled : ndarray :=
  NDArray float64 [2; 3]%nat
    ((λ v, 10 * v + 3) <$> [1; 2; 3; 4; 5; 6]).
End Sample4.

Lemma normalize_ignores_scale_and_offset_witness :
  ∃ mn mx,
    Qlist_min (data Sample.ramp23) = Some mn
    ∧ Qlist_max (data Sample.ramp23) = Some mx
    ∧ (eps <= mx - mn → eps <= 10 * (mx - mn) →
       ∃ l1' h1 out1 l2' h2 out2,
         run (DepthAnalyzer._normalize_to_range 0 2 17)
             [Sample.ramp23; Sample4.ramp23_scaled]
         = (Returned l1', h1)
         ∧ h1 !! l1' = Some out1
         ∧ run (DepthAnalyzer._normalize_to_range 1 2 17)
               [Sample.ramp23; Sample4.ramp23_scaled]
           = (Returned l2', h2)
         ∧ h2 !! l2' = Some out2
         ∧ same_values (data out2) (data out1)).
Proof.
  apply (normalize_ignores_scale_and_offset
           [Sample.ramp23; Sample4.ramp23_scaled] 0%nat 1%nat
           Sample.ramp23 Sample4.ramp23_scaled 10 3 2 17).
  - reflexivity.
  - reflexivity.
  - cbn. discriminate.
  - reflexivity.
  - reflexivity.
Defined.

(* ------------------------------------------------------------------ *)
(** ** Inverting the depth mirrors the relief *)



Section mirror.
Context `{cv : Cv2} {laws : Cv2Laws cv} `{F : Float64} `{F32 : Float32}.
Import ConversionConfig.



End mirror.


(* ------------------------------------------------------------------ *)
(** ** The kernel handed to OpenCV *)

Lemma run_bind_ret {A} (m : M A) h : run (x ← m; mret x) h = run m h.
Proof.
  rewrite run_bind. unfold run. destruct (m h) as [[e|v] h']; done.
Qed.

(** X6.  [_smooth] always hands OpenCV an odd kernel size: for every
    [kernel_size] the call is [cv2.GaussianBlur] with one and the same
    odd number [k] for both kernel dimensions and sigma 0, where [k] is
    [kernel_size] if that is odd and [kernel_size + 1] if it is even;
    so an even [kernel_size] acts as the next odd one, and a positive
    one is always acceptable to OpenCV. *)
Theorem smooth_kernel_is_odd `{cv : Cv2} (l : loc) (kernel_size : Z) :
  ∃ k : Z,
    (k mod 2 = 1)%Z
    ∧ (kernel_size mod 2 = 1 → k = kernel_size)%Z
    ∧ (kernel_size mod 2 = 0 → k = kernel_size + 1)%Z
    ∧ (0 < kernel_size → odd_positive k)%Z
    ∧ (∀ h, run (DepthAnalyzer._smooth l kernel_size) h
            = run (cv2_GaussianBlur l (k, k) 0) h)
    ∧ (kernel_size mod 2 = 0 →
       ∀ h, run (DepthAnalyzer._smooth l kernel_size) h
            = run (DepthAnalyzer._smooth l (kernel_size + 1)) h)%Z.
Proof.
  pose proof (Z.mod_pos_bound kernel_size 2 ltac:(lia)) as Hb.
  set (k := if (kernel_size mod 2 =? 1)%Z then kernel_size
            else (kernel_size + 1)%Z).
  assert (∀ k0 h, run (DepthAnalyzer._smooth l k0) h
                  = run (cv2_GaussianBlur l
                           (if (k0 mod 2 =? 1)%Z then k0 else (k0 + 1)%Z,
                            if (k0 mod 2 =? 1)%Z then k0 else (k0 + 1)%Z) 0) h)
    as Hrun.
  { intros k0 h. unfold DepthAnalyzer._smooth. apply run_bind_ret. }
  assert ((kernel_size + 1) mod 2 = (kernel_size mod 2 + 1) mod 2)%Z as Hsucc.
  { rewrite Z.add_mod by lia. done. }
  exists k. split_and!.
  - unfold k. destruct (Z.eqb_spec (kernel_size mod 2) 1); [done|].
    rewrite Hsucc. replace (kernel_size mod 2)%Z with 0%Z by lia. done.
  - intros Hodd. unfold k. by rewrite Hodd.
  - intros Heven. unfold k. by rewrite Heven.
  - intros Hpos. split.
    + unfold k. destruct (_ =? _)%Z; lia.
    + unfold k. destruct (Z.eqb_spec (kernel_size mod 2) 1); [done|].
      rewrite Hsucc. replace (kernel_size mod 2)%Z with 0%Z by lia. done.
  - intros h. apply Hrun.
  - intros Heven h. rewrite !Hrun. rewrite Hsucc, Heven. done.
Qed.

(* ------------------------------------------------------------------ *)
(** ** Physical dimensions of the height field *)

Section physical_size.
Context `{cv : Cv2} {laws : Cv2Laws cv} `{F : Float64} `{F32 : Float32}.
Import ConversionConfig.

(** X7.  The physical size [analyze] reports: the width is the
    configured [model_width], and the height is the width times
    rows over columns of the grid that is returned -- so height is to
    width as rows are to columns, both are positive, a square grid
    gives a square model -- where rows and columns are those of the
    input when [detail_level] is [1.0] and those of the resampled grid
    otherwise. *)
Theorem analyze_physical_size (h : heap) (l : loc) (a : ndarray)
    (cfg : ConversionConfig.t) :
  config_valid cfg →
  h !! l = Some a → wf_ndarray a → ndim a = 2%nat → size a ≠ 0%nat →
  ∃ hd h' out rows cols,
    run (DepthAnalyzer.analyze (PyNdarray l) cfg) h = (Returned hd, h')
    ∧ h' !! HeightData.heights hd = Some out
    ∧ shape out = [rows; cols]
    ∧ HeightData.resolution hd = (rows, cols)
    ∧ (0 < rows)%nat ∧ (0 < cols)%nat
    ∧ HeightData.width_mm hd = model_width cfg
    ∧ HeightData.height_mm hd * inject_Z (Z.of_nat cols)
      == HeightData.width_mm hd * inject_Z (Z.of_nat rows)
    ∧ 0 < HeightData.width_mm hd ∧ 0 < HeightData.height_mm hd
    ∧ (rows = cols → HeightData.height_mm hd == HeightData.width_mm hd)
    ∧ (detail_level cfg == 1 → shape a = [rows; cols]).
Proof.
  intros Hv Hl Hwf Hnd Hsz.
  destruct (analyze_run h l a cfg Hl Hwf Hnd Hsz)
    as (hd & h' & Hrun & (_ & _ & Hout) & Hg & Hw & rows & cols & Hs & Hres & Hh).
  apply config_valid_iff in Hv as (_ & _ & Hmw & _).
  destruct Hg as (_ & r & c & Hs' & Hr & Hc).
  rewrite Hs in Hs'. injection Hs' as <- <-.
  assert (0 < inject_Z (Z.of_nat rows)) as Hrq.
  { change 0 with (inject_Z 0). rewrite <- Zlt_Qlt. lia. }
  assert (0 < inject_Z (Z.of_nat cols)) as Hcq.
  { change 0 with (inject_Z 0). rewrite <- Zlt_Qlt. lia. }
  exists hd, h', (Stage.pipeline cfg (as_float32 a)), rows, cols.
  split_and!; [exact Hrun|exact Hout|exact Hs|exact Hres|done|done|done|..].
  - rewrite Hh, Hw. field. lra.
  - by rewrite Hw.
  - rewrite Hh. apply Qmult_lt_0_compat; [done|].
    apply Qlt_shift_div_l; [done|]. lra.
  - intros ->. rewrite Hh, Hw. field. lra.
  - intros Hd%Qeq_bool_iff. rewrite pipeline_shape in Hs
      by by apply is_grid_retype, is_grid_intro.
    rewrite Hd in Hs. exact Hs.
Qed.

End physical_size.

Lemma analyze_physical_size_witness :
  ∃ hd h' out rows cols,
    run (DepthAnalyzer.analyze (cv := Cv2Ref.cv) (PyNdarray 0)
           ConversionConfig.default) [Sample.ramp23] = (Returned hd, h')
    ∧ h' !! HeightData.heights hd = Some out
    ∧ shape out = [rows; cols]
    ∧ HeightData.resolution hd = (rows, cols)
    ∧ (0 < rows)%nat ∧ (0 < cols)%nat
    ∧ HeightData.width_mm hd
      = ConversionConfig.model_width ConversionConfig.default
    ∧ HeightData.height_mm hd * inject_Z (Z.of_nat cols)
      == HeightData.width_mm hd * inject_Z (Z.of_nat rows)
    ∧ 0 < HeightData.width_mm hd ∧ 0 < HeightData.height_mm hd
    ∧ (rows = cols → HeightData.height_mm hd == HeightData.width_mm hd)
    ∧ (ConversionConfig.detail_level ConversionConfig.default == 1 →
       shape Sample.ramp23 = [rows; cols]).
Proof.
  apply (analyze_physical_size (laws := Cv2Ref.laws)
           [Sample.ramp23] 0%nat Sample.ramp23 ConversionConfig.default).
  - reflexivity.
  - reflexivity.
  - reflexivity.
  - reflexivity.
  - cbn. discriminate.
Defined.

(* ------------------------------------------------------------------ *)
(** ** Constructing a [HeightData] *)

(** X8.  [HeightData(heights, width_mm, height_mm)] checks one thing:
    that [heights] has two dimensions.  If so the object is built
    around the very array it was given (no copy is made), with
    [resolution = (shape[0], shape[1])] -- also for an array with no
    element, which [analyze] would reject; if not, the constructor
    raises the built-in [ValueError].  Either way the store is left as
    it was. *)
Theorem HeightData_requires_2d (h : heap) (l : loc) (a : ndarray)
    (w hh : Q) :
  h !! l = Some a →
  (ndim a = 2%nat →
   ∃ r c, shape a = [r; c]
     ∧ run (HeightData.new l w hh) h
       = (Returned (HeightData.Build l w hh (r, c)), h))
  ∧ (ndim a ≠ 2%nat →
     run (HeightData.new l w hh) h
     = (Raised (Exn ValueError "heights must be a 2D array"), h)).
Proof.
  intros Hl. unfold HeightData.new, HeightData.__post_init__.
  rewrite !run_bind, (run_load h l a Hl). split.
  - intros Hnd. unfold ndim in Hnd.
    destruct (shape a) as [|r [|c [|? ?]]] eqn:Hs; try done.
    exists r, c. split; [done|]. unfold ndim. rewrite Hs. done.
  - intros Hnd. apply Nat.eqb_neq in Hnd. rewrite Hnd. done.
Qed.

Module Sample5.
(** A 2D array without an element, and a 3D one. *)
Definition empty03 : ndarray := NDArray float32 [0; 3]%nat [].
Definition cube : ndarray :=
  NDArray float32 [1; 2; 2]%nat [1; 2; 3; 4].
End Sample5.

Lemma HeightData_requires_2d_witness :
  (ndim Sample5.empty03 = 2%nat →
   ∃ r c, shape Sample5.empty03 = [r; c]
     ∧ run (HeightData.new 0 100 50) [Sample5.empty03]
       = (Returned (HeightData.Build 0 100 50 (r, c)), [Sample5.empty03]))
  ∧ (ndim Sample5.empty03 ≠ 2%nat →
     run (HeightData.new 0 100 50) [Sample5.empty03]
     = (Raised (Exn ValueError "heights must be a 2D array"),
        [Sample5.empty03])).
Proof.
  apply (HeightData_requires_2d [Sample5.empty03] 0%nat Sample5.empty03
           100 50).
  reflexivity.
Defined.

Example HeightData_of_empty_grid :
  run (HeightData.new 0 100 50) [Sample5.empty03]
  = (Returned (HeightData.Build 0 100 50 (0, 3)%nat), [Sample5.empty03]).
Proof. reflexivity. Qed.

Example HeightData_of_cube :
  run (HeightData.new 0 100 50) [Sample5.cube]
  = (Raised (Exn ValueError "heights must be a 2D array"), [Sample5.cube]).
Proof. reflexivity. Qed.

(* ================================================================== *)
(** * [DepthAnalyzer.get_statistics] *)
(* ================================================================== *)

(** The Python objects that are put in a dict by this package: floats,
    booleans, strings and tuples of ints. *)
Inductive pyobj : Type :=
  | PyFloat (x : Q)
  | PyBool (b : bool)
  | PyStr (s : string)
  | PyTuple (t : list nat).

(** A dict with string keys. *)
Abbreviation dict := (gmap string pyobj) (only parsing).

(** [a.sum()] and [a.mean()], the sum divided by the number of
    elements.  (Of an array without elements numpy's mean is nan, which
    the model does not have; [get_statistics] raises before it gets
    there.) *)
Definition Qsum (l : list Q) : Q := foldr Qplus 0 l.

Definition Qmean (l : list Q) : Q :=
  Qsum l / inject_Z (Z.of_nat (length l)).

Definition ndarray_mean (l : loc) : M Q :=
  a ← load l; mret (Qmean (data a)).

(** The square root is not a rational function: it is a parameter,
    constrained by [NpSqrtLaws]. *)
Class NpSqrt : Type := np_sqrt : Q → Q.

Class NpSqrtLaws (s : NpSqrt) : Prop := {
  np_sqrt_nonneg : ∀ x, 0 <= x → 0 <= np_sqrt x;
  np_sqrt_pos : ∀ x, 0 < x → 0 < np_sqrt x;
  np_sqrt_le : ∀ x y, 0 <= y → x <= y * y → np_sqrt x <= y
}.

(** [a.std()]: the root of the mean squared deviation from the mean. *)
Definition variance (l : list Q) : Q :=
  let m := Qmean l in Qmean ((λ v, (v - m) * (v - m)) <$> l).

Definition ndarray_std `{sq : NpSqrt} (l : loc) : M Q :=
  a ← load l; mret (np_sqrt (variance (data a))).

(** [a.shape] *)
Definition ndarray_shape (l : loc) : M (list nat) :=
  a ← load l; mret (shape a).

Definition get_statistics `{sq : NpSqrt} (depth_map : pyval) : M dict :=
  arr ← as_ndarray depth_map "min";
  v_min ← ndarray_min arr;
  arr ← as_ndarray depth_map "max";
  v_max ← ndarray_max arr;
  arr ← as_ndarray depth_map "mean";
  v_mean ← ndarray_mean arr;
  arr ← as_ndarray depth_map "std";
  v_std ← ndarray_std arr;
  arr ← as_ndarray depth_map "shape";
  v_shape ← ndarray_shape arr;
  mret (list_to_map
          [("min"%string, PyFloat v_min);
           ("max"%string, PyFloat v_max);
           ("mean"%string, PyFloat v_mean);
           ("std"%string, PyFloat v_std);
           ("shape"%string, PyTuple v_shape)]).

(** A reference square root: the root rounded down to a multiple of
    [1 / den]. *)
Module SqrtRef.

#[global] Instance sqrt : NpSqrt := λ x,
  inject_Z (Z.sqrt (Qnum x * Z.pos (Qden x))) / inject_Z (Z.pos (Qden x)).

Lemma sqrt_ref_unfold n d :
  np_sqrt (n # d) == Z.sqrt (n * Z.pos d) # d.
Proof.
  unfold np_sqrt, sqrt. cbn [Qnum Qden].
  unfold Qdiv, Qinv, inject_Z, Qmult, Qeq. cbn. lia.
Qed.

Lemma sqrt_ref_le n d p q :
  (0 <= p)%Z → (n * (Z.pos q * Z.pos q) <= p * p * Z.pos d)%Z →
  (Z.sqrt (n * Z.pos d) * Z.pos q <= p * Z.pos d)%Z.
Proof.
  intros Hp H.
  destruct (Z.le_gt_cases 0 (n * Z.pos d)) as [Hnd|Hnd].
  - pose proof (Z.sqrt_spec _ Hnd) as [Hs _].
    pose proof (Z.sqrt_nonneg (n * Z.pos d)) as Hs0.
    set (s := Z.sqrt (n * Z.pos d)) in *.
    apply Z.nlt_ge. intros Hlt.
    assert (p * Z.pos d * (p * Z.pos d) < s * Z.pos q * (s * Z.pos q))%Z
      by (apply Z.mul_lt_mono_nonneg; lia).
    assert (s * s * (Z.pos q * Z.pos q) <= n * Z.pos d * (Z.pos q * Z.pos q))%Z
      by (apply Z.mul_le_mono_nonneg_r; lia).
    assert (n * (Z.pos q * Z.pos q) * Z.pos d <= p * p * Z.pos d * Z.pos d)%Z
      by (apply Z.mul_le_mono_nonneg_r; lia).
    lia.
  - rewrite Z.sqrt_neg by lia. lia.
Qed.

#[global] Instance laws : NpSqrtLaws sqrt.
Proof.
  split.
  - intros [n d] Hx. rewrite sqrt_ref_unfold.
    pose proof (Z.sqrt_nonneg (n * Z.pos d)).
    unfold Qle. cbn. lia.
  - intros [n d] Hx. rewrite sqrt_ref_unfold.
    assert (0 < n)%Z as Hn by (unfold Qlt in Hx; cbn in Hx; lia).
    assert (0 < Z.sqrt (n * Z.pos d))%Z by (apply Z.sqrt_pos; lia).
    unfold Qlt. cbn. lia.
  - intros [n d] [p q] Hy Hxy. rewrite sqrt_ref_unfold.
    unfold Qle in *. cbn in *.
    apply sqrt_ref_le; [lia|]. 
    rewrite Pos2Z.inj_mul in Hxy. lia.
Qed.

End SqrtRef.

(** ** Sums, means and variances *)

Definition nat_Q (n : nat) : Q := inject_Z (Z.of_nat n).

Lemma nat_Q_S n : nat_Q (S n) == nat_Q n + 1.
Proof. unfold nat_Q. rewrite Nat2Z.inj_succ, <- Z.add_1_r, inject_Z_plus. done. Qed.

Lemma nat_Q_nonneg n : 0 <= nat_Q n.
Proof.
  unfold nat_Q. change 0 with (inject_Z 0). rewrite <- Zle_Qle. lia.
Qed.

Lemma nat_Q_pos n : (0 < n)%nat → 0 < nat_Q n.
Proof.
  intros H. unfold nat_Q. change 0 with (inject_Z 0).
  rewrite <- Zlt_Qlt. lia.
Qed.

Lemma Qsum_lower (l : list Q) (c : Q) :
  (∀ v, v ∈ l → c <= v) → nat_Q (length l) * c <= Qsum l.
Proof.
  induction l as [|x l IH]; intros H; cbn [length Qsum foldr].
  - change (nat_Q 0) with 0. lra.
  - rewrite nat_Q_S. fold (Qsum l).
    assert (c <= x) by (apply H; left).
    assert (nat_Q (length l) * c <= Qsum l)
      by (apply IH; intros; apply H; by right).
    lra.
Qed.

Lemma Qsum_upper (l : list Q) (c : Q) :
  (∀ v, v ∈ l → v <= c) → Qsum l <= nat_Q (length l) * c.
Proof.
  induction l as [|x l IH]; intros H; cbn [length Qsum foldr].
  - change (nat_Q 0) with 0. lra.
  - rewrite nat_Q_S. fold (Qsum l).
    assert (x <= c) by (apply H; left).
    assert (Qsum l <= nat_Q (length l) * c)
      by (apply IH; intros; apply H; by right).
    lra.
Qed.

Lemma Qsum_zero (l : list Q) :
  (∀ v, v ∈ l → 0 <= v) → Qsum l == 0 → ∀ v, v ∈ l → v == 0.
Proof.
  induction l as [|x l IH]; intros Hpos Hsum v Hv.
  - by apply elem_of_nil in Hv.
  - cbn [Qsum foldr] in Hsum. fold (Qsum l) in Hsum.
    assert (0 <= x) by (apply Hpos; left).
    assert (0 <= Qsum l).
    { pose proof (Qsum_lower l 0) as Hl. rewrite Qmult_0_r in Hl.
      apply Hl. intros; apply Hpos; by right. }
    apply elem_of_cons in Hv as [->|Hv]; [lra|].
    apply IH; [intros; apply Hpos; by right|lra|done].
Qed.

Lemma Qsum_proper_zero (l : list Q) :
  (∀ v, v ∈ l → v == 0) → Qsum l == 0.
Proof.
  induction l as [|x l IH]; intros H; cbn [Qsum foldr]; [done|].
  fold (Qsum l). rewrite (H x) by left. rewrite IH; [lra|].
  intros; apply H; by right.
Qed.

Lemma length_pos_nonempty {A} (l : list A) : l ≠ [] → (0 < length l)%nat.
Proof. destruct l; [done|cbn; lia]. Qed.

Lemma Qmean_sum l : l ≠ [] → Qmean l * nat_Q (length l) == Qsum l.
Proof.
  intros Hne. pose proof (nat_Q_pos _ (length_pos_nonempty l Hne)).
  unfold Qmean. fold (nat_Q (length l)). field. lra.
Qed.

Lemma Qmean_bounds l lo hi :
  l ≠ [] → (∀ v, v ∈ l → lo <= v ∧ v <= hi) →
  lo <= Qmean l ∧ Qmean l <= hi.
Proof.
  intros Hne H.
  pose proof (nat_Q_pos _ (length_pos_nonempty l Hne)) as Hn.
  pose proof (Qmean_sum l Hne) as Hm.
  pose proof (Qsum_lower l lo (λ v Hv, proj1 (H v Hv))).
  pose proof (Qsum_upper l hi (λ v Hv, proj2 (H v Hv))).
  split; apply Qnot_lt_le; intros Hlt; nra.
Qed.

Lemma Qsquare_nonneg (x : Q) : 0 <= x * x.
Proof. nra. Qed.

Lemma squares_nonneg (m : Q) (l : list Q) v :
  v ∈ (λ v, (v - m) * (v - m)) <$> l → 0 <= v.
Proof. intros (w & -> & _)%list_elem_of_fmap. apply Qsquare_nonneg. Qed.

Lemma variance_nonneg l : 0 <= variance l.
Proof.
  destruct l as [|x l]; [by vm_compute|].
  unfold variance. set (m := Qmean (x :: l)).
  set (sq := (λ v, (v - m) * (v - m)) <$> x :: l).
  assert (sq ≠ []) as Hne by done.
  pose proof (nat_Q_pos _ (length_pos_nonempty sq Hne)) as Hn.
  pose proof (Qmean_sum sq Hne) as Hm.
  pose proof (Qsum_lower sq 0 (squares_nonneg m (x :: l))) as Hs.
  apply Qnot_lt_le. intros Hlt. nra.
Qed.

Lemma variance_zero_iff l :
  l ≠ [] → variance l == 0 ↔ ∀ v, v ∈ l → v == Qmean l.
Proof.
  intros Hne. unfold variance. set (m := Qmean l).
  set (sq := (λ v, (v - m) * (v - m)) <$> l).
  assert (sq ≠ []) as Hne' by by apply fmap_nonempty.
  pose proof (nat_Q_pos _ (length_pos_nonempty sq Hne')) as Hn.
  pose proof (Qmean_sum sq Hne') as Hm.
  split.
  - intros Hz v Hv.
    assert (Qsum sq == 0) as Hs by (rewrite <- Hm, Hz; lra).
    pose proof (Qsum_zero sq (squares_nonneg m l) Hs ((v - m) * (v - m))
                  (list_elem_of_fmap_2 _ _ _ Hv)) as Hsq.
    assert (v - m == 0); [|lra].
    destruct (Qmult_integral _ _ Hsq); done.
  - intros Hall.
    assert (Qsum sq == 0) as Hs.
    { apply Qsum_proper_zero. intros ? (w & -> & Hw)%list_elem_of_fmap.
      rewrite (Hall w Hw). fold m. ring. }
    rewrite Hs in Hm. destruct (Qmult_integral _ _ Hm); [done|lra].
Qed.

Lemma variance_le_range l lo hi :
  l ≠ [] → (∀ v, v ∈ l → lo <= v ∧ v <= hi) →
  variance l <= (hi - lo) * (hi - lo).
Proof.
  intros Hne Hb. unfold variance.
  pose proof (Qmean_bounds l lo hi Hne Hb) as [Hm1 Hm2].
  set (m := Qmean l) in *.
  apply Qmean_bounds with (lo := 0); [by apply fmap_nonempty|].
  intros ? (v & -> & Hv)%list_elem_of_fmap.
  cbn beta. split; [apply Qsquare_nonneg|].
  destruct (Hb v Hv) as [Hv1 Hv2].
  destruct (Qlt_le_dec (v - m) 0).
  - assert ((v - m) * (v - m) == (m - v) * (m - v)) as E by ring.
    rewrite E. apply Qmult_le_compat_nonneg; split; lra.
  - apply Qmult_le_compat_nonneg; split; lra.
Qed.

(* ------------------------------------------------------------------ *)
(** ** What [get_statistics] reports *)

Section statistics.
Context `{s : NpSqrt} {sl : NpSqrtLaws s}.

Lemma run_as_ndarray l attr h :
  run (as_ndarray (PyNdarray l) attr) h = (Returned l, h).
Proof. done. Qed.

(** X9.  [get_statistics] is a query: on an array with at least one
    element, of any number of dimensions, it returns a dict with the
    five keys [min], [max], [mean], [std] and [shape] and leaves the
    store exactly as it was.  [min] and [max] are the smallest and the
    largest element as they are (nothing is inverted or normalized),
    the mean lies between them and times the number of elements is the
    sum, the standard deviation is between 0 and [max - min] and is 0
    exactly when all elements are equal, and [shape] is the shape of
    the array. *)
Theorem get_statistics_summary (h : heap) (l : loc) (a : ndarray) :
  h !! l = Some a → data a ≠ [] →
  ∃ mn mx mean std,
    run (get_statistics (PyNdarray l)) h
    = (Returned (list_to_map
                   [("min"%string, PyFloat mn);
                    ("max"%string, PyFloat mx);
                    ("mean"%string, PyFloat mean);
                    ("std"%string, PyFloat std);
                    ("shape"%string, PyTuple (shape a))]), h)
    ∧ Qlist_min (data a) = Some mn ∧ Qlist_max (data a) = Some mx
    ∧ mn <= mean ∧ mean <= mx
    ∧ mean * inject_Z (Z.of_nat (length (data a))) == Qsum (data a)
    ∧ 0 <= std ∧ std <= mx - mn
    ∧ (std == 0 ↔ mn == mx).
Proof.
  intros Hl Hne.
  pose proof (grid_min_Some a Hne) as Hmn.
  pose proof (grid_max_Some a Hne) as Hmx.
  pose proof (grid_min_spec a Hne) as [Hmin_in Hmin].
  pose proof (grid_max_spec a Hne) as [Hmax_in Hmax].
  set (mn := Stage.grid_min a) in *. set (mx := Stage.grid_max a) in *.
  assert (∀ v, v ∈ data a → mn <= v ∧ v <= mx) as Hb by (split; auto).
  pose proof (Qmean_bounds _ mn mx Hne Hb) as [Hm1 Hm2].
  pose proof (variance_nonneg (data a)) as Hv0.
  pose proof (variance_le_range _ mn mx Hne Hb) as Hv1.
  exists mn, mx, (Qmean (data a)), (np_sqrt (variance (data a))).
  split.
  { unfold get_statistics, ndarray_min, ndarray_max, ndarray_mean,
      ndarray_std, ndarray_shape.
    rewrite !run_bind, !run_as_ndarray.
    rewrite !run_bind, (run_load h l a Hl), Hmn, run_ret.
    rewrite !run_bind, !run_as_ndarray.
    rewrite !run_bind, (run_load h l a Hl), Hmx, run_ret.
    rewrite !run_bind, !run_as_ndarray.
    rewrite !run_bind, (run_load h l a Hl), run_ret.
    rewrite !run_bind, !run_as_ndarray.
    rewrite !run_bind, (run_load h l a Hl), run_ret.
    rewrite !run_bind, !run_as_ndarray.
    rewrite !run_bind, (run_load h l a Hl), run_ret.
    done. }
  split_and!; [done|done|done|done|by apply Qmean_sum| | |].
  - by apply np_sqrt_nonneg.
  - apply np_sqrt_le; [lra|done].
  - split.
    + intros Hz.
      assert (variance (data a) == 0) as Hvz.
      { apply Qle_antisym; [|done]. apply Qnot_lt_le. intros Hpos.
        pose proof (np_sqrt_pos _ Hpos). lra. }
      pose proof (proj1 (variance_zero_iff _ Hne) Hvz) as Hall.
      rewrite (Hall mn Hmin_in), (Hall mx Hmax_in). done.
    + intros Heq.
      assert (variance (data a) == 0) as Hvz by (apply Qle_antisym; nra).
      apply Qle_antisym; [|by apply np_sqrt_nonneg].
      apply np_sqrt_le; lra.
Qed.

(** X10.  Without an element there is nothing to report:
    [get_statistics] of an empty array raises the [ValueError] of
    numpy's [min], and of an object that is not an array (a nested
    list) the [AttributeError] of the missing method; no dict is
    returned and the store is left as it was. *)
Theorem get_statistics_needs_elements (h : heap) (l : loc) (a : ndarray) :
  h !! l = Some a → data a = [] →
  run (get_statistics (PyNdarray l)) h
  = (Raised (Exn ValueError
       "zero-size array to reduction operation minimum which has no identity"),
     h)
  ∧ ∀ rows (h0 : heap),
      run (get_statistics (PyList rows)) h0
      = (Raised (Exn AttributeError
           "'list' object has no attribute 'min'"), h0).
Proof.
  intros Hl Hd. split; [|done].
  unfold get_statistics, ndarray_min.
  rewrite !run_bind, !run_as_ndarray.
  rewrite !run_bind, (run_load h l a Hl), Hd. done.
Qed.

End statistics.

Lemma get_statistics_summary_witness :
  ∃ mn mx mean std,
    run (get_statistics (sq := SqrtRef.sqrt) (PyNdarray 0)) [Sample.vec3]
    = (Returned (list_to_map
                   [("min"%string, PyFloat mn);
                    ("max"%string, PyFloat mx);
                    ("mean"%string, PyFloat mean);
                    ("std"%string, PyFloat std);
                    ("shape"%string, PyTuple (shape Sample.vec3))]),
       [Sample.vec3])
    ∧ Qlist_min (data Sample.vec3) = Some mn
    ∧ Qlist_max (data Sample.vec3) = Some mx
    ∧ mn <= mean ∧ mean <= mx
    ∧ mean * inject_Z (Z.of_nat (length (data Sample.vec3)))
      == Qsum (data Sample.vec3)
    ∧ 0 <= std ∧ std <= mx - mn
    ∧ (std == 0 ↔ mn == mx).
Proof.
  apply (get_statistics_summary (sl := SqrtRef.laws)
           [Sample.vec3] 0%nat Sample.vec3).
  - reflexivity.
  - cbn. discriminate.
Defined.

Lemma get_statistics_needs_elements_witness :
  run (get_statistics (sq := SqrtRef.sqrt) (PyNdarray 0)) [Sample5.empty03]
  = (Raised (Exn ValueError
       "zero-size array to reduction operation minimum which has no identity"),
     [Sample5.empty03])
  ∧ ∀ rows (h0 : heap),
      run (get_statistics (sq := SqrtRef.sqrt) (PyList rows)) h0
      = (Raised (Exn AttributeError
           "'list' object has no attribute 'min'"), h0).
Proof.
  apply (get_statistics_needs_elements (s := SqrtRef.sqrt)
           [Sample5.empty03] 0%nat Sample5.empty03).
  - reflexivity.
  - reflexivity.
Defined.

Example statistics_of_vec3 :
  (run (get_statistics (sq := SqrtRef.sqrt) (PyNdarray 0)) [Sample.vec3]).1
  = Returned (list_to_map
                [("min"%string, PyFloat 1);
                 ("max"%string, PyFloat 3);
                 ("mean"%string, PyFloat (6 / 3));
                 ("std"%string, PyFloat (SqrtRef.sqrt
                                           (variance [1; 2; 3])));
                 ("shape"%string, PyTuple [3%nat])]).
Proof. reflexivity. Qed.

(* ================================================================== *)
(** * [ConversionConfig.to_dict] and [ConversionConfig.from_dict] *)
(* ================================================================== *)

Module ConfigDict.

(** The keys of a serialized configuration. *)
Definition field_names : list string :=
  ["base_thickness"; "max_height"; "model_width"; "detail_level";
   "smoothing"; "invert_depth"; "output_style"]%string.

Definition to_dict (self : ConversionConfig.t) : dict :=
  list_to_map
    [("base_thickness"%string, PyFloat (ConversionConfig.base_thickness self));
     ("max_height"%string, PyFloat (ConversionConfig.max_height self));
     ("model_width"%string, PyFloat (ConversionConfig.model_width self));
     ("detail_level"%string, PyFloat (ConversionConfig.detail_level self));
     ("smoothing"%string, PyBool (ConversionConfig.smoothing self));
     ("invert_depth"%string, PyBool (ConversionConfig.invert_depth self));
     ("output_style"%string, PyStr (ConversionConfig.output_style self))].

(** [data.get(key, dflt)] *)
Definition dict_get (data : dict) (key : string) (dflt : pyobj) : pyobj :=
  default dflt (data !! key).

(** The fields of [ConversionConfig.t] are typed.  [from_dict] itself
    checks no type: on a dict that holds a string under
    [base_thickness] the comparison of [__post_init__] raises a
    [TypeError], and from one that holds a string under [smoothing] it
    makes a configuration with a string in that field.  Such dicts are
    outside the model, and [from_dict] is [None] on them; [typed] says
    that a dict is not of them: what it holds under a field name has
    the type of the field. *)
Definition as_float (v : pyobj) : option Q :=
  match v with PyFloat x => Some x | _ => None end.
Definition as_bool (v : pyobj) : option bool :=
  match v with PyBool b => Some b | _ => None end.
Definition as_str (v : pyobj) : option string :=
  match v with PyStr s => Some s | _ => None end.

Definition from_dict (data : dict) : option (result ConversionConfig.t) :=
  base_thickness ← as_float (dict_get data "base_thickness" (PyFloat 2));
  max_height ← as_float (dict_get data "max_height" (PyFloat 15));
  model_width ← as_float (dict_get data "model_width" (PyFloat 100));
  detail_level ← as_float (dict_get data "detail_level" (PyFloat 1));
  smoothing ← as_bool (dict_get data "smoothing" (PyBool true));
  invert_depth ← as_bool (dict_get data "invert_depth" (PyBool false));
  output_style ← as_str (dict_get data "output_style" (PyStr "relief"));
  Some (ConversionConfig.new base_thickness max_height model_width
          detail_level smoothing invert_depth output_style).

Definition is_float (v : pyobj) : bool :=
  match v with PyFloat _ => true | _ => false end.
Definition is_bool (v : pyobj) : bool :=
  match v with PyBool _ => true | _ => false end.
Definition is_str (v : pyobj) : bool :=
  match v with PyStr _ => true | _ => false end.

Definition holds (ok : pyobj → bool) (data : dict) (key : string) : bool :=
  match data !! key with Some v => ok v | None => true end.

Definition typed (data : dict) : bool :=
  forallb (holds is_float data)
          ["base_thickness"; "max_height"; "model_width";
           "detail_level"]%string
  && forallb (holds is_bool data) ["smoothing"; "invert_depth"]%string
  && holds is_str data "output_style".

End ConfigDict.

Lemma to_dict_lookup cfg :
  ConfigDict.to_dict cfg !! "base_thickness"%string
    = Some (PyFloat (ConversionConfig.base_thickness cfg))
  ∧ ConfigDict.to_dict cfg !! "max_height"%string
    = Some (PyFloat (ConversionConfig.max_height cfg))
  ∧ ConfigDict.to_dict cfg !! "model_width"%string
    = Some (PyFloat (ConversionConfig.model_width cfg))
  ∧ ConfigDict.to_dict cfg !! "detail_level"%string
    = Some (PyFloat (ConversionConfig.detail_level cfg))
  ∧ ConfigDict.to_dict cfg !! "smoothing"%string
    = Some (PyBool (ConversionConfig.smoothing cfg))
  ∧ ConfigDict.to_dict cfg !! "invert_depth"%string
    = Some (PyBool (ConversionConfig.invert_depth cfg))
  ∧ ConfigDict.to_dict cfg !! "output_style"%string
    = Some (PyStr (ConversionConfig.output_style cfg)).
Proof. split_and!; reflexivity. Qed.

Lemma to_dict_lookup_other cfg k :
  k ∉ ConfigDict.field_names → ConfigDict.to_dict cfg !! k = None.
Proof.
  unfold ConfigDict.field_names. rewrite !not_elem_of_cons.
  intros (? & ? & ? & ? & ? & ? & ? & _).
  unfold ConfigDict.to_dict. cbn [list_to_map foldr uncurry].
  rewrite !lookup_insert_ne by done. apply lookup_empty.
Qed.

(** [from_dict] reads the seven keys and nothing else. *)
Lemma from_dict_ext (d1 d2 : gmap string pyobj) :
  (∀ k, k ∈ ConfigDict.field_names → d1 !! k = d2 !! k) →
  ConfigDict.from_dict d1 = ConfigDict.from_dict d2.
Proof.
  intros H. unfold ConfigDict.from_dict, ConfigDict.dict_get.
  rewrite !H by (unfold ConfigDict.field_names; in_list). done.
Qed.

Section config_dict.
Import ConfigDict.

(** X11.  A configuration survives the round trip through a dict:
    [from_dict(to_dict(cfg))] is a configuration with the fields of
    [cfg], for every [cfg] that passes the validation of
    [__post_init__] -- which is every configuration as constructed. *)
Theorem from_dict_to_dict (cfg : ConversionConfig.t) :
  config_valid cfg → from_dict (to_dict cfg) = Some (Returned cfg).
Proof.
  intros Hv. unfold from_dict, dict_get.
  destruct (to_dict_lookup cfg) as (-> & -> & -> & -> & -> & -> & ->).
  cbn. unfold ConversionConfig.new. destruct cfg. cbn in *.
  unfold config_valid in Hv. by rewrite Hv.
Qed.

Lemma from_dict_to_dict_witness :
  from_dict (to_dict ConversionConfig.default)
  = Some (Returned ConversionConfig.default).
Proof. apply (from_dict_to_dict ConversionConfig.default). reflexivity. Defined.

Lemma dict_get_union (data : gmap string pyobj) cfg k v :
  to_dict cfg !! k = Some v →
  dict_get (data ∪ to_dict cfg) k v = dict_get data k v.
Proof.
  intros Hk. unfold dict_get. rewrite lookup_union, Hk.
  by destruct (data !! k).
Qed.

(** X12.  A key that is missing from the dict takes the default of its
    field, and a key that is not a field name is ignored: the empty
    dict gives the default configuration, any dict gives what it gives
    once completed with the entries of the default configuration, and
    adding an entry under another key changes nothing. *)
Theorem from_dict_defaults (data : gmap string pyobj) :
  from_dict ∅ = Some (Returned ConversionConfig.default)
  ∧ from_dict (data ∪ to_dict ConversionConfig.default) = from_dict data
  ∧ (∀ k v, k ∉ field_names → from_dict (<[k := v]> data) = from_dict data).
Proof.
  split_and!.
  - reflexivity.
  - unfold from_dict.
    rewrite !dict_get_union by reflexivity. done.
  - intros k v Hk. apply from_dict_ext. intros k' Hk'.
    apply lookup_insert_ne. intros ->. done.
Qed.

Lemma as_float_get data k d x v :
  as_float (dict_get data k d) = Some x → data !! k = Some v → v = PyFloat x.
Proof.
  unfold dict_get. intros H Hv. rewrite Hv in H. cbn in H.
  destruct v; cbn in H; by simplify_eq.
Qed.

Lemma as_bool_get data k d x v :
  as_bool (dict_get data k d) = Some x → data !! k = Some v → v = PyBool x.
Proof.
  unfold dict_get. intros H Hv. rewrite Hv in H. cbn in H.
  destruct v; cbn in H; by simplify_eq.
Qed.

Lemma as_str_get data k d x v :
  as_str (dict_get data k d) = Some x → data !! k = Some v → v = PyStr x.
Proof.
  unfold dict_get. intros H Hv. rewrite Hv in H. cbn in H.
  destruct v; cbn in H; by simplify_eq.
Qed.

Lemma get_missing data k d : data !! k = None → dict_get data k d = d.
Proof. unfold dict_get. by intros ->. Qed.

Lemma as_float_typed data k d :
  holds is_float data k = true → is_Some (as_float (dict_get data k (PyFloat d))).
Proof.
  unfold holds, dict_get. destruct (data !! k) as [[]|]; by eauto.
Qed.

Lemma as_bool_typed data k d :
  holds is_bool data k = true → is_Some (as_bool (dict_get data k (PyBool d))).
Proof.
  unfold holds, dict_get. destruct (data !! k) as [[]|]; by eauto.
Qed.

Lemma as_str_typed data k d :
  holds is_str data k = true → is_Some (as_str (dict_get data k (PyStr d))).
Proof.
  unfold holds, dict_get. destruct (data !! k) as [[]|]; by eauto.
Qed.

(** On a typed dict, and on no other, [from_dict] is in the model. *)
Lemma from_dict_typed (data : gmap string pyobj) :
  typed data = true ↔ is_Some (from_dict data).
Proof.
  unfold typed, from_dict. cbn [forallb].
  rewrite !andb_true_iff. split.
  - intros [[(H1 & H2 & H3 & H4 & _) (H5 & H6 & _)] H7].
    destruct (as_float_typed data _ 2 H1) as [? ->].
    destruct (as_float_typed data _ 15 H2) as [? ->].
    destruct (as_float_typed data _ 100 H3) as [? ->].
    destruct (as_float_typed data _ 1 H4) as [? ->].
    destruct (as_bool_typed data _ true H5) as [? ->].
    destruct (as_bool_typed data _ false H6) as [? ->].
    destruct (as_str_typed data _ "relief" H7) as [? ->].
    cbn. by eexists.
  - intros [r Hr]. unfold holds, dict_get in *.
    destruct (data !! "base_thickness"%string) as [[]|];
      cbn in Hr; try discriminate;
    destruct (data !! "max_height"%string) as [[]|];
      cbn in Hr; try discriminate;
    destruct (data !! "model_width"%string) as [[]|];
      cbn in Hr; try discriminate;
    destruct (data !! "detail_level"%string) as [[]|];
      cbn in Hr; try discriminate;
    destruct (data !! "smoothing"%string) as [[]|];
      cbn in Hr; try discriminate;
    destruct (data !! "invert_depth"%string) as [[]|];
      cbn in Hr; try discriminate;
    destruct (data !! "output_style"%string) as [[]|];
      cbn in Hr; try discriminate; done.
Qed.

Lemma from_dict_checked (data : gmap string pyobj)
    (r : result ConversionConfig.t) :
  from_dict data = Some r →
  match r with
  | Returned cfg =>
      config_valid cfg
      ∧ (∀ k v, k ∈ field_names → data !! k = Some v →
           to_dict cfg !! k = Some v)
      ∧ (∀ k, data !! k = None →
           to_dict cfg !! k = to_dict ConversionConfig.default !! k)
  | Raised e => exn_cls e = ValueError
  end.
Proof.
  unfold from_dict. intros H.
  destruct (as_float (dict_get data "base_thickness" _)) as [bt|] eqn:E1;
    [|done].
  destruct (as_float (dict_get data "max_height" _)) as [mh|] eqn:E2;
    [|done].
  destruct (as_float (dict_get data "model_width" _)) as [mw|] eqn:E3;
    [|done].
  destruct (as_float (dict_get data "detail_level" _)) as [dl|] eqn:E4;
    [|done].
  destruct (as_bool (dict_get data "smoothing" _)) as [sm|] eqn:E5;
    [|done].
  destruct (as_bool (dict_get data "invert_depth" _)) as [inv|] eqn:E6;
    [|done].
  destruct (as_str (dict_get data "output_style" _)) as [os|] eqn:E7;
    [|done].
  cbn in H. injection H as <-. unfold ConversionConfig.new.
  destruct (ConversionConfig.__post_init__ _) as [e|[]] eqn:Hpost.
  { by eapply __post_init___raises_ValueError. }
  split; [exact Hpost|]. split.
  - intros k v Hk Hv. unfold field_names in Hk.
    rewrite !elem_of_cons in Hk.
    destruct Hk as [->|[->|[->|[->|[->|[->|[->|Hk]]]]]]].
    + by rewrite (as_float_get _ _ _ _ _ E1 Hv).
    + by rewrite (as_float_get _ _ _ _ _ E2 Hv).
    + by rewrite (as_float_get _ _ _ _ _ E3 Hv).
    + by rewrite (as_float_get _ _ _ _ _ E4 Hv).
    + by rewrite (as_bool_get _ _ _ _ _ E5 Hv).
    + by rewrite (as_bool_get _ _ _ _ _ E6 Hv).
    + by rewrite (as_str_get _ _ _ _ _ E7 Hv).
    + by apply elem_of_nil in Hk.
  - intros k Hk.
    destruct (decide (k ∈ field_names)) as [Hin|Hout].
    2:{ by rewrite !to_dict_lookup_other. }
    unfold field_names in Hin. rewrite !elem_of_cons in Hin.
    destruct Hin as [->|[->|[->|[->|[->|[->|[->|Hin]]]]]]];
      [..|by apply elem_of_nil in Hin].
    + rewrite get_missing in E1 by done. cbn in E1.
      simplify_eq. reflexivity.
    + rewrite get_missing in E2 by done. cbn in E2.
      simplify_eq. reflexivity.
    + rewrite get_missing in E3 by done. cbn in E3.
      simplify_eq. reflexivity.
    + rewrite get_missing in E4 by done. cbn in E4.
      simplify_eq. reflexivity.
    + rewrite get_missing in E5 by done. cbn in E5.
      simplify_eq. reflexivity.
    + rewrite get_missing in E6 by done. cbn in E6.
      simplify_eq. reflexivity.
    + rewrite get_missing in E7 by done. cbn in E7.
      simplify_eq. reflexivity.
Qed.

(** X13.  On a typed dict -- one that holds a float under each of the
    four dimensions it has, a bool under [smoothing] and
    [invert_depth], a string under [output_style] -- [from_dict] goes
    through the constructor, so it validates: either it returns a
    valid configuration, which holds every entry the dict had under a
    field name and the default where the dict had none, or it raises
    the [ValueError] of [__post_init__]. *)
Theorem from_dict_validates (data : gmap string pyobj) :
  typed data = true →
  ∃ r, from_dict data = Some r
    ∧ match r with
      | Returned cfg =>
          config_valid cfg
          ∧ (∀ k v, k ∈ field_names → data !! k = Some v →
               to_dict cfg !! k = Some v)
          ∧ (∀ k, data !! k = None →
               to_dict cfg !! k = to_dict ConversionConfig.default !! k)
      | Raised e => exn_cls e = ValueError
      end.
Proof.
  intros [r Hr]%from_dict_typed. exists r. split; [exact Hr|].
  by apply from_dict_checked.
Qed.

End config_dict.

Module Sample6.
(** A dict that sets two fields and carries a key that is no field. *)
Definition partial : gmap string pyobj :=
  {[ "max_height"%string := PyFloat 20;
     "invert_depth"%string := PyBool true;
     "comment"%string := PyStr "draft" ]}.
End Sample6.

Lemma from_dict_validates_witness :
  ∃ r, ConfigDict.from_dict Sample6.partial = Some r
    ∧ match r with
      | Returned cfg =>
          config_valid cfg
          ∧ (∀ k v, k ∈ ConfigDict.field_names →
               Sample6.partial !! k = Some v →
               ConfigDict.to_dict cfg !! k = Some v)
          ∧ (∀ k, Sample6.partial !! k = None →
               ConfigDict.to_dict cfg !! k
               = ConfigDict.to_dict ConversionConfig.default !! k)
      | Raised e => exn_cls e = ValueError
      end.
Proof.
  apply (from_dict_validates Sample6.partial).
  vm_compute. reflexivity.
Defined.

Example from_dict_of_partial :
  ConfigDict.from_dict Sample6.partial
  = Some (Returned (ConversionConfig.Build 2 20 100 1 true true "relief")).
Proof. reflexivity. Qed.

(** A dict with a string for a dimension, or for a switch, is not
    typed. *)
Example untyped_dicts :
  ConfigDict.typed {[ "base_thickness"%string := PyStr "thick" ]} = false
  ∧ ConfigDict.typed {[ "smoothing"%string := PyStr "yes" ]} = false
  ∧ ConfigDict.from_dict {[ "base_thickness"%string := PyStr "thick" ]}
    = None.
Proof. split_and!; vm_compute; reflexivity. Qed.

Example from_dict_rejects_detail_level :
  ConfigDict.from_dict {[ "detail_level"%string := PyFloat (5 # 2) ]}
  = Some (Raised (Exn ValueError "detail_level must be between 0.5 and 2.0")).
Proof. reflexivity. Qed.

(* ================================================================== *)
(** * [pipeline/depth_estimator.py]: validation of the input image *)
(* ================================================================== *)

Module DepthEstimator.

(** [image.shape[2]] of an array with at least three dimensions. *)
Definition shape_at (a : ndarray) (i : nat) : nat := nth i (shape a) 0%nat.

Definition _validate_image (image : pyval) : M unit :=
  match image with
  | PyList _ => raise ValueError "Image must be a numpy array"
  | PyNdarray l =>
      a ← load l;
      if negb (ndim a =? 3)%nat then
        raise ValueError
          ("Image must be 3D array (H, W, C), got " +:+ pretty (ndim a) +:+ "D")
      else if negb (shape_at a 2 =? 3)%nat then
        raise ValueError
          ("Image must have 3 channels (RGB), got " +:+ pretty (shape_at a 2))
      else mret ()
  end.

End DepthEstimator.

(** X14.  [DepthEstimator._validate_image] accepts an array exactly
    when its shape is [(H, W, 3)] for some [H] and [W] -- zero
    included: an image without pixels passes -- and otherwise raises
    the built-in [ValueError], which is not one of the package's
    errors; an object that is not an array is rejected likewise.  The
    check reads the shape only: the store is left as it was. *)
Theorem estimator_validate_image (h : heap) (l : loc) (a : ndarray) :
  h !! l = Some a →
  (run (DepthEstimator._validate_image (PyNdarray l)) h = (Returned (), h)
   ↔ ∃ H W, shape a = [H; W; 3%nat])
  ∧ (∀ r h', run (DepthEstimator._validate_image (PyNdarray l)) h = (r, h') →
       h' = h
       ∧ ∀ e, r = Raised e →
           exn_cls e = ValueError ∧ is_ImageToScadError (exn_cls e) = false)
  ∧ (∀ rows (h0 : heap),
       run (DepthEstimator._validate_image (PyList rows)) h0
       = (Raised (Exn ValueError "Image must be a numpy array"), h0)).
Proof.
  intros Hl. unfold DepthEstimator._validate_image.
  rewrite run_bind, (run_load h l a Hl).
  unfold ndim, DepthEstimator.shape_at.
  destruct (shape a) as [|H [|W [|C [|? ?]]]] eqn:Hs; cbn.
  1,2,3,5: split_and!;
    [split; [done|by intros (? & ? & ?)]
    |by intros r h' [= <- <-]; split; [|intros e [= <-]]
    |done].
  destruct (Nat.eqb_spec C 3) as [->|HC]; cbn.
  - split_and!; [split; [by eexists _, _|done]| |done].
    intros r h' [= <- <-]. split; [done|]. by intros e.
  - split_and!; [split; [done|]| |done].
    + intros (? & ? & [= _ _ ?]). done.
    + intros r h' [= <- <-]. split; [done|]. by intros e [= <-].
Qed.

Module Sample7.
(** A 2x2 RGB image, and an image without rows. *)
Definition rgb22 : ndarray :=
  NDArray uint8 [2; 2; 3]%nat [1; 2; 3; 4; 5; 6; 7; 8; 9; 10; 11; 12].
Definition rgb00 : ndarray := NDArray uint8 [0; 5; 3]%nat [].
End Sample7.

Lemma estimator_validate_image_witness :
  (run (DepthEstimator._validate_image (PyNdarray 0)) [Sample7.rgb00]
   = (Returned (), [Sample7.rgb00])
   ↔ ∃ H W, shape Sample7.rgb00 = [H; W; 3%nat])
  ∧ (∀ r h', run (DepthEstimator._validate_image (PyNdarray 0)) [Sample7.rgb00]
             = (r, h') →
       h' = [Sample7.rgb00]
       ∧ ∀ e, r = Raised e →
           exn_cls e = ValueError ∧ is_ImageToScadError (exn_cls e) = false)
  ∧ (∀ rows (h0 : heap),
       run (DepthEstimator._validate_image (PyList rows)) h0
       = (Raised (Exn ValueError "Image must be a numpy array"), h0)).
Proof.
  apply (estimator_validate_image [Sample7.rgb00] 0%nat Sample7.rgb00).
  reflexivity.
Defined.

Example estimator_rejects_grey_image :
  run (DepthEstimator._validate_image (PyNdarray 0)) [Sample.ramp23]
  = (Raised (Exn ValueError "Image must be 3D array (H, W, C), got 2D"),
     [Sample.ramp23]).
Proof. reflexivity. Qed.

(* ================================================================== *)
(** * The rest of the package: exceptions of any class

    The modules around the core raise and catch more classes than the
    analyzer does: [FileNotFoundError], [KeyboardInterrupt], the errors
    of a subprocess.  [Exc.cls] lists Python's built-in classes that
    occur, the classes of [exceptions.py], and -- for what a library
    may raise -- any other class by its name and base. *)
(* ================================================================== *)

Module Exc.

Inductive cls : Set :=
  | BaseException
  | KeyboardInterrupt
  | SystemExit
  | Exception
  | AttributeError
  | ImportError
  | OSError
  | FileExistsError
  | FileNotFoundError
  | IsADirectoryError
  | NotADirectoryError
  | RuntimeError
  | SystemError
  | TypeError
  | ValueError
  | ZeroDivisionError
  | SubprocessError
  | TimeoutExpired
  (* exceptions.py *)
  | ImageToScadError
  | ImageLoadError
  | DepthEstimationError
  | DepthAnalysisError
  | OpenSCADGenerationError
  | STLExportError
  | ConfigurationError
  (* a class defined elsewhere: [class name(base)] *)
  | Other (name : string) (base : cls).

#[global] Instance cls_eq_dec : EqDecision cls.
Proof. solve_decision. Defined.

(** The proper ancestors of a built-in class, nearest first
    ([ArithmeticError], between [ZeroDivisionError] and [Exception],
    is not listed: nothing in the package names it). *)
Definition bases (c : cls) : list cls :=
  match c with
  | BaseException => []
  | KeyboardInterrupt | SystemExit | Exception => [BaseException]
  | FileExistsError | FileNotFoundError | IsADirectoryError
  | NotADirectoryError => [OSError; Exception; BaseException]
  | TimeoutExpired => [SubprocessError; Exception; BaseException]
  | ImageLoadError | DepthEstimationError | DepthAnalysisError
  | OpenSCADGenerationError | STLExportError | ConfigurationError =>
      [ImageToScadError; Exception; BaseException]
  | Other _ _ => []
  | _ => [Exception; BaseException]
  end.

(** The class and all its ancestors. *)
Fixpoint mro (c : cls) : list cls :=
  c :: match c with
       | Other _ base => mro base
       | _ => bases c
       end.

(** [issubclass(c, d)] *)
Definition issubclass (c d : cls) : bool := bool_decide (d ∈ mro c).

(** An exception object: its class and its message. *)
Record t : Set := Build { class_of : cls; message : string }.

End Exc.

(** The classes of the analyzer's exceptions, in this hierarchy. *)
Definition exc_of_class (c : exn_class) : Exc.cls :=
  match c with
  | ValueError => Exc.ValueError
  | AttributeError => Exc.AttributeError
  | ZeroDivisionError => Exc.ZeroDivisionError
  | SystemError => Exc.SystemError
  | ImageToScadError => Exc.ImageToScadError
  | ImageLoadError => Exc.ImageLoadError
  | DepthEstimationError => Exc.DepthEstimationError
  | DepthAnalysisError => Exc.DepthAnalysisError
  | OpenSCADGenerationError => Exc.OpenSCADGenerationError
  | STLExportError => Exc.STLExportError
  | ConfigurationError => Exc.ConfigurationError
  end.

Definition exc_of_exn (e : exn) : Exc.t :=
  Exc.Build (exc_of_class (exn_cls e)) (exn_msg e).

(** The outcome of a call: an exception thrown or a value given. *)
Inductive outcome (A : Type) : Type :=
  | Throws (e : Exc.t)
  | Gives (v : A).
Arguments Throws {A} e.
Arguments Gives {A} v.

Definition of_result {A} (r : result A) : outcome A :=
  match r with
  | Raised e => Throws (exc_of_exn e)
  | Returned v => Gives v
  end.

(** The two hierarchies agree on the package's errors. *)
Lemma issubclass_ImageToScadError c :
  Exc.issubclass (exc_of_class c) Exc.ImageToScadError = is_ImageToScadError c.
Proof. by destruct c. Qed.

(* ================================================================== *)
(** * Paths ([pathlib], POSIX flavour)

    A path object holds a root and its components; [suffix], [stem],
    [with_suffix], [parent] and [/] are those of CPython's [PurePath]
    (3.8 to 3.13).  Only what the package calls is modelled. *)
(* ================================================================== *)

(** A Python [str] as its characters, and back. *)
Definition chars (s : string) : list Ascii.ascii := String.list_ascii_of_string s.
Definition text (l : list Ascii.ascii) : string := String.string_of_list_ascii l.

Lemma text_chars s : text (chars s) = s.
Proof. apply String.string_of_list_ascii_of_string. Qed.

Lemma chars_text l : chars (text l) = l.
Proof. apply String.list_ascii_of_string_of_list_ascii. Qed.

Lemma chars_app s1 s2 : chars (s1 +:+ s2) = chars s1 ++ chars s2.
Proof.
  induction s1 as [|c s1 IH]; [done|].
  change (c :: chars (s1 +:+ s2) = c :: (chars s1 ++ chars s2)).
  by rewrite IH.
Qed.

Lemma chars_inj s1 s2 : chars s1 = chars s2 → s1 = s2.
Proof. intros H. by rewrite <- (text_chars s1), H, text_chars. Qed.

(** The two characters paths are about. *)
Definition dot : Ascii.ascii :=
  Ascii.Ascii false true true true false true false false.
Definition slash : Ascii.ascii :=
  Ascii.Ascii true true true true false true false false.

Example dot_and_slash : chars "./" = [dot; slash].
Proof. reflexivity. Qed.

(** [s.rfind(c)]: the index of the last occurrence. *)
Fixpoint rfind (c : Ascii.ascii) (s : list Ascii.ascii) : option nat :=
  match s with
  | [] => None
  | x :: s' =>
      match rfind c s' with
      | Some i => Some (S i)
      | None => if decide (x = c) then Some 0%nat else None
      end
  end.

(** [s.lower()], on ASCII letters. *)
Definition lower_char (c : Ascii.ascii) : Ascii.ascii :=
  let n := Ascii.nat_of_ascii c in
  if (65 <=? n)%nat && (n <=? 90)%nat then Ascii.ascii_of_nat (n + 32) else c.

Definition lower (s : string) : string := text (lower_char <$> chars s).

Module PurePath.

Record t : Set := Build {
  root : string;          (* "", "/" or "//" *)
  parts : list string     (* the components after the root *)
}.

#[global] Instance eq_dec : EqDecision t.
Proof. solve_decision. Defined.

(** [p.name]: the final component, if any. *)
Definition name (p : t) : string := default ""%string (last (parts p)).

(** Where the suffix starts in a name: the last dot, unless it is the
    first or the last character. *)
Definition suffix_start (nm : list Ascii.ascii) : option nat :=
  match rfind dot nm with
  | Some i => if bool_decide (0 < i < length nm - 1)%nat then Some i else None
  | None => None
  end.

(** [p.suffix] and [p.stem] *)
Definition suffix (p : t) : string :=
  match suffix_start (chars (name p)) with
  | Some i => text (drop i (chars (name p)))
  | None => ""
  end.

Definition stem (p : t) : string :=
  match suffix_start (chars (name p)) with
  | Some i => text (take i (chars (name p)))
  | None => name p
  end.

(** [p.parent]; a path without components is its own parent. *)
Definition parent (p : t) : t :=
  Build (root p) (take (length (parts p) - 1) (parts p)).

(** [p.with_name(name)] for a path that has a name. *)
Definition replace_name (p : t) (nm : string) : t :=
  Build (root p) (take (length (parts p) - 1) (parts p) ++ [nm]).

(** [p.with_suffix(suffix)] *)
Definition with_suffix (p : t) (sfx : string) : outcome t :=
  if bool_decide (slash ∈ chars sfx) then
    Throws (Exc.Build Exc.ValueError ("Invalid suffix " +:+ sfx))
  else if (negb (String.eqb sfx "") && negb (String.prefix "." sfx))
          || String.eqb sfx "." then
    Throws (Exc.Build Exc.ValueError ("Invalid suffix " +:+ sfx))
  else if String.eqb (name p) "" then
    Throws (Exc.Build Exc.ValueError "path has an empty name")
  else
    let old_suffix := suffix p in
    let nm :=
      if String.eqb old_suffix "" then name p +:+ sfx
      else text (take (length (chars (name p)) - length (chars old_suffix))
                      (chars (name p))) +:+ sfx in
    Gives (replace_name p nm).

(** Splitting at the separator. *)
Fixpoint split_on (c : Ascii.ascii) (s : list Ascii.ascii) : list (list Ascii.ascii) :=
  match s with
  | [] => [[]]
  | x :: s' =>
      if decide (x = c) then [] :: split_on c s'
      else match split_on c s' with
           | h :: t => (x :: h) :: t
           | [] => [[x]]
           end
  end.

Fixpoint leading (c : Ascii.ascii) (s : list Ascii.ascii) : nat :=
  match s with
  | x :: s' => if decide (x = c) then S (leading c s') else 0
  | [] => 0
  end.

(** [PurePosixPath(s)]: empty components and [.] are dropped; exactly
    two leading slashes are kept as a root of their own. *)
Definition parse (s : string) : t :=
  let n := leading slash (chars s) in
  Build (if (n =? 0)%nat then "" else if (n =? 2)%nat then "//" else "/")
        (filter (λ part, part ≠ ""%string ∧ part ≠ "."%string)
                (text <$> split_on slash (chars s))).

(** [p / q]: a rooted [q] replaces [p]. *)
Definition joinpath (p q : t) : t :=
  if String.eqb (root q) "" then Build (root p) (parts p ++ parts q) else q.

(** [str(p)] *)
Definition render (p : t) : string :=
  match parts p with
  | [] => if String.eqb (root p) "" then "." else root p
  | x :: xs => root p +:+ foldl (λ acc part, acc +:+ "/" +:+ part) x xs
  end.

End PurePath.

Example parse_relative :
  PurePath.parse "out/./model.tar.gz"
  = PurePath.Build "" ["out"; "model.tar.gz"]%string.
Proof. reflexivity. Qed.

Example suffix_of_archive :
  let p := PurePath.parse "/tmp//model.tar.gz" in
  (PurePath.name p, PurePath.suffix p, PurePath.stem p,
   PurePath.with_suffix p ".scad", PurePath.render (PurePath.parent p))
  = ("model.tar.gz", ".gz", "model.tar",
     Gives (PurePath.Build "/" ["tmp"; "model.tar.scad"]), "/tmp")%string.
Proof. reflexivity. Qed.

Example suffix_of_hidden_file :
  (PurePath.suffix (PurePath.parse ".bashrc"),
   PurePath.suffix (PurePath.parse "notes."),
   PurePath.suffix (PurePath.parse ".."),
   PurePath.with_suffix (PurePath.parse ".bashrc") ".scad")
  = ("", "", "", Gives (PurePath.Build "" [".bashrc.scad"]))%string.
Proof. reflexivity. Qed.

(* ------------------------------------------------------------------ *)
(** ** Facts about suffixes *)

Lemma rfind_None c s : rfind c s = None ↔ c ∉ s.
Proof.
  induction s as [|x s IH]; cbn.
  - split; [intros _; apply not_elem_of_nil|done].
  - rewrite not_elem_of_cons. destruct (rfind c s) as [i|].
    + split; [done|]. intros [_ H]. by apply IH in H.
    + destruct (decide (x = c)) as [->|Hne].
      * split; [done|]. by intros [? _].
      * split; [|done]. intros _. split; [done|]. by apply IH.
Qed.

Lemma rfind_app_last c (l r : list Ascii.ascii) :
  c ∉ r → rfind c (l ++ c :: r) = Some (length l).
Proof.
  intros Hr. induction l as [|x l IH]; cbn.
  - apply rfind_None in Hr. rewrite Hr. by rewrite decide_True.
  - by rewrite IH.
Qed.

Lemma rfind_lt c s i : rfind c s = Some i → (i < length s)%nat.
Proof.
  revert i. induction s as [|x s IH]; intros i; cbn; [done|].
  destruct (rfind c s) as [j|].
  - intros [= <-]. specialize (IH j eq_refl). lia.
  - destruct (decide (x = c)); [|done]. intros [= <-]. lia.
Qed.

Lemma suffix_start_lt nm i :
  PurePath.suffix_start nm = Some i → (0 < i < length nm - 1)%nat.
Proof.
  unfold PurePath.suffix_start.
  destruct (rfind dot nm) as [j|]; [|done].
  case_bool_decide; [|done]. by intros [= <-].
Qed.

(** A name that ends in a dot-free extension after a non-empty base
    has that extension as its suffix. *)
Lemma suffix_start_app (base ext : list Ascii.ascii) :
  base ≠ [] → ext ≠ [] → dot ∉ ext →
  PurePath.suffix_start (base ++ dot :: ext) = Some (length base).
Proof.
  intros Hb He Hd. unfold PurePath.suffix_start.
  rewrite rfind_app_last by done.
  rewrite bool_decide_eq_true_2; [done|].
  rewrite length_app. cbn.
  destruct base; [done|]. destruct ext; [done|]. cbn. lia.
Qed.

Lemma eqb_empty s : String.eqb s "" = true ↔ s = ""%string.
Proof. apply String.eqb_eq. Qed.

Lemma text_nil_iff l : text l = ""%string ↔ l = [].
Proof.
  split; [|by intros ->].
  intros H. apply (f_equal chars) in H. by rewrite chars_text in H.
Qed.

Lemma chars_nil_iff s : chars s = [] ↔ s = ""%string.
Proof.
  split; [|by intros ->].
  intros H. apply (f_equal text) in H. by rewrite text_chars in H.
Qed.

Section with_suffix.
Variables (p : PurePath.t) (ext : list Ascii.ascii).
Hypothesis Hext : ext ≠ [].
Hypothesis Hdot : dot ∉ ext.
Hypothesis Hslash : slash ∉ ext.

Let sfx : string := text (dot :: ext).

Lemma name_nonempty_parts : PurePath.name p ≠ ""%string → PurePath.parts p ≠ [].
Proof. unfold PurePath.name. by destruct (PurePath.parts p). Qed.

Lemma name_replace_name nm :
  PurePath.name (PurePath.replace_name p nm) = nm.
Proof. unfold PurePath.name, PurePath.replace_name. cbn. by rewrite last_snoc. Qed.

Lemma parent_replace_name nm :
  PurePath.parts p ≠ [] →
  PurePath.parent (PurePath.replace_name p nm) = PurePath.parent p.
Proof.
  intros Hp. unfold PurePath.parent, PurePath.replace_name. cbn. f_equal.
  rewrite length_app, length_take. cbn.
  assert (0 < length (PurePath.parts p))%nat
    by (destruct (PurePath.parts p); [done|cbn; lia]).
  rewrite take_app_le by (rewrite length_take; lia).
  rewrite take_take. f_equal. lia.
Qed.

(** The characters of the stem are never empty when the name is
    not. *)
Lemma stem_nonempty :
  PurePath.name p ≠ ""%string → chars (PurePath.stem p) ≠ [].
Proof.
  intros Hn. unfold PurePath.stem.
  destruct (PurePath.suffix_start _) as [i|] eqn:E.
  - apply suffix_start_lt in E. rewrite chars_text.
    intros H. apply (f_equal length) in H. rewrite length_take in H.
    cbn in H. lia.
  - by rewrite chars_nil_iff.
Qed.

Lemma with_suffix_gives :
  PurePath.name p ≠ ""%string →
  PurePath.with_suffix p sfx
  = Gives (PurePath.replace_name p (PurePath.stem p +:+ sfx)).
Proof.
  intros Hn. unfold PurePath.with_suffix.
  rewrite bool_decide_eq_false_2.
  2:{ unfold sfx. rewrite chars_text, elem_of_cons. intros [H|H]; done. }
  assert (String.eqb sfx "" = false) as ->.
  { apply String.eqb_neq. unfold sfx. by rewrite text_nil_iff. }
  assert (String.prefix "." sfx = true) as ->
    by (unfold sfx; by destruct ext).
  assert (String.eqb sfx "." = false) as ->.
  { apply String.eqb_neq. unfold sfx. intros H.
    apply (f_equal chars) in H. rewrite chars_text in H.
    injection H as H. done. }
  cbn [negb andb orb].
  assert (String.eqb (PurePath.name p) "" = false) as ->
    by by apply String.eqb_neq.
  do 2 f_equal. unfold PurePath.suffix, PurePath.stem.
  destruct (PurePath.suffix_start _) as [i|] eqn:E; [|done].
  apply suffix_start_lt in E as Hi.
  assert (String.eqb (text (drop i (chars (PurePath.name p)))) "" = false)
    as ->.
  { apply String.eqb_neq. rewrite text_nil_iff. intros H.
    apply (f_equal length) in H. rewrite length_drop in H. cbn in H. lia. }
  rewrite chars_text, length_drop. do 3 f_equal. lia.
Qed.

Lemma with_suffix_throws :
  PurePath.name p = ""%string →
  ∃ msg, PurePath.with_suffix p sfx
         = Throws (Exc.Build Exc.ValueError msg).
Proof.
  intros Hn. unfold PurePath.with_suffix.
  rewrite bool_decide_eq_false_2.
  2:{ unfold sfx. rewrite chars_text, elem_of_cons. intros [H|H]; done. }
  assert (String.eqb sfx "" = false) as ->.
  { apply String.eqb_neq. unfold sfx. by rewrite text_nil_iff. }
  assert (String.prefix "." sfx = true) as ->
    by (unfold sfx; by destruct ext).
  assert (String.eqb sfx "." = false) as ->.
  { apply String.eqb_neq. unfold sfx. intros H.
    apply (f_equal chars) in H. rewrite chars_text in H.
    injection H as H. done. }
  cbn [negb andb orb]. rewrite Hn. cbn. by eexists.
Qed.

Lemma suffix_replace_name :
  PurePath.name p ≠ ""%string →
  PurePath.suffix (PurePath.replace_name p (PurePath.stem p +:+ sfx)) = sfx.
Proof.
  intros Hn. unfold PurePath.suffix. rewrite name_replace_name.
  unfold sfx. rewrite chars_app, chars_text.
  rewrite suffix_start_app by (try done; by apply stem_nonempty).
  by rewrite drop_app_length.
Qed.

Lemma stem_replace_name :
  PurePath.name p ≠ ""%string →
  PurePath.stem (PurePath.replace_name p (PurePath.stem p +:+ sfx))
  = PurePath.stem p.
Proof.
  intros Hn. unfold PurePath.stem at 1. rewrite name_replace_name.
  unfold sfx. rewrite chars_app, chars_text.
  rewrite suffix_start_app by (try done; by apply stem_nonempty).
  by rewrite take_app_length, text_chars.
Qed.

End with_suffix.

(* ================================================================== *)
(** * Files, and the world the package acts on

    A file system maps a path, as written, to what is there: a file
    with its text or a directory.  The working directory, [..] and
    links are outside the model; a path without components (the root,
    or [.]) is always a directory. *)
(* ================================================================== *)

Inductive node : Set :=
  | File (content : string)
  | Directory.

Abbreviation filesystem := (PurePath.t → option node) (only parsing).

Definition node_at (fs : filesystem) (p : PurePath.t) : option node :=
  match PurePath.parts p with
  | [] => Some Directory
  | _ => fs p
  end.

Definition fs_insert (fs : filesystem) (p : PurePath.t) (n : node)
    : filesystem :=
  λ q, if decide (q = p) then Some n else fs q.

(** [p.exists()], [p.is_file()], [p.is_dir()] *)
Definition path_exists (fs : filesystem) (p : PurePath.t) : bool :=
  match node_at fs p with Some _ => true | None => false end.
Definition path_is_file (fs : filesystem) (p : PurePath.t) : bool :=
  match node_at fs p with Some (File _) => true | _ => false end.
Definition path_is_dir (fs : filesystem) (p : PurePath.t) : bool :=
  match node_at fs p with Some Directory => true | _ => false end.

(** What leaves the program, in the order it happens. *)
Inductive event : Type :=
  | Progress (stage : string) (fraction : Q)  (* the progress callback *)
  | Stderr (line : string)                    (* print(..., file=sys.stderr) *)
  | ModelLoaded (device : string)             (* the model is fetched *)
  | Inference                                 (* the model is run *)
  | Subprocess (cmd : list string).           (* a program is started *)

Record world : Type := World {
  arrays : heap;
  files : PurePath.t → option node;
  events : list event
}.

(** The state-and-exception monad: over the world ([IO]), or over the
    world and the attributes of an object whose methods are run. *)
Definition ST (S A : Type) : Type := S → outcome A * S.

Abbreviation IO := (ST world) (only parsing).

Definition exec {S A} (m : ST S A) (s : S) : outcome A * S := m s.

#[global] Instance ST_ret {S} : MRet (ST S) := λ A v s, (Gives v, s).
#[global] Instance ST_bind {S} : MBind (ST S) := λ A B f m s,
  match m s with
  | (Throws e, s') => (Throws e, s')
  | (Gives v, s') => f v s'
  end.

Definition throw {S A} (c : Exc.cls) (msg : string) : ST S A :=
  λ s, (Throws (Exc.Build c msg), s).

(** [raise e] for an exception object at hand. *)
Definition rethrow {S A} (e : Exc.t) : ST S A := λ s, (Throws e, s).

Definition of_outcome {S A} (o : outcome A) : ST S A := λ s, (o, s).

(** [try: body except c as e: handler(e)]: the handler runs when the
    body throws an instance of [c]; what the body did up to there
    stays done. *)
Definition try_except {S A} (body : ST S A) (c : Exc.cls)
    (handler : Exc.t → ST S A) : ST S A :=
  λ s, match body s with
       | (Throws e, s') =>
           if Exc.issubclass (Exc.class_of e) c then handler e s'
           else (Throws e, s')
       | ok => ok
       end.

(** A method reads and writes the attributes of [self] ... *)
Definition get_self {O W} : ST (O * W) O := λ s, (Gives s.1, s).
Definition set_self {O W} (o : O) : ST (O * W) unit :=
  λ s, (Gives (), (o, s.2)).

(** ... and acts on the world. *)
Definition in_world {O W A} (m : ST W A) : ST (O * W) A :=
  λ s, let '(r, w) := m s.2 in (r, (s.1, w)).

(** A call of a method of another object [o]: the object it leaves
    is handed back with the result, also when the method throws. *)
Definition call {O W A} (o : O) (m : ST (O * W) A)
    : ST W (outcome A * O) :=
  λ w, let '(r, (o', w')) := m (o, w) in (Gives (r, o'), w').

(** A method of the analyzer, run on the arrays of the world. *)
Definition lift_M {A} (m : M A) : IO A :=
  λ w, let '(r, h) := run m (arrays w) in
       (of_result r, World h (files w) (events w)).

Definition emit (e : event) : IO unit :=
  λ w, (Gives (), World (arrays w) (files w) (events w ++ [e])).

Definition get_files : IO (PurePath.t → option node) :=
  λ w, (Gives (files w), w).

Definition set_files (fs : filesystem) : IO unit :=
  λ w, (Gives (), World (arrays w) fs (events w)).

(** ** [Path.mkdir(parents=True, exist_ok=True)] and [Path.write_text] *)

(** The path and its ancestors that have a component, shortest
    first. *)
Definition lineage (p : PurePath.t) : list PurePath.t :=
  (λ k, PurePath.Build (PurePath.root p) (take k (PurePath.parts p)))
    <$> seq 1 (length (PurePath.parts p)).

(** One step of [mkdir -p]: a directory that is there is left alone,
    one that is missing is made, a file in the way is an error
    ([FileExistsError] for the path itself, [NotADirectoryError] for an
    ancestor). *)
Definition mkdir_step (p : PurePath.t)
    (acc : outcome unit * (PurePath.t → option node)) (q : PurePath.t)
    : outcome unit * (PurePath.t → option node) :=
  match acc with
  | (Throws e, fs) => (Throws e, fs)
  | (Gives _, fs) =>
      match fs q with
      | Some Directory => (Gives (), fs)
      | Some (File _) =>
          (Throws (Exc.Build (if decide (q = p) then Exc.FileExistsError
                              else Exc.NotADirectoryError)
                     (PurePath.render q)), fs)
      | None => (Gives (), fs_insert fs q Directory)
      end
  end.

Definition mkdir_parents (fs : filesystem) (p : PurePath.t)
    : outcome unit * (PurePath.t → option node) :=
  foldl (mkdir_step p) (Gives (), fs) (lineage p).

Definition Path_mkdir (p : PurePath.t) : IO unit :=
  λ w, let '(r, fs) := mkdir_parents (files w) p in
       (r, World (arrays w) fs (events w)).

(** [p.write_text(text)]: the directory must be there, and [p] must
    not be a directory. *)
Definition Path_write_text (p : PurePath.t) (data : string) : IO unit :=
  fs ← get_files;
  match node_at fs p with
  | Some Directory =>
      throw Exc.IsADirectoryError (PurePath.render p)
  | _ =>
      match node_at fs (PurePath.parent p) with
      | Some Directory => set_files (fs_insert fs p (File data))
      | Some (File _) => throw Exc.NotADirectoryError (PurePath.render p)
      | None => throw Exc.FileNotFoundError (PurePath.render p)
      end
  end.

Definition Path_exists (p : PurePath.t) : IO bool :=
  fs ← get_files; mret (path_exists fs p).
Definition Path_is_file (p : PurePath.t) : IO bool :=
  fs ← get_files; mret (path_is_file fs p).
Definition Path_is_dir (p : PurePath.t) : IO bool :=
  fs ← get_files; mret (path_is_dir fs p).

(* ================================================================== *)
(** * [utils/file_utils.py] *)
(* ================================================================== *)

Module file_utils.

Definition ensure_directory (path : PurePath.t) : IO PurePath.t :=
  _ ← Path_mkdir path;
  mret path.

Definition save_scad (code : string) (path : PurePath.t) : IO PurePath.t :=
  (* Ensure parent directory exists; a path object is always true *)
  _ ← ensure_directory (PurePath.parent path);
  (* Ensure .scad extension *)
  path ← (if negb (String.eqb (lower (PurePath.suffix path)) ".scad")
          then of_outcome (PurePath.with_suffix path ".scad")
          else mret path);
  _ ← Path_write_text path code;
  mret path.

Definition get_output_path (input_path : PurePath.t)
    (output_dir : option PurePath.t) (suffix : string) : PurePath.t :=
  let output_dir :=
    match output_dir with
    | None => PurePath.parent input_path
    | Some d => d
    end in
  PurePath.joinpath output_dir
    (PurePath.parse (PurePath.stem input_path +:+ suffix)).

Definition validate_output_path (path : PurePath.t) : IO unit :=
  let parent := PurePath.parent path in
  there ← Path_exists parent;
  _ ← (if negb there then
         try_except (Path_mkdir parent) Exc.OSError
           (λ e, throw Exc.ValueError
                   ("Cannot create output directory: " +:+ Exc.message e))
       else mret ());
  (* Check if we can write to the directory *)
  there ← Path_exists parent;
  is_dir ← Path_is_dir parent;
  if there && negb is_dir then
    throw Exc.ValueError
      ("Output path parent is not a directory: " +:+ PurePath.render parent)
  else mret ().

End file_utils.

Module Sample8.
Definition empty_fs : PurePath.t → option node := λ _, None.
Definition w0 : world := World [] empty_fs [].
Definition target : PurePath.t := PurePath.parse "out/models/relief.txt".
End Sample8.

Example save_scad_creates_directories :
  let '(r, w) := exec (file_utils.save_scad "cube(1);" Sample8.target)
                      Sample8.w0 in
  (r,
   files w (PurePath.parse "out"),
   files w (PurePath.parse "out/models"),
   files w (PurePath.parse "out/models/relief.scad"),
   files w (PurePath.parse "out/models/relief.txt"))
  = (Gives (PurePath.parse "out/models/relief.scad"),
     Some Directory, Some Directory, Some (File "cube(1);"), None).
Proof. reflexivity. Qed.

(* ------------------------------------------------------------------ *)
(** ** Running [IO] computations *)

Lemma exec_ret {S A} (v : A) (w : S) : exec (mret v) w = (Gives v, w).
Proof. done. Qed.

Lemma exec_bind {S A B} (m : ST S A) (f : A → ST S B) (w : S) :
  exec (m ≫= f) w =
  match exec m w with
  | (Throws e, w') => (Throws e, w')
  | (Gives v, w') => exec (f v) w'
  end.
Proof. done. Qed.

Lemma exec_bind_gives {S A B} (m : ST S A) (f : A → ST S B) (w : S) v w' :
  exec m w = (Gives v, w') → exec (m ≫= f) w = exec (f v) w'.
Proof. intros H. by rewrite exec_bind, H. Qed.

Lemma exec_bind_throws {S A B} (m : ST S A) (f : A → ST S B) (w : S) e w' :
  exec m w = (Throws e, w') → exec (m ≫= f) w = (Throws e, w').
Proof. intros H. by rewrite exec_bind, H. Qed.

(** ** What [mkdir] does *)

(** The file system only grows, and only by directories. *)
Definition fs_extends (fs fs' : PurePath.t → option node) : Prop :=
  (∀ q n, fs q = Some n → fs' q = Some n)
  ∧ (∀ q, fs q = None → fs' q = None ∨ fs' q = Some Directory).

Lemma fs_extends_refl fs : fs_extends fs fs.
Proof. split; [done|]. intros q Hq. by left. Qed.

Lemma fs_extends_trans fs1 fs2 fs3 :
  fs_extends fs1 fs2 → fs_extends fs2 fs3 → fs_extends fs1 fs3.
Proof.
  intros [H1 H1'] [H2 H2']. split.
  - intros q n Hq. by apply H2, H1.
  - intros q Hq. destruct (H1' q Hq) as [Hn|Hd].
    + by apply H2'.
    + right. by apply H2.
Qed.

Lemma fs_extends_insert_dir fs q :
  fs q = None → fs_extends fs (fs_insert fs q Directory).
Proof.
  intros Hq. split.
  - intros q' n Hq'. unfold fs_insert. case_decide; [congruence|done].
  - intros q' Hq'. unfold fs_insert. case_decide; [by right|by left].
Qed.

Lemma foldl_mkdir_throws p e fs l :
  foldl (mkdir_step p) (Throws e, fs) l = (Throws e, fs).
Proof. induction l as [|q l IH]; [done|]. cbn. exact IH. Qed.

Definition mkdir_error (e : Exc.t) : Prop :=
  Exc.class_of e = Exc.FileExistsError
  ∨ Exc.class_of e = Exc.NotADirectoryError.

Lemma foldl_mkdir p l fs r fs' :
  foldl (mkdir_step p) (Gives (), fs) l = (r, fs') →
  fs_extends fs fs'
  ∧ match r with
    | Gives _ => ∀ q, q ∈ l → fs' q = Some Directory
    | Throws e =>
        mkdir_error e ∧ ∃ q c, q ∈ l ∧ fs q = Some (File c)
    end.
Proof.
  revert fs. induction l as [|q l IH]; intros fs; cbn.
  - intros [= <- <-]. split; [apply fs_extends_refl|].
    intros q Hq. by apply elem_of_nil in Hq.
  - destruct (fs q) as [[c|]|] eqn:Hq.
    + rewrite foldl_mkdir_throws. intros [= <- <-].
      split; [apply fs_extends_refl|]. split.
      * unfold mkdir_error. cbn. case_decide; [by left|by right].
      * exists q, c. split; [left|done].
    + intros H. destruct (IH _ H) as [Hext Hr].
      split; [done|]. destruct r as [e|[]].
      * destruct Hr as (He & q' & c & Hin & Hf).
        split; [done|]. exists q', c. split; [by right|done].
      * intros q' [->|Hin]%elem_of_cons; [|by apply Hr].
        by apply Hext.
    + intros H. destruct (IH _ H) as [Hext Hr].
      pose proof (fs_extends_insert_dir fs q Hq) as Hext0.
      split; [by eapply fs_extends_trans|]. destruct r as [e|[]].
      * destruct Hr as (He & q' & c & Hin & Hf).
        split; [done|]. exists q', c. split; [by right|].
        unfold fs_insert in Hf. case_decide; [done|done].
      * intros q' [->|Hin]%elem_of_cons; [|by apply Hr].
        apply Hext. unfold fs_insert. by rewrite decide_True.
Qed.

Lemma foldl_mkdir_frame p l fs r fs' q :
  foldl (mkdir_step p) (Gives (), fs) l = (r, fs') → q ∉ l → fs' q = fs q.
Proof.
  revert fs. induction l as [|x l IH]; intros fs; cbn.
  - by intros [= <- <-].
  - rewrite not_elem_of_cons. intros H [Hne Hq].
    destruct (fs x) as [[c|]|] eqn:Hx.
    + rewrite foldl_mkdir_throws in H. by injection H as <- <-.
    + by apply IH.
    + rewrite (IH _ H Hq). unfold fs_insert. by rewrite decide_False.
Qed.

Lemma lineage_length p q :
  q ∈ lineage p → (length (PurePath.parts q) ≤ length (PurePath.parts p))%nat.
Proof.
  unfold lineage. intros (k & -> & Hk)%list_elem_of_fmap. cbn.
  rewrite length_take. lia.
Qed.

Lemma mkdir_parents_frame fs p r fs' q :
  mkdir_parents fs p = (r, fs') →
  (length (PurePath.parts p) < length (PurePath.parts q))%nat →
  fs' q = fs q.
Proof.
  intros H Hlen. eapply foldl_mkdir_frame; [exact H|].
  intros Hin%lineage_length. lia.
Qed.

Lemma parent_length p :
  PurePath.parts p ≠ [] →
  (length (PurePath.parts (PurePath.parent p)) < length (PurePath.parts p))%nat.
Proof.
  intros Hp. cbn. rewrite length_take.
  destruct (PurePath.parts p); [done|cbn; lia].
Qed.

Lemma self_in_lineage p :
  PurePath.parts p ≠ [] → p ∈ lineage p.
Proof.
  intros Hp. unfold lineage. apply list_elem_of_fmap.
  exists (length (PurePath.parts p)). split.
  - rewrite take_ge by done. by destruct p.
  - apply elem_of_seq.
    destruct (PurePath.parts p); [done|cbn; lia].
Qed.

Lemma mkdir_parents_gives fs p fs' :
  mkdir_parents fs p = (Gives (), fs') →
  fs_extends fs fs' ∧ node_at fs' p = Some Directory.
Proof.
  intros H. destruct (foldl_mkdir _ _ _ _ _ H) as [Hext Hdirs].
  split; [done|]. unfold node_at.
  destruct (PurePath.parts p) eqn:Hp; [done|].
  apply Hdirs, self_in_lineage. by rewrite Hp.
Qed.

Lemma mkdir_parents_throws fs p e fs' :
  mkdir_parents fs p = (Throws e, fs') →
  fs_extends fs fs' ∧ mkdir_error e
  ∧ ∃ q c, q ∈ lineage p ∧ fs q = Some (File c).
Proof.
  intros H. destruct (foldl_mkdir _ _ _ _ _ H) as [Hext Hr]. done.
Qed.

Lemma mkdir_parents_total fs p :
  (∀ q c, q ∈ lineage p → fs q ≠ Some (File c)) →
  ∃ fs', mkdir_parents fs p = (Gives (), fs').
Proof.
  intros Hfree. destruct (mkdir_parents fs p) as [[e|[]] fs'] eqn:H.
  - apply mkdir_parents_throws in H as (_ & _ & q & c & Hin & Hq).
    by destruct (Hfree q c Hin).
  - by eexists.
Qed.

(* ------------------------------------------------------------------ *)
(** ** [save_scad] *)

Lemma scad_plain :
  chars "scad" ≠ [] ∧ (dot ∉ chars "scad") ∧ (slash ∉ chars "scad").
Proof.
  split; [done|].
  split; apply (bool_decide_unpack _); by vm_compute.
Qed.

Section save_scad_facts.
Import file_utils.

Lemma scad_suffix_has_name p :
  lower (PurePath.suffix p) = ".scad"%string → PurePath.name p ≠ ""%string.
Proof.
  intros H Hn. unfold PurePath.suffix in H. rewrite Hn in H. done.
Qed.

Lemma parent_neq p : PurePath.parts p ≠ [] → PurePath.parent p ≠ p.
Proof.
  intros Hp H. apply (f_equal (length ∘ PurePath.parts)) in H.
  cbn in H. rewrite length_take in H.
  destruct (PurePath.parts p); [done|]. cbn in H. lia.
Qed.

(** The path [save_scad] writes to. *)
Definition scad_target (path : PurePath.t) : outcome PurePath.t :=
  if negb (String.eqb (lower (PurePath.suffix path)) ".scad")
  then PurePath.with_suffix path ".scad"
  else Gives path.

Lemma scad_target_gives path p' :
  scad_target path = Gives p' →
  PurePath.name path ≠ ""%string
  ∧ lower (PurePath.suffix p') = ".scad"%string
  ∧ PurePath.parent p' = PurePath.parent path
  ∧ PurePath.stem p' = PurePath.stem path
  ∧ PurePath.parts p' ≠ [].
Proof.
  unfold scad_target.
  destruct (String.eqb_spec (lower (PurePath.suffix path)) ".scad")
    as [Hs|Hs]; cbn [negb].
  - intros [= <-]. pose proof (scad_suffix_has_name _ Hs) as Hn.
    split_and!; try done. by apply name_nonempty_parts.
  - destruct (decide (PurePath.name path = ""%string)) as [Hn|Hn].
    { destruct scad_plain as (He & Hd & Hsl).
      destruct (with_suffix_throws path (chars "scad") He Hd Hsl Hn)
        as [msg Hm].
      change (text (dot :: chars "scad")) with ".scad"%string in Hm.
      rewrite Hm. done. }
    destruct scad_plain as (He & Hd & Hsl).
    pose proof (with_suffix_gives path (chars "scad") He Hd Hsl Hn) as Hg.
    change (text (dot :: chars "scad")) with ".scad"%string in Hg.
    rewrite Hg. intros [= <-].
    pose proof (suffix_replace_name path (chars "scad") He Hd Hn) as Hsfx.
    pose proof (stem_replace_name path (chars "scad") He Hd Hn) as Hstem.
    change (text (dot :: chars "scad")) with ".scad"%string in Hsfx, Hstem.
    split_and!; [done|by rewrite Hsfx|..|done|].
    + apply parent_replace_name. by apply name_nonempty_parts.
    + cbn. by destruct (take _ _).
Qed.

Lemma scad_target_throws path e :
  scad_target path = Throws e →
  PurePath.name path = ""%string ∧ Exc.class_of e = Exc.ValueError.
Proof.
  unfold scad_target.
  destruct (String.eqb_spec (lower (PurePath.suffix path)) ".scad")
    as [Hs|Hs]; cbn [negb]; [done|].
  destruct (decide (PurePath.name path = ""%string)) as [Hn|Hn].
  - destruct scad_plain as (He & Hd & Hsl).
    destruct (with_suffix_throws path (chars "scad") He Hd Hsl Hn)
      as [msg Hm].
    change (text (dot :: chars "scad")) with ".scad"%string in Hm.
    rewrite Hm. by intros [= <-].
  - destruct scad_plain as (He & Hd & Hsl).
    pose proof (with_suffix_gives path (chars "scad") He Hd Hsl Hn) as Hg.
    change (text (dot :: chars "scad")) with ".scad"%string in Hg.
    by rewrite Hg.
Qed.

Lemma save_scad_unfold code path w :
  exec (save_scad code path) w =
  match mkdir_parents (files w) (PurePath.parent path) with
  | (Throws e, fs) => (Throws e, World (arrays w) fs (events w))
  | (Gives _, fs) =>
      match scad_target path with
      | Throws e => (Throws e, World (arrays w) fs (events w))
      | Gives p' =>
          match exec (Path_write_text p' code)
                     (World (arrays w) fs (events w)) with
          | (Throws e, w') => (Throws e, w')
          | (Gives _, w') => (Gives p', w')
          end
      end
  end.
Proof.
  unfold save_scad, ensure_directory, Path_mkdir, scad_target.
  rewrite !exec_bind. unfold exec at 1 2.
  destruct (mkdir_parents _ _) as [[e|[]] fs]; [done|].
  cbn [mret ST_ret]. rewrite !exec_bind.
  destruct (negb _); cbn.
  - unfold of_outcome. destruct (PurePath.with_suffix _ _); [done|].
    rewrite exec_bind. by destruct (exec _ _) as [[?|[]] ?].
  - rewrite exec_bind. by destruct (exec _ _) as [[?|[]] ?].
Qed.

Lemma write_text_unfold p code w :
  exec (Path_write_text p code) w =
  match node_at (files w) p with
  | Some Directory =>
      (Throws (Exc.Build Exc.IsADirectoryError (PurePath.render p)), w)
  | _ =>
      match node_at (files w) (PurePath.parent p) with
      | Some Directory =>
          (Gives (), World (arrays w) (fs_insert (files w) p (File code))
                           (events w))
      | Some (File _) =>
          (Throws (Exc.Build Exc.NotADirectoryError (PurePath.render p)), w)
      | None =>
          (Throws (Exc.Build Exc.FileNotFoundError (PurePath.render p)), w)
      end
  end.
Proof.
  unfold Path_write_text. rewrite exec_bind. cbn.
  destruct (node_at (files w) p) as [[?|]|];
    destruct (node_at (files w) (PurePath.parent p)) as [[?|]|]; done.
Qed.

End save_scad_facts.

Section save_scad_claims.
Import file_utils.

Lemma save_scad_gives code path w p' w' :
  exec (save_scad code path) w = (Gives p', w') →
  ∃ fs,
    mkdir_parents (files w) (PurePath.parent path) = (Gives (), fs)
    ∧ scad_target path = Gives p'
    ∧ node_at fs p' ≠ Some Directory
    ∧ w' = World (arrays w) (fs_insert fs p' (File code)) (events w).
Proof.
  rewrite save_scad_unfold.
  destruct (mkdir_parents _ _) as [[e|[]] fs] eqn:Hmk; [done|].
  pose proof Hmk as [_ Hdir]%mkdir_parents_gives.
  destruct (scad_target path) as [e|p1] eqn:Ht; [done|].
  pose proof (scad_target_gives _ _ Ht) as (_ & _ & Hpar & _).
  rewrite write_text_unfold. cbn [files arrays events].
  rewrite Hpar, Hdir.
  destruct (node_at fs p1) as [[c|]|] eqn:Hp1; try done.
  all: intros [= <- <-]; exists fs; by rewrite Hp1.
Qed.

(** X15.  What [save_scad] leaves behind when it returns: the path it
    returns ends in [.scad] (in any letter case: a path that already
    does is kept as it is, any other gets its suffix replaced or
    [.scad] added, in the same directory and with the same stem), the
    file at that path holds exactly the code, and its directory exists.
    Nothing else is lost: every file and directory that was there is
    still there unchanged, and what is new besides the file are the
    directories on the way to it. *)
Theorem save_scad_writes_scad_file (code : string) (path p' : PurePath.t)
    (w w' : world) :
  exec (save_scad code path) w = (Gives p', w') →
  lower (PurePath.suffix p') = ".scad"%string
  ∧ files w' p' = Some (File code)
  ∧ (lower (PurePath.suffix path) = ".scad"%string → p' = path)
  ∧ (lower (PurePath.suffix path) ≠ ".scad"%string →
     PurePath.with_suffix path ".scad" = Gives p')
  ∧ PurePath.parent p' = PurePath.parent path
  ∧ PurePath.stem p' = PurePath.stem path
  ∧ path_is_dir (files w') (PurePath.parent p') = true
  ∧ (∀ q n, q ≠ p' → files w q = Some n → files w' q = Some n)
  ∧ (∀ q, q ≠ p' → q ∉ lineage (PurePath.parent path) →
       files w' q = files w q)
  ∧ (∀ q, q ∈ lineage (PurePath.parent path) → files w' q = Some Directory)
  ∧ arrays w' = arrays w ∧ events w' = events w.
Proof.
  intros (fs & Hmk & Ht & Hnd & ->)%save_scad_gives.
  pose proof Hmk as [[Hkeep Hnew] Hdir]%mkdir_parents_gives.
  pose proof (scad_target_gives _ _ Ht) as (Hn & Hsfx & Hpar & Hstem & Hparts).
  cbn [files arrays events].
  assert (∀ q, q ∈ lineage (PurePath.parent path) → q ≠ p') as Hlin.
  { intros q Hq%lineage_length ->. rewrite <- Hpar in Hq.
    pose proof (parent_length p' Hparts). lia. }
  split_and!; [done| | | |done|done| | | | |done|done].
  - unfold fs_insert. by rewrite decide_True.
  - intros Hs%String.eqb_eq. unfold scad_target in Ht.
    rewrite Hs in Ht. by injection Ht.
  - intros Hs%String.eqb_neq. unfold scad_target in Ht.
    by rewrite Hs in Ht.
  - rewrite Hpar. unfold path_is_dir, node_at.
    destruct (PurePath.parts (PurePath.parent path)) eqn:Hpp; [done|].
    unfold fs_insert. rewrite decide_False.
    + unfold node_at in Hdir. rewrite Hpp in Hdir. by rewrite Hdir.
    + rewrite <- Hpar. by apply parent_neq.
  - intros q n Hq Hf. unfold fs_insert. rewrite decide_False by done.
    by apply Hkeep.
  - intros q Hq Hl. unfold fs_insert. rewrite decide_False by done.
    by eapply foldl_mkdir_frame.
  - intros q Hq. unfold fs_insert. rewrite decide_False by by apply Hlin.
    destruct (foldl_mkdir _ _ _ _ _ Hmk) as [_ Hdirs]. by apply Hdirs.
Qed.

(** X16.  When [save_scad] succeeds and how it fails.  It returns
    whenever the path has a name, no file stands where a directory of
    the path is needed, and the target is not itself a directory: a
    missing directory is no obstacle, it is made.  It raises nothing
    but [ValueError] (a path without a name, found only after the
    directories were made), [FileExistsError] or [NotADirectoryError]
    (a file in the way) and [IsADirectoryError] (a directory at the
    target); no file or directory is removed or changed by a failing
    call, and nothing is written. *)
Theorem save_scad_outcome (code : string) (path : PurePath.t) (w : world) :
  (PurePath.name path ≠ ""%string →
   (∀ q c, q ∈ lineage (PurePath.parent path) → files w q ≠ Some (File c)) →
   (∀ p', scad_target path = Gives p' → files w p' ≠ Some Directory) →
   ∃ p' w', exec (save_scad code path) w = (Gives p', w'))
  ∧ (∀ e w', exec (save_scad code path) w = (Throws e, w') →
       (Exc.class_of e = Exc.ValueError ∧ PurePath.name path = ""%string
        ∨ Exc.class_of e = Exc.FileExistsError
        ∨ Exc.class_of e = Exc.NotADirectoryError
        ∨ Exc.class_of e = Exc.IsADirectoryError)
       ∧ (∀ q n, files w q = Some n → files w' q = Some n)
       ∧ (∀ q c, files w' q = Some (File c) → files w q = Some (File c))).
Proof.
  rewrite save_scad_unfold. split.
  - intros Hn Hfree Hnodir.
    destruct (mkdir_parents_total (files w) (PurePath.parent path) Hfree)
      as [fs Hmk].
    rewrite Hmk. pose proof Hmk as [[Hkeep Hnew] Hdir]%mkdir_parents_gives.
    destruct (scad_target path) as [e|p1] eqn:Ht.
    { apply scad_target_throws in Ht as [Hn' _]. done. }
    pose proof (scad_target_gives _ _ Ht) as (_ & _ & Hpar & _ & Hparts).
    rewrite write_text_unfold. cbn [files arrays events].
    rewrite Hpar, Hdir.
    assert (node_at fs p1 ≠ Some Directory) as Hnd.
    { unfold node_at. destruct (PurePath.parts p1) eqn:Hp; [done|].
      rewrite (mkdir_parents_frame _ _ _ _ p1 Hmk).
      - by apply Hnodir.
      - rewrite <- Hpar. apply parent_length. by rewrite Hp. }
    destruct (node_at fs p1) as [[c|]|]; try done; by eexists _, _.
  - intros e w'.
    assert (∀ fs : PurePath.t → option node,
              fs_extends (files w) fs →
              (∀ q n, files w q = Some n → fs q = Some n)
              ∧ (∀ q c, fs q = Some (File c) → files w q = Some (File c)))
      as Hsame.
    { intros fs [Hkeep Hnew]. split; [done|]. intros q c Hq.
      destruct (files w q) as [n|] eqn:Hw.
      - apply Hkeep in Hw. congruence.
      - destruct (Hnew q Hw); congruence. }
    destruct (mkdir_parents _ _) as [[e0|[]] fs] eqn:Hmk.
    { intros [= <- <-]. cbn.
      apply mkdir_parents_throws in Hmk as (Hext & [He|He] & _).
      - split; [right; by left|by apply Hsame].
      - split; [right; right; by left|by apply Hsame]. }
    apply mkdir_parents_gives in Hmk as [Hext Hdir].
    destruct (scad_target path) as [e1|p1] eqn:Ht.
    { intros [= <- <-]. cbn.
      apply scad_target_throws in Ht as [Hn He].
      split; [by left|by apply Hsame]. }
    pose proof (scad_target_gives _ _ Ht) as (_ & _ & Hpar & _ & Hparts).
    rewrite write_text_unfold. cbn [files arrays events].
    rewrite Hpar, Hdir.
    destruct (node_at fs p1) as [[c|]|]; try done.
    intros [= <- <-]. cbn. split; [by repeat right|by apply Hsame].
Qed.

End save_scad_claims.

Module Sample9.
(** The world after saving to [out/models/relief.txt] in an empty
    file system. *)
Definition saved : world :=
  (exec (file_utils.save_scad "cube(1);" Sample8.target) Sample8.w0).2.
Definition relief_scad : PurePath.t := PurePath.parse "out/models/relief.scad".
(** A file system with a file named [out]. *)
Definition blocked : world :=
  World [] (fs_insert Sample8.empty_fs (PurePath.parse "out") (File "")) [].
End Sample9.

Lemma save_scad_writes_scad_file_witness :
  lower (PurePath.suffix Sample9.relief_scad) = ".scad"%string
  ∧ files Sample9.saved Sample9.relief_scad = Some (File "cube(1);")
  ∧ (lower (PurePath.suffix Sample8.target) = ".scad"%string →
     Sample9.relief_scad = Sample8.target)
  ∧ (lower (PurePath.suffix Sample8.target) ≠ ".scad"%string →
     PurePath.with_suffix Sample8.target ".scad" = Gives Sample9.relief_scad)
  ∧ PurePath.parent Sample9.relief_scad = PurePath.parent Sample8.target
  ∧ PurePath.stem Sample9.relief_scad = PurePath.stem Sample8.target
  ∧ path_is_dir (files Sample9.saved) (PurePath.parent Sample9.relief_scad)
    = true
  ∧ (∀ q n, q ≠ Sample9.relief_scad → files Sample8.w0 q = Some n →
       files Sample9.saved q = Some n)
  ∧ (∀ q, q ≠ Sample9.relief_scad →
       q ∉ lineage (PurePath.parent Sample8.target) →
       files Sample9.saved q = files Sample8.w0 q)
  ∧ (∀ q, q ∈ lineage (PurePath.parent Sample8.target) →
       files Sample9.saved q = Some Directory)
  ∧ arrays Sample9.saved = arrays Sample8.w0
  ∧ events Sample9.saved = events Sample8.w0.
Proof.
  apply (save_scad_writes_scad_file "cube(1);" Sample8.target
           Sample9.relief_scad Sample8.w0 Sample9.saved).
  reflexivity.
Defined.

Example save_scad_without_a_name :
  ∃ msg w',
    exec (file_utils.save_scad "cube(1);" (PurePath.parse ".")) Sample8.w0
    = (Throws (Exc.Build Exc.ValueError msg), w').
Proof. by eexists _, _. Qed.

Example save_scad_blocked_by_a_file :
  ∃ msg,
    exec (file_utils.save_scad "cube(1);" Sample8.target) Sample9.blocked
    = (Throws (Exc.Build Exc.NotADirectoryError msg), Sample9.blocked).
Proof. by eexists. Qed.

Example save_scad_keeps_upper_case_suffix :
  (exec (file_utils.save_scad "cube(1);" (PurePath.parse "RELIEF.SCAD"))
        Sample8.w0).1
  = Gives (PurePath.parse "RELIEF.SCAD").
Proof. reflexivity. Qed.

(* ------------------------------------------------------------------ *)
(** ** [validate_output_path] *)

Section validate_output_path_facts.
Import file_utils.

Lemma issubclass_mkdir_error e :
  mkdir_error e → Exc.issubclass (Exc.class_of e) Exc.OSError = true.
Proof. by intros [->| ->]. Qed.

Lemma path_exists_dir fs p : node_at fs p = Some Directory →
  path_exists fs p = true ∧ path_is_dir fs p = true.
Proof. unfold path_exists, path_is_dir. by intros ->. Qed.

Lemma validate_output_path_unfold path w :
  exec (validate_output_path path) w =
  let parent := PurePath.parent path in
  match (if path_exists (files w) parent then (Gives (), w)
         else exec (try_except (Path_mkdir parent) Exc.OSError
                      (λ e, throw Exc.ValueError
                              ("Cannot create output directory: "
                               +:+ Exc.message e))) w) with
  | (Throws e, w') => (Throws e, w')
  | (Gives _, w') =>
      if path_exists (files w') parent && negb (path_is_dir (files w') parent)
      then (Throws (Exc.Build Exc.ValueError
                      ("Output path parent is not a directory: "
                       +:+ PurePath.render parent)), w')
      else (Gives (), w')
  end.
Proof.
  unfold validate_output_path, Path_exists, Path_is_dir.
  rewrite !exec_bind. cbn.
  destruct (path_exists (files w) (PurePath.parent path)) eqn:E; cbn.
  - unfold mbind, ST_bind, mret, ST_ret, get_files, throw. cbn.
    rewrite E. destruct (path_is_dir _ _); reflexivity.
  - unfold mbind, ST_bind, mret, ST_ret, get_files, throw, exec. cbn.
    destruct (try_except _ _ _ w) as [[e|[]] w']; [done|].
    destruct (_ && _); reflexivity.
Qed.

Lemma try_mkdir_unfold parent w :
  exec (try_except (Path_mkdir parent) Exc.OSError
          (λ e, throw Exc.ValueError
                  ("Cannot create output directory: " +:+ Exc.message e))) w
  = match mkdir_parents (files w) parent with
    | (Throws e, fs) =>
        (if Exc.issubclass (Exc.class_of e) Exc.OSError
         then Throws (Exc.Build Exc.ValueError
                        ("Cannot create output directory: "
                         +:+ Exc.message e))
         else Throws e,
         World (arrays w) fs (events w))
    | (Gives _, fs) => (Gives (), World (arrays w) fs (events w))
    end.
Proof.
  unfold try_except, Path_mkdir, exec.
  destruct (mkdir_parents _ _) as [[e|[]] fs]; [|done].
  by destruct (Exc.issubclass _ _).
Qed.

(** X17.  [validate_output_path] does more than look: when the parent
    directory of the path is missing it is made, with its ancestors.
    The call returns exactly when, afterwards, the parent is a
    directory, and then nothing that was there has changed; every
    failure -- a file where the directory should be, or on the way to
    it -- is reported as the built-in [ValueError], the [OSError] of
    [mkdir] never escapes. *)
Theorem validate_output_path_ensures_directory (path : PurePath.t)
    (w : world) :
  ∃ r w',
    exec (validate_output_path path) w = (r, w')
    ∧ arrays w' = arrays w ∧ events w' = events w
    ∧ fs_extends (files w) (files w')
    ∧ match r with
      | Gives _ => path_is_dir (files w') (PurePath.parent path) = true
      | Throws e =>
          Exc.class_of e = Exc.ValueError
          ∧ ∃ q c, (q = PurePath.parent path
                    ∨ q ∈ lineage (PurePath.parent path))
                   ∧ files w q = Some (File c)
      end.
Proof.
  rewrite validate_output_path_unfold. cbv zeta.
  set (parent := PurePath.parent path).
  destruct (node_at (files w) parent) as [[c|]|] eqn:Hnode.
  - (* a file *)
    assert (path_exists (files w) parent = true) as Hex
      by (unfold path_exists; by rewrite Hnode).
    assert (path_is_dir (files w) parent = false) as Hd
      by (unfold path_is_dir; by rewrite Hnode).
    rewrite Hex. cbn [files]. rewrite Hex, Hd. cbn.
    eexists _, _. split; [done|].
    split_and!; [done|done|apply fs_extends_refl|done|].
    exists parent, c. split; [by left|].
    unfold node_at in Hnode. by destruct (PurePath.parts parent).
  - (* a directory *)
    destruct (path_exists_dir _ _ Hnode) as [Hex Hd].
    rewrite Hex. cbn [files]. rewrite Hex, Hd. cbn.
    eexists _, _. split; [done|].
    split_and!; [done|done|apply fs_extends_refl|].
    by apply path_exists_dir.
  - (* missing *)
    assert (path_exists (files w) parent = false) as ->
      by (unfold path_exists; by rewrite Hnode).
    rewrite try_mkdir_unfold.
    destruct (mkdir_parents (files w) parent) as [[e|[]] fs] eqn:Hmk.
    + apply mkdir_parents_throws in Hmk as (Hext & He & q & c & Hq & Hf).
      rewrite (issubclass_mkdir_error e He).
      eexists _, _. split; [done|].
      split_and!; [done|done|done|done|]. exists q, c. split; [by right|done].
    + apply mkdir_parents_gives in Hmk as [Hext Hdir]. cbn [files].
      destruct (path_exists_dir _ _ Hdir) as [Hex Hd]. rewrite Hex, Hd. cbn.
      eexists _, _. split; [done|]. split_and!; done.
Qed.

End validate_output_path_facts.

Example validate_output_path_makes_directories :
  let '(r, w) := exec (file_utils.validate_output_path Sample8.target)
                      Sample8.w0 in
  (r, files w (PurePath.parse "out/models"), files w Sample8.target)
  = (Gives (), Some Directory, None).
Proof. reflexivity. Qed.

Example validate_output_path_blocked :
  (exec (file_utils.validate_output_path Sample8.target) Sample9.blocked).1
  = Throws (Exc.Build Exc.ValueError "Cannot create output directory: out").
Proof. reflexivity. Qed.

(* ================================================================== *)
(** * [cli.py]: the arguments and the configuration built from them *)
(* ================================================================== *)

Module cli.

(** What [parse_args] returns. *)
Record Namespace : Type := {
  input : PurePath.t;
  output : option PurePath.t;
  stl : bool;
  base_thickness : Q;
  max_height : Q;
  width : Q;
  detail : Q;
  no_smoothing : bool;
  invert : bool;
  verbose : bool;
  quiet : bool
}.

Definition validate_args (args : Namespace) : IO unit :=
  (* Check input file exists *)
  there ← Path_exists (input args);
  if negb there then
    throw Exc.FileNotFoundError
      ("Input file not found: " +:+ PurePath.render (input args))
  else
  (* Check input file is a file *)
  is_file ← Path_is_file (input args);
  if negb is_file then
    throw Exc.ValueError
      ("Input path is not a file: " +:+ PurePath.render (input args))
  (* Validate detail level *)
  else if negb (Qle_bool (1 # 2) (detail args) && Qle_bool (detail args) 2)
  then throw Exc.ValueError "Detail level must be between 0.5 and 2.0"
  (* Validate positive dimensions *)
  else if Qle_bool (base_thickness args) 0 then
    throw Exc.ValueError "Base thickness must be positive"
  else if Qle_bool (max_height args) 0 then
    throw Exc.ValueError "Max height must be positive"
  else if Qle_bool (width args) 0 then
    throw Exc.ValueError "Width must be positive"
  else mret ().

(** [output_style] is left at its default. *)
Definition build_config (args : Namespace) : result ConversionConfig.t :=
  ConversionConfig.new (base_thickness args) (max_height args) (width args)
    (detail args) (negb (no_smoothing args)) (invert args) "relief".

End cli.

Lemma validate_args_unfold args w :
  exec (cli.validate_args args) w =
  (if negb (path_exists (files w) (cli.input args)) then
     Throws (Exc.Build Exc.FileNotFoundError
               ("Input file not found: "
                +:+ PurePath.render (cli.input args)))
   else if negb (path_is_file (files w) (cli.input args)) then
     Throws (Exc.Build Exc.ValueError
               ("Input path is not a file: "
                +:+ PurePath.render (cli.input args)))
   else if negb (Qle_bool (1 # 2) (cli.detail args)
                 && Qle_bool (cli.detail args) 2) then
     Throws (Exc.Build Exc.ValueError
               "Detail level must be between 0.5 and 2.0")
   else if Qle_bool (cli.base_thickness args) 0 then
     Throws (Exc.Build Exc.ValueError "Base thickness must be positive")
   else if Qle_bool (cli.max_height args) 0 then
     Throws (Exc.Build Exc.ValueError "Max height must be positive")
   else if Qle_bool (cli.width args) 0 then
     Throws (Exc.Build Exc.ValueError "Width must be positive")
   else Gives (), w).
Proof.
  unfold cli.validate_args, Path_exists, Path_is_file, exec, mbind, ST_bind,
    mret, ST_ret, get_files, throw.
  destruct (path_exists _ _); cbn; [|done].
  destruct (path_is_file _ _); cbn; [|done].
  destruct (_ && _); cbn; [|done].
  repeat (destruct (Qle_bool _ _); cbn; [done|]). done.
Qed.

Lemma new_returned bt mh mw dl sm inv os cfg :
  ConversionConfig.new bt mh mw dl sm inv os = Returned cfg →
  config_valid cfg ∧ cfg = ConversionConfig.Build bt mh mw dl sm inv os.
Proof.
  unfold ConversionConfig.new, config_valid.
  destruct (ConversionConfig.__post_init__ _) as [?|[]] eqn:Hp; [done|].
  by intros [= <-].
Qed.

Lemma new_relief_returns_iff bt mh mw dl sm inv :
  (∃ cfg, ConversionConfig.new bt mh mw dl sm inv "relief" = Returned cfg)
  ↔ 0 < bt ∧ 0 < mh ∧ 0 < mw ∧ (1 # 2) <= dl ∧ dl <= 2.
Proof.
  split.
  - intros [cfg [Hv ->]%new_returned].
    apply config_valid_iff in Hv. cbn in Hv. tauto.
  - intros H. exists (ConversionConfig.Build bt mh mw dl sm inv "relief").
    unfold ConversionConfig.new.
    assert (config_valid (ConversionConfig.Build bt mh mw dl sm inv "relief"))
      as Hv by (apply config_valid_iff; cbn; tauto).
    unfold config_valid in Hv. by rewrite Hv.
Qed.

(** X18.  The command line checks what the configuration checks, and
    first.  [validate_args] only reads: it leaves the world alone.  It
    passes exactly when the input is an existing file and
    [build_config] will return a configuration -- so after it
    [build_config] cannot raise -- and that configuration is valid,
    holds the four numbers as given, smooths unless [--no-smoothing] is
    set and inverts if [--invert] is.  A missing input is reported as
    [FileNotFoundError] whatever the numbers are; every other rejection
    is a [ValueError]. *)
Theorem cli_validation_covers_config (args : cli.Namespace) (w : world) :
  ∃ r,
    exec (cli.validate_args args) w = (r, w)
    ∧ (r = Gives ()
       ↔ path_is_file (files w) (cli.input args) = true
         ∧ ∃ cfg, cli.build_config args = Returned cfg)
    ∧ (∀ cfg, cli.build_config args = Returned cfg →
         config_valid cfg
         ∧ cfg = ConversionConfig.Build
                   (cli.base_thickness args) (cli.max_height args)
                   (cli.width args) (cli.detail args)
                   (negb (cli.no_smoothing args)) (cli.invert args) "relief")
    ∧ (∀ e, r = Throws e →
         Exc.class_of e = Exc.FileNotFoundError
         ∧ path_exists (files w) (cli.input args) = false
         ∨ Exc.class_of e = Exc.ValueError
           ∧ path_exists (files w) (cli.input args) = true).
Proof.
  rewrite validate_args_unfold. eexists. split; [reflexivity|].
  assert (path_is_file (files w) (cli.input args) = true →
          path_exists (files w) (cli.input args) = true) as Hfe.
  { unfold path_is_file, path_exists. by destruct (node_at _ _) as [[?|]|]. }
  unfold cli.build_config. rewrite new_relief_returns_iff.
  split_and!.
  - destruct (path_exists _ _) eqn:Hex; cbn.
    2:{ split; [done|]. intros [Hf _]. apply Hfe in Hf. congruence. }
    destruct (path_is_file _ _) eqn:Hf; cbn.
    2:{ split; [done|]. by intros [? _]. }
    destruct (Qle_bool (1 # 2) _) eqn:E4; cbn.
    2:{ split; [done|]. intros [_ (_ & _ & _ & Hd%Qle_bool_iff & _)].
        congruence. }
    destruct (Qle_bool _ 2) eqn:E5; cbn.
    2:{ split; [done|]. intros [_ (_ & _ & _ & _ & Hd%Qle_bool_iff)].
        congruence. }
    destruct (Qle_bool (cli.base_thickness args) 0) eqn:E1.
    { split; [done|]. intros [_ (Hd & _)]. apply Qle_bool_iff in E1. lra. }
    destruct (Qle_bool (cli.max_height args) 0) eqn:E2.
    { split; [done|]. intros [_ (_ & Hd & _)]. apply Qle_bool_iff in E2. lra. }
    destruct (Qle_bool (cli.width args) 0) eqn:E3.
    { split; [done|]. intros [_ (_ & _ & Hd & _)].
      apply Qle_bool_iff in E3. lra. }
    split; [|done]. intros _. split; [done|].
    apply Qle_bool_false in E1, E2, E3. apply Qle_bool_iff in E4, E5.
    done.
  - intros cfg. apply new_returned.
  - intros e.
    destruct (path_exists _ _) eqn:Hex; cbn.
    2:{ intros [= <-]. by left. }
    intros He. right. split; [|done].
    destruct (path_is_file _ _); cbn in He; [|by injection He as <-].
    destruct (_ && _); cbn in He; [|by injection He as <-].
    repeat (destruct (Qle_bool _ _); cbn in He; [by injection He as <-|]).
    done.
Qed.

Module Sample10.
(** A file system with one image, and the arguments of
    [image-to-scad photo.jpg]. *)
Definition photo : PurePath.t := PurePath.parse "photo.jpg".
Definition w_photo : world :=
  World [] (fs_insert Sample8.empty_fs photo (File "...")) [].
Definition args : cli.Namespace :=
  {| cli.input := photo; cli.output := None; cli.stl := false;
     cli.base_thickness := 2; cli.max_height := 15; cli.width := 100;
     cli.detail := 1; cli.no_smoothing := false; cli.invert := false;
     cli.verbose := false; cli.quiet := false |}.
End Sample10.

Example cli_accepts_defaults :
  exec (cli.validate_args Sample10.args) Sample10.w_photo
  = (Gives (), Sample10.w_photo)
  ∧ cli.build_config Sample10.args = Returned ConversionConfig.default.
Proof. split; reflexivity. Qed.

Example cli_missing_input_comes_first :
  (exec (cli.validate_args
           {| cli.input := PurePath.parse "nothing.jpg"; cli.output := None;
              cli.stl := false; cli.base_thickness := 0; cli.max_height := 15;
              cli.width := 100; cli.detail := 5; cli.no_smoothing := false;
              cli.invert := false; cli.verbose := false; cli.quiet := false |})
        Sample10.w_photo).1
  = Throws (Exc.Build Exc.FileNotFoundError
              "Input file not found: nothing.jpg").
Proof. reflexivity. Qed.

(* ================================================================== *)
(** * [pipeline/image_loader.py]

    Pillow is external: its images and the operations the loader
    calls are the class [PIL]; any of them may raise.  [PILLaws] says
    what a call that returns delivers. *)
(* ================================================================== *)

Class PIL : Type := {
  Image : Type;
  (** [image.size], as (width, height), and [image.mode] *)
  Image_size : Image → Z * Z;
  Image_mode : Image → string;
  (** [Image.open(path)] *)
  Image_open : (PurePath.t → option node) → PurePath.t → outcome Image;
  (** [Image.new(mode, size, color)] *)
  Image_new : string → Z * Z → Z * Z * Z → outcome Image;
  (** [background.paste(image, mask=image.split()[3])]: the background
      afterwards *)
  Image_paste : Image → Image → outcome Image;
  (** [image.convert(mode)] *)
  Image_convert : Image → string → outcome Image;
  (** [image.resize(size, Image.Resampling.LANCZOS)] *)
  Image_resize : Image → Z * Z → outcome Image;
  (** [np.array(image, dtype=np.uint8)] *)
  Image_to_array : Image → outcome ndarray
}.

Class PILLaws (pil : PIL) : Prop := {
  (** Pillow keeps the two sides in C [int]s *)
  size_bounds : ∀ img,
    (0 ≤ (Image_size img).1 < 2147483648
     ∧ 0 ≤ (Image_size img).2 < 2147483648)%Z;
  new_spec : ∀ m s c img,
    Image_new m s c = Gives img → Image_mode img = m ∧ Image_size img = s;
  paste_spec : ∀ bg img r,
    Image_paste bg img = Gives r →
    Image_mode r = Image_mode bg ∧ Image_size r = Image_size bg;
  convert_spec : ∀ img m r,
    Image_convert img m = Gives r →
    Image_mode r = m ∧ Image_size r = Image_size img;
  resize_spec : ∀ img s r,
    Image_resize img s = Gives r →
    Image_size r = s ∧ Image_mode r = Image_mode img;
  to_array_spec : ∀ img a,
    Image_to_array img = Gives a → Image_mode img = "RGB"%string →
    arr_dtype a = uint8
    ∧ shape a = [Z.to_nat (Image_size img).2; Z.to_nat (Image_size img).1;
                 3%nat]
    ∧ wf_ndarray a
}.

(** The loader computes a size with Python floats and truncates the
    result to an [int]; there a rounding error can change the integer,
    so here too the rounding is kept, by [fl]. *)

(** [a / b] on Python ints: the quotient, correctly rounded. *)
Definition int_truediv `{F : Float64} {S} (a b : Z) : ST S Q :=
  if (b =? 0)%Z then throw Exc.ZeroDivisionError "division by zero"
  else mret (fl (inject_Z a / inject_Z b)).

(** [sorted] on strings (by code point) *)
Fixpoint insert_sorted (s : string) (l : list string) : list string :=
  match l with
  | [] => [s]
  | x :: l' => if String.leb s x then s :: l else x :: insert_sorted s l'
  end.

Definition sorted_strings (l : list string) : list string :=
  foldr insert_sorted [] l.

Module ImageLoader.
Section methods.
Context `{pil : PIL} `{F : Float64}.

(** Supported image formats *)
Definition SUPPORTED_FORMATS : list string :=
  [".jpg"; ".jpeg"; ".png"; ".webp"; ".bmp"; ".tiff"; ".tif"]%string.

(** Image size constraints *)
Definition MIN_DIMENSION : Z := 64.
Definition MAX_DIMENSION : Z := 4096.
Definition DEFAULT_MAX_DIMENSION : Z := 1024.

(** The loader's attribute (the logger is left out). *)
Record t : Type := Build { _max_dimension : Z }.

Definition new : t := Build DEFAULT_MAX_DIMENSION.

Definition _validate_path (path : PurePath.t) : IO unit :=
  there ← Path_exists path;
  if negb there then
    throw Exc.FileNotFoundError
      ("Image file not found: " +:+ PurePath.render path)
  else
  is_file ← Path_is_file path;
  if negb is_file then
    throw Exc.ImageLoadError ("Path is not a file: " +:+ PurePath.render path)
  else
  let suffix := lower (PurePath.suffix path) in
  if negb (bool_decide (suffix ∈ SUPPORTED_FORMATS)) then
    let supported := String.concat ", " (sorted_strings SUPPORTED_FORMATS) in
    throw Exc.ImageLoadError
      ("Unsupported image format: " +:+ suffix +:+ ". "
       +:+ "Supported formats: " +:+ supported)
  else mret ().

(** A large image is only warned about. *)
Definition _validate_image (image : Image) : IO unit :=
  let '(width, height) := Image_size image in
  if (width <? MIN_DIMENSION)%Z || (height <? MIN_DIMENSION)%Z then
    throw Exc.ImageLoadError
      ("Image too small: " +:+ pretty width +:+ "x" +:+ pretty height
       +:+ ". " +:+ "Minimum dimension is " +:+ pretty MIN_DIMENSION
       +:+ "px.")
  else mret ().

Definition _convert_to_rgb (image : Image) : IO Image :=
  if String.eqb (Image_mode image) "RGB" then mret image
  else if String.eqb (Image_mode image) "RGBA" then
    (* Create white background for transparency *)
    background ← of_outcome
      (Image_new "RGB" (Image_size image) (255, 255, 255)%Z);
    of_outcome (Image_paste background image)
  else
    (* Convert other modes (L, P, etc.) to RGB *)
    of_outcome (Image_convert image "RGB").

Definition _resize_if_needed (self : t) (image : Image) : IO Image :=
  let '(width, height) := Image_size image in
  if (width <=? _max_dimension self)%Z && (height <=? _max_dimension self)%Z
  then mret image
  else
    (* Calculate new dimensions preserving aspect ratio *)
    '(new_width, new_height) ←
      (if (height <? width)%Z then
         ratio ← int_truediv (_max_dimension self) width;
         mret (_max_dimension self, py_int (int_mul_float height ratio))
       else
         ratio ← int_truediv (_max_dimension self) height;
         mret (py_int (int_mul_float width ratio), _max_dimension self));
    of_outcome (Image_resize image (new_width, new_height)).

Definition load (self : t) (path : PurePath.t) : IO loc :=
  _ ← _validate_path path;
  fs ← get_files;
  image ← try_except (of_outcome (Image_open fs path)) Exc.Exception
             (λ e, throw Exc.ImageLoadError
                     ("Failed to open image: " +:+ Exc.message e));
  (* Validate and process *)
  _ ← _validate_image image;
  image ← _convert_to_rgb image;
  image ← _resize_if_needed self image;
  (* Convert to numpy array *)
  array ← of_outcome (Image_to_array image);
  lift_M (alloc array).

Definition validate (path : PurePath.t) : IO bool :=
  try_except
    (_ ← _validate_path path;
     fs ← get_files;
     img ← of_outcome (Image_open fs path);
     _ ← _validate_image img;
     mret true)
    Exc.Exception
    (λ _, mret false).

Definition get_dimensions (path : PurePath.t) : IO (Z * Z) :=
  _ ← _validate_path path;
  fs ← get_files;
  try_except
    (img ← of_outcome (Image_open fs path); mret (Image_size img))
    Exc.Exception
    (λ e, throw Exc.ImageLoadError
            ("Failed to read image dimensions: " +:+ Exc.message e)).

End methods.
End ImageLoader.

(* ------------------------------------------------------------------ *)
(** ** Resizing *)

Section rounding.
Context `{F : Float64} {FL : Float64Laws F}.

(** One side of the new size: [int(a * (m / b))] for [0 < a <= b], in
    floats, against the exact [a * m / b] rounded down. *)
Lemma scaled_side (a m b : Z) :
  (0 < a ≤ b)%Z → (b < 2147483648)%Z → (0 < m ≤ 1048576)%Z →
  let s := py_int (int_mul_float a (fl (inject_Z m / inject_Z b))) in
  let k := (a * m / b)%Z in
  (0 ≤ s ≤ m)%Z
  ∧ (s = k ∨ (s = k - 1 ∧ (a * m) mod b = 0))%Z.
Proof.
  intros Ha Hb Hm s k.
  (* the exact quotient, and its integer part *)
  set (ib := / inject_Z b).
  assert (inject_Z b * ib == 1) as Hib.
  { unfold ib. rewrite Qmult_inv_r; [done|].
    intros H. apply (inject_Z_injective b 0) in H. lia. }
  assert (0 < ib) as Hib0.
  { apply Qinv_lt_0_compat. unfold Qlt. cbn. lia. }
  assert (inject_Z b <= 2147483647) as HbQ.
  { unfold Qle. cbn. lia. }
  assert (1 <= inject_Z b) as HbQ1.
  { unfold Qle. cbn. lia. }
  assert ((1 # 2147483648) < ib) as Hib1 by nra.
  assert (ib <= 1) as Hib2 by nra.
  set (E := inject_Z (a * m) * ib).
  pose proof (Z.div_mod (a * m) b ltac:(lia)) as Hdm.
  pose proof (Z.mod_pos_bound (a * m) b ltac:(lia)) as Hrem.
  fold k in Hdm. set (rem := ((a * m) mod b)%Z) in *.
  assert (E == inject_Z k + inject_Z rem * ib) as HE.
  { unfold E. rewrite Hdm, inject_Z_plus, inject_Z_mult.
    transitivity (inject_Z k * (inject_Z b * ib) + inject_Z rem * ib);
      [ring|rewrite Hib; ring]. }
  assert (0 <= inject_Z rem ∧ inject_Z rem <= inject_Z b - 1) as [Hr0 Hr1].
  { unfold Qle. cbn. lia. }
  assert (inject_Z rem * ib <= 1 - ib) as Hfrac by nra.
  assert (0 <= inject_Z rem * ib) as Hfrac0 by nra.
  assert (0 ≤ k ≤ m)%Z as Hk.
  { split; [apply Z.div_pos; nia|apply Z.div_le_upper_bound; nia]. }
  assert (1 <= inject_Z m ∧ inject_Z m <= 1048576) as [Hm0 Hm1].
  { unfold Qle. cbn. lia. }
  assert (ib <= E ∧ E <= inject_Z m) as [HE0 HE1].
  { assert (1 <= inject_Z (a * m) ∧ inject_Z (a * m) <= inject_Z b * inject_Z m)
      as [H1 H2].
    { rewrite <- inject_Z_mult. unfold Qle. cbn. nia. }
    unfold E. split; [nra|].
    assert (inject_Z m == inject_Z b * inject_Z m * ib) as Hmm
      by (transitivity (inject_Z m * (inject_Z b * ib));
            [rewrite Hib; ring|ring]).
    nra. }
  (* the roundings *)
  set (q := inject_Z m * ib).
  assert (E == inject_Z a * q) as HEq.
  { unfold E, q. rewrite inject_Z_mult. ring. }
  assert (ib <= q ∧ q <= inject_Z m) as [Hq0 Hq1] by (unfold q; nra).
  pose proof (fl_near q ltac:(lra) ltac:(lra)) as [Hr1' Hr2'].
  pose proof (fl_int a ltac:(lia)) as Hfa.
  assert (1 <= inject_Z a) as Ha1 by (unfold Qle; cbn; lia).
  change (py_int (int_mul_float a (fl (inject_Z m / inject_Z b))))
    with (py_int (fl (fl (inject_Z a) * fl q))) in s.
  set (r := fl q) in *. set (x := fl (inject_Z a) * r) in *.
  unfold unit_roundoff in *.
  assert (E - E * (1 # 9007199254740992) <= x
          ∧ x <= E + E * (1 # 9007199254740992)) as [Hx1 Hx2].
  { unfold x. rewrite Hfa, HEq. split; nra. }
  pose proof (fl_near x ltac:(lra) ltac:(lra)) as [Hp1 Hp2].
  unfold unit_roundoff in *.
  set (p := fl x) in *.
  assert (E - ib < p ∧ p < E + ib) as [Hp3 Hp4] by (split; lra).
  assert (0 <= p) as Hp0 by lra.
  destruct (decide (rem = 0%Z)) as [Hz|Hnz].
  - assert (E == inject_Z k) as HEk.
    { rewrite HE, Hz. change (inject_Z 0) with 0. ring. }
    assert (1 ≤ k)%Z as Hk1.
    { assert (0 < inject_Z k) as H by lra. unfold Qlt in H. cbn in H. lia. }
    destruct (Qlt_le_dec p (inject_Z k)) as [Hlt|Hge].
    + assert (s = k - 1)%Z as ->.
      { apply py_int_floor; [lia| |].
        - unfold Z.sub. rewrite inject_Z_plus.
          change (inject_Z (- (1))) with (- (1)). lra.
        - replace (k - 1 + 1)%Z with k by lia. done. }
      split; [lia|]. right. done.
    + assert (s = k) as ->.
      { apply py_int_floor; [lia|done|].
        rewrite inject_Z_plus. change (inject_Z 1) with 1. lra. }
      split; [lia|]. by left.
  - assert (1 <= inject_Z rem) as Hr by (unfold Qle; cbn; lia).
    assert (ib <= inject_Z rem * ib) as Hfrac1 by (clear - Hr Hib0; nra).
    assert (s = k) as ->.
    { apply py_int_floor; [lia| |].
      - lra.
      - rewrite inject_Z_plus. change (inject_Z 1) with 1. lra. }
    split; [lia|]. by left.
Qed.

End rounding.

Section loader_facts.
Context `{pil : PIL} {laws : PILLaws pil}.
Context `{F : Float64} {FL : Float64Laws F}.
Import ImageLoader.

(** The size [_resize_if_needed] asks Pillow for. *)
Definition resized (mx width height : Z) : Z * Z :=
  if (height <? width)%Z then
    (mx, py_int (int_mul_float height (fl (inject_Z mx / inject_Z width))))
  else
    (py_int (int_mul_float width (fl (inject_Z mx / inject_Z height))), mx).

Lemma _resize_if_needed_unfold self image width height w :
  Image_size image = (width, height) →
  (0 < width)%Z → (0 < height)%Z →
  exec (_resize_if_needed self image) w =
  (if (width <=? _max_dimension self)%Z && (height <=? _max_dimension self)%Z
   then Gives image
   else Image_resize image (resized (_max_dimension self) width height), w).
Proof.
  intros Hs Hw Hh. unfold _resize_if_needed. rewrite Hs.
  destruct (_ && _); [done|].
  unfold resized, int_truediv, exec, mbind, ST_bind, mret, ST_ret, throw,
    of_outcome.
  destruct (height <? width)%Z.
  - by destruct (Z.eqb_spec width 0); [lia|].
  - by destruct (Z.eqb_spec height 0); [lia|].
Qed.

(** The shorter side is the exact value rounded down, or one less when
    the exact value is a whole number that the two roundings miss. *)
Definition scaled_to (a m b s : Z) : Prop :=
  (s = a * m / b ∨ (s = a * m / b - 1 ∧ (a * m) mod b = 0))%Z.

Lemma resized_spec mx width height :
  (0 < width < 2147483648)%Z → (0 < height < 2147483648)%Z →
  (0 < mx ≤ 1048576)%Z →
  (0 ≤ (resized mx width height).1 ≤ mx)%Z
  ∧ (0 ≤ (resized mx width height).2 ≤ mx)%Z
  ∧ ((height < width)%Z →
     (resized mx width height).1 = mx
     ∧ scaled_to height mx width (resized mx width height).2)
  ∧ ((width ≤ height)%Z →
     (resized mx width height).2 = mx
     ∧ scaled_to width mx height (resized mx width height).1).
Proof.
  intros Hw Hh Hm. unfold resized, scaled_to.
  destruct (Z.ltb_spec height width) as [Hlt|Hge]; cbn [fst snd].
  - destruct (scaled_side height mx width) as [H1 H2]; [lia..|].
    split; [lia|]. split; [done|]. split; [done|]. lia.
  - destruct (scaled_side width mx height) as [H1 H2]; [lia..|].
    split; [done|]. split; [lia|]. split; [lia|]. done.
Qed.

Lemma _resize_if_needed_gives self image r w w' :
  (0 < (Image_size image).1)%Z → (0 < (Image_size image).2)%Z →
  (0 < _max_dimension self ≤ 1048576)%Z →
  exec (_resize_if_needed self image) w = (Gives r, w') →
  w' = w ∧ Image_mode r = Image_mode image
  ∧ (0 ≤ (Image_size r).1 ≤ _max_dimension self)%Z
  ∧ (0 ≤ (Image_size r).2 ≤ _max_dimension self)%Z.
Proof.
  destruct (Image_size image) as [width height] eqn:Hs. cbn [fst snd].
  intros Hw Hh Hm.
  rewrite (_resize_if_needed_unfold _ _ width height) by done.
  pose proof (size_bounds image) as Hb. rewrite Hs in Hb. cbn in Hb.
  destruct (_ && _) eqn:Hfit.
  - intros [= <- <-]. rewrite Hs. cbn.
    apply andb_true_iff in Hfit as [H1%Z.leb_le H2%Z.leb_le].
    split; [done|]. split; [done|]. lia.
  - intros [= Hr <-]. apply resize_spec in Hr as [-> Hmode].
    destruct (resized_spec (_max_dimension self) width height)
      as (H1 & H2 & _); [lia..|]. done.
Qed.

(** X19.  [_resize_if_needed] never enlarges and keeps the aspect
    ratio, up to one pixel.  An image that fits in [max_dimension] both
    ways is returned as it is, the very object.  A larger one is
    resized so that its longer side is exactly [max_dimension]; the
    other side is the exact value [height * max_dimension / width]
    (for a portrait or square image [width * max_dimension / height])
    rounded down -- or, since the value is computed in floats and then
    truncated, one less than that when the exact value is a whole
    number.  Both sides are at most [max_dimension].  The world is not
    touched and the mode is kept. *)
Theorem resize_if_needed_keeps_aspect (self : t) (image r : Image)
    (width height : Z) (w w' : world) :
  Image_size image = (width, height) →
  (0 < width)%Z → (0 < height)%Z →
  (0 < _max_dimension self ≤ 1048576)%Z →
  exec (_resize_if_needed self image) w = (Gives r, w') →
  w' = w ∧ Image_mode r = Image_mode image
  ∧ ∃ width' height',
      Image_size r = (width', height')
      ∧ (0 ≤ width' ≤ _max_dimension self)%Z
      ∧ (0 ≤ height' ≤ _max_dimension self)%Z
      ∧ ((width ≤ _max_dimension self ∧ height ≤ _max_dimension self)%Z →
         r = image)
      ∧ ((_max_dimension self < width ∨ _max_dimension self < height)%Z →
         ((height < width)%Z →
          width' = _max_dimension self
          ∧ scaled_to height (_max_dimension self) width height')
         ∧ ((width ≤ height)%Z →
            height' = _max_dimension self
            ∧ scaled_to width (_max_dimension self) height width')).
Proof.
  intros Hs Hw Hh Hm.
  rewrite (_resize_if_needed_unfold _ _ width height) by done.
  pose proof (size_bounds image) as Hb. rewrite Hs in Hb. cbn in Hb.
  destruct (_ && _) eqn:Hfit.
  - apply andb_true_iff in Hfit as [H1%Z.leb_le H2%Z.leb_le].
    intros [= <- <-]. split; [done|]. split; [done|].
    exists width, height. split; [done|]. split; [lia|]. split; [lia|].
    split; [done|]. lia.
  - apply andb_false_iff in Hfit.
    intros [= Hr <-]. apply resize_spec in Hr as [Hsize Hmode].
    split; [done|]. split; [done|].
    destruct (resized_spec (_max_dimension self) width height)
      as (H1 & H2 & H3 & H4); [lia..|].
    destruct (resized _ _ _) as [width' height']. cbn [fst snd] in *.
    exists width', height'. split; [done|]. split; [done|]. split; [done|].
    split; [|done].
    intros [H5%Z.leb_le H6%Z.leb_le]. destruct Hfit; congruence.
Qed.

(** Reading the path: no effect, and three ways to fail. *)
Definition path_problem (fs : PurePath.t → option node) (path : PurePath.t)
    : option Exc.t :=
  if negb (path_exists fs path) then
    Some (Exc.Build Exc.FileNotFoundError
            ("Image file not found: " +:+ PurePath.render path))
  else if negb (path_is_file fs path) then
    Some (Exc.Build Exc.ImageLoadError
            ("Path is not a file: " +:+ PurePath.render path))
  else if negb (bool_decide (lower (PurePath.suffix path)
                             ∈ SUPPORTED_FORMATS)) then
    Some (Exc.Build Exc.ImageLoadError
            ("Unsupported image format: " +:+ lower (PurePath.suffix path)
             +:+ ". " +:+ "Supported formats: "
             +:+ String.concat ", " (sorted_strings SUPPORTED_FORMATS)))
  else None.

Lemma _validate_path_unfold path w :
  exec (_validate_path path) w =
  (match path_problem (files w) path with
   | Some e => Throws e
   | None => Gives ()
   end, w).
Proof.
  unfold _validate_path, path_problem, Path_exists, Path_is_file, exec,
    mbind, ST_bind, mret, ST_ret, get_files, throw.
  destruct (path_exists _ _); cbn; [|done].
  destruct (path_is_file _ _); cbn; [|done].
  by destruct (bool_decide _).
Qed.

Lemma path_problem_None fs path :
  path_problem fs path = None ↔
  path_is_file fs path = true
  ∧ lower (PurePath.suffix path) ∈ SUPPORTED_FORMATS.
Proof.
  unfold path_problem.
  assert (path_is_file fs path = true → path_exists fs path = true) as Hfe.
  { unfold path_is_file, path_exists. by destruct (node_at _ _) as [[?|]|]. }
  destruct (path_exists fs path) eqn:Hex; cbn.
  2:{ split; [done|]. intros [Hf%Hfe _]. congruence. }
  destruct (path_is_file fs path); cbn.
  2:{ split; [done|]. by intros [? _]. }
  case_bool_decide; cbn; [done|]. split; [done|]. by intros [_ ?].
Qed.

Lemma path_problem_class fs path e :
  path_problem fs path = Some e →
  (path_exists fs path = false ∧ Exc.class_of e = Exc.FileNotFoundError)
  ∨ (path_exists fs path = true ∧ Exc.class_of e = Exc.ImageLoadError).
Proof.
  unfold path_problem. destruct (path_exists fs path); cbn.
  - intros H. right. split; [done|].
    repeat (destruct (negb _); [by injection H as <-|]). done.
  - intros [= <-]. by left.
Qed.

Definition too_small (image : Image) : bool :=
  ((Image_size image).1 <? MIN_DIMENSION)%Z
  || ((Image_size image).2 <? MIN_DIMENSION)%Z.

Lemma _validate_image_unfold image w :
  exec (_validate_image image) w =
  (if too_small image then
     Throws (Exc.Build Exc.ImageLoadError
               ("Image too small: " +:+ pretty (Image_size image).1
                +:+ "x" +:+ pretty (Image_size image).2
                +:+ ". " +:+ "Minimum dimension is " +:+ pretty MIN_DIMENSION
                +:+ "px."))
   else Gives (), w).
Proof.
  unfold _validate_image, too_small.
  destruct (Image_size image) as [width height]. cbn [fst snd].
  by destruct (_ || _).
Qed.

Lemma _convert_to_rgb_gives image r w w' :
  exec (_convert_to_rgb image) w = (Gives r, w') →
  w' = w ∧ Image_mode r = "RGB"%string ∧ Image_size r = Image_size image.
Proof.
  unfold _convert_to_rgb.
  destruct (String.eqb_spec (Image_mode image) "RGB") as [Hm|_].
  { by intros [= <- <-]. }
  destruct (String.eqb (Image_mode image) "RGBA").
  - unfold exec, mbind, ST_bind, of_outcome.
    destruct (Image_new _ _ _) as [e|bg] eqn:Hbg; [done|].
    destruct (Image_paste bg image) as [e|r'] eqn:Hp; [done|].
    intros [= <- <-]. apply new_spec in Hbg as [Hm Hs].
    apply paste_spec in Hp as [Hm' Hs']. split; [done|].
    split; congruence.
  - unfold exec, of_outcome.
    destruct (Image_convert image "RGB") as [e|r'] eqn:Hc; [done|].
    intros [= <- <-]. apply convert_spec in Hc as [Hm Hs]. done.
Qed.

Lemma exec_lift_alloc a (w : world) :
  exec (lift_M (alloc a)) w
  = (Gives (length (arrays w)),
     World (arrays w ++ [a]) (files w) (events w)).
Proof. done. Qed.

(** X20.  What [load] returns, when it returns: a new [uint8] array of
    shape [(H, W, 3)] with neither side above [max_dimension], read
    from an existing file with a supported suffix (compared in lower
    case); the file system and the arrays that were there are left
    alone; and the array is one that
    [DepthEstimator._validate_image] accepts. *)
Theorem load_returns_rgb_array (self : t) (path : PurePath.t) (l : loc)
    (w w' : world) :
  (0 < _max_dimension self ≤ 1048576)%Z →
  exec (load self path) w = (Gives l, w') →
  ∃ a H W,
    l = length (arrays w) ∧ arrays w' = arrays w ++ [a]
    ∧ files w' = files w ∧ events w' = events w
    ∧ arr_dtype a = uint8 ∧ shape a = [H; W; 3%nat] ∧ wf_ndarray a
    ∧ (H ≤ Z.to_nat (_max_dimension self))%nat
    ∧ (W ≤ Z.to_nat (_max_dimension self))%nat
    ∧ path_is_file (files w) path = true
    ∧ lower (PurePath.suffix path) ∈ SUPPORTED_FORMATS
    ∧ run (DepthEstimator._validate_image (PyNdarray l)) (arrays w')
      = (Returned (), arrays w').
Proof.
  intros Hmax. unfold load.
  rewrite exec_bind, _validate_path_unfold.
  destruct (path_problem (files w) path) eqn:Hpp; [done|].
  apply path_problem_None in Hpp as [Hfile Hsfx].
  rewrite exec_bind. cbn [exec get_files].
  rewrite exec_bind. unfold try_except at 1, of_outcome at 1, exec at 1.
  destruct (Image_open (files w) path) as [e|img] eqn:Hopen.
  { destruct (Exc.issubclass _ _); done. }
  rewrite exec_bind, _validate_image_unfold.
  destruct (too_small img) eqn:Hsmall; [done|].
  rewrite exec_bind.
  destruct (exec (_convert_to_rgb img) w) as [[e|rgb] w1] eqn:Hconv; [done|].
  apply _convert_to_rgb_gives in Hconv as (-> & Hmode & Hsize).
  unfold too_small in Hsmall. apply orb_false_iff in Hsmall as [H1 H2].
  apply Z.ltb_ge in H1, H2. unfold MIN_DIMENSION in H1, H2.
  rewrite exec_bind.
  destruct (exec (_resize_if_needed self rgb) w) as [[e|rs] w2] eqn:Hres;
    [done|].
  apply _resize_if_needed_gives in Hres as (-> & Hmode' & Hw' & Hh');
    [|rewrite Hsize; lia..|done].
  rewrite exec_bind. unfold of_outcome at 1, exec at 1.
  destruct (Image_to_array rs) as [e|a] eqn:Harr; [done|].
  rewrite exec_lift_alloc. intros [= <- <-]. cbn [arrays files events].
  apply to_array_spec in Harr as (Hdt & Hsh & Hwf); [|congruence].
  exists a, (Z.to_nat (Image_size rs).2), (Z.to_nat (Image_size rs).1).
  split_and!; try done; try lia.
  unfold DepthEstimator._validate_image.
  rewrite run_bind, (run_load _ _ a) by by rewrite lookup_app_r, Nat.sub_diag.
  unfold ndim, DepthEstimator.shape_at. rewrite Hsh. done.
Qed.

(** X21.  [validate] is the yes-or-no of the checks [load] starts
    with, and it never raises an [Exception]: it answers [True] exactly
    when the path is an existing file with a supported suffix, Pillow
    opens it, and the image is at least [MIN_DIMENSION] pixels both
    ways; any failure on the way, whatever its class below
    [Exception], is the answer [False]. *)
Theorem validate_answers (path : PurePath.t) (w : world) :
  (∀ e, Image_open (files w) path = Throws e →
        Exc.issubclass (Exc.class_of e) Exc.Exception = true) →
  ∃ b, exec (validate path) w = (Gives b, w)
       ∧ (b = true ↔
          path_is_file (files w) path = true
          ∧ lower (PurePath.suffix path) ∈ SUPPORTED_FORMATS
          ∧ ∃ img, Image_open (files w) path = Gives img
                   ∧ (MIN_DIMENSION ≤ (Image_size img).1)%Z
                   ∧ (MIN_DIMENSION ≤ (Image_size img).2)%Z).
Proof.
  intros Hexc. unfold validate, try_except, exec.
  change (?m ≫= ?f) with (λ s, exec (m ≫= f) s). cbn beta.
  rewrite exec_bind, _validate_path_unfold.
  destruct (path_problem (files w) path) as [e|] eqn:Hpp.
  { assert (Exc.issubclass (Exc.class_of e) Exc.Exception = true) as ->.
    { by destruct (path_problem_class _ _ _ Hpp) as [[_ ->]|[_ ->]]. }
    exists false. split; [done|]. split; [done|].
    intros (Hf & Hs & _).
    assert (path_problem (files w) path = None) as Hn
      by by apply path_problem_None.
    congruence. }
  apply path_problem_None in Hpp as [Hfile Hsfx].
  rewrite exec_bind. cbn [exec get_files].
  rewrite exec_bind. unfold of_outcome at 1, exec at 1.
  destruct (Image_open (files w) path) as [e|img] eqn:Hopen.
  { rewrite (Hexc e eq_refl). exists false. split; [done|].
    split; [done|]. by intros (_ & _ & img & ? & _). }
  rewrite exec_bind, _validate_image_unfold.
  destruct (too_small img) eqn:Hsmall.
  - cbn. exists false. split; [done|]. split; [done|].
    intros (_ & _ & img' & [= <-] & H1 & H2).
    unfold too_small in Hsmall.
    apply orb_true_iff in Hsmall as [H|H]; apply Z.ltb_lt in H; lia.
  - exists true. split; [done|]. split; [|done]. intros _.
    split_and!; [done|done|]. exists img. split; [done|].
    unfold too_small in Hsmall. apply orb_false_iff in Hsmall as [H1 H2].
    apply Z.ltb_ge in H1, H2. done.
Qed.

(** X22.  A path that is not a file, or whose suffix is not a
    supported one, is turned away by the three entry points alike and
    before Pillow is asked: [load] and [get_dimensions] raise the same
    exception, [validate] answers [False], and nothing changes.  The
    exception is the built-in [FileNotFoundError] when nothing is at
    the path and [ImageLoadError] otherwise; so a missing file is not
    reported as an error of the package. *)
Theorem loader_turns_away (self : t) (path : PurePath.t) (w : world) :
  path_is_file (files w) path = false
  ∨ lower (PurePath.suffix path) ∉ SUPPORTED_FORMATS →
  ∃ e, exec (load self path) w = (Throws e, w)
       ∧ exec (get_dimensions path) w = (Throws e, w)
       ∧ exec (validate path) w = (Gives false, w)
       ∧ Exc.class_of e
         = (if path_exists (files w) path then Exc.ImageLoadError
            else Exc.FileNotFoundError)
       ∧ Exc.issubclass Exc.FileNotFoundError Exc.ImageToScadError = false.
Proof.
  intros Hbad.
  destruct (path_problem (files w) path) as [e|] eqn:Hpp.
  2:{ apply path_problem_None in Hpp as [Hf Hs].
      destruct Hbad; [congruence|done]. }
  exists e. split_and!.
  - unfold load. by rewrite exec_bind, _validate_path_unfold, Hpp.
  - unfold get_dimensions. by rewrite exec_bind, _validate_path_unfold, Hpp.
  - unfold validate, try_except, exec.
    change (?m ≫= ?f) with (λ s, exec (m ≫= f) s). cbn beta.
    rewrite exec_bind, _validate_path_unfold, Hpp.
    by destruct (path_problem_class _ _ _ Hpp) as [[_ ->]|[_ ->]].
  - by destruct (path_problem_class _ _ _ Hpp) as [[-> ->]|[-> ->]].
  - done.
Qed.

End loader_facts.

(* ------------------------------------------------------------------ *)
(** ** A reference instance of Pillow

    [PILRef] is a stand-in for Pillow with pictures reduced to their
    size and mode: a file with some content decodes to a 128 x 96
    picture in mode RGB, an empty one is not a picture, and every
    pixel is black.  The arithmetic of the examples is [Exact]. *)

Module PILRef.
Record image : Type := Img { width : Z; height : Z; mode : string }.

Definition clamp (z : Z) : Z := Z.max 0 (Z.min z 2147483647).

Definition in_range (s : Z * Z) : bool :=
  bool_decide (0 ≤ s.1 < 2147483648 ∧ 0 ≤ s.2 < 2147483648)%Z.

Definition make (m : string) (s : Z * Z) : outcome image :=
  if in_range s then Gives (Img s.1 s.2 m)
  else Throws (Exc.Build Exc.ValueError "bad image size").

Definition open (fs : PurePath.t → option node) (path : PurePath.t)
    : outcome image :=
  match fs path with
  | Some (File content) =>
      if String.eqb content "" then
        Throws (Exc.Build (Exc.Other "UnidentifiedImageError" Exc.OSError)
                  "cannot identify image file")
      else Gives (Img 128 96 "RGB")
  | Some Directory =>
      Throws (Exc.Build Exc.IsADirectoryError "Is a directory")
  | None =>
      Throws (Exc.Build Exc.FileNotFoundError "No such file or directory")
  end.

Definition to_array (img : image) : outcome ndarray :=
  let h := Z.to_nat (clamp (height img)) in
  let w := Z.to_nat (clamp (width img)) in
  Gives (NDArray uint8 [h; w; 3%nat] (replicate (h * (w * (3 * 1))) 0)).

Instance pil : PIL := {|
  Image := image;
  Image_size img := (clamp (width img), clamp (height img));
  Image_mode := mode;
  Image_open := open;
  Image_new m s _ := make m s;
  Image_paste bg _ := Gives bg;
  Image_convert img m := Gives (Img (width img) (height img) m);
  Image_resize img s := make (mode img) s;
  Image_to_array := to_array
|}.

Lemma make_gives m s img :
  make m s = Gives img →
  mode img = m ∧ (clamp (width img), clamp (height img)) = s.
Proof.
  unfold make, in_range. case_bool_decide as H; [|done].
  intros [= <-]. cbn. split; [done|]. destruct s as [a b]. cbn in *.
  unfold clamp. f_equal; lia.
Qed.

Lemma pil_laws : PILLaws pil.
Proof.
  split; cbn.
  - intros img. unfold clamp. lia.
  - intros m s _ img. apply make_gives.
  - by intros bg _ r [= <-].
  - by intros img m r [= <-].
  - intros img s r [Hm Hs]%make_gives. done.
  - intros img a [= <-] _. cbn. split; [done|]. split; [done|].
    unfold wf_ndarray, size. cbn. by rewrite length_replicate.
Qed.
End PILRef.

Module Sample11.
(** A loader for icons, and the world with [photo.jpg] in it. *)
Definition icons : ImageLoader.t := ImageLoader.Build 64.
Definition picture : PILRef.image := PILRef.Img 128 96 "RGB".
Definition icon : PILRef.image := PILRef.Img 64 48 "RGB".
Definition load : PurePath.t → IO loc :=
  ImageLoader.load (pil := PILRef.pil) (F := Exact.float) icons.
Definition loaded : world := (exec (load Sample10.photo) Sample10.w_photo).2.
Definition black : ndarray :=
  NDArray uint8 [48; 64; 3]%nat (replicate (48 * 64 * 3) 0).
End Sample11.

Example load_photo :
  exec (Sample11.load Sample10.photo) Sample10.w_photo
  = (Gives 0%nat,
     World [Sample11.black] (files Sample10.w_photo) []).
Proof. reflexivity. Qed.

Lemma resize_if_needed_keeps_aspect_witness :
  Sample10.w_photo = Sample10.w_photo
  ∧ PILRef.mode Sample11.icon = PILRef.mode Sample11.picture
  ∧ ∃ width' height',
      Image_size (PIL := PILRef.pil) Sample11.icon = (width', height')
      ∧ (0 ≤ width' ≤ 64)%Z ∧ (0 ≤ height' ≤ 64)%Z
      ∧ ((128 ≤ 64 ∧ 96 ≤ 64)%Z → Sample11.icon = Sample11.picture)
      ∧ ((64 < 128 ∨ 64 < 96)%Z →
         ((96 < 128)%Z → width' = 64%Z ∧ scaled_to 96 64 128 height')
         ∧ ((128 ≤ 96)%Z → height' = 64%Z ∧ scaled_to 128 64 96 width')).
Proof.
  apply (resize_if_needed_keeps_aspect (pil := PILRef.pil)
           (laws := PILRef.pil_laws) (F := Exact.float) (FL := Exact.float_laws)
           Sample11.icons Sample11.picture Sample11.icon
           128 96 Sample10.w_photo Sample10.w_photo).
  - reflexivity.
  - lia.
  - lia.
  - cbn. lia.
  - reflexivity.
Defined.

Lemma load_returns_rgb_array_witness :
  ∃ a H W,
    0%nat = length (arrays Sample10.w_photo)
    ∧ arrays Sample11.loaded = arrays Sample10.w_photo ++ [a]
    ∧ files Sample11.loaded = files Sample10.w_photo
    ∧ events Sample11.loaded = events Sample10.w_photo
    ∧ arr_dtype a = uint8 ∧ shape a = [H; W; 3%nat] ∧ wf_ndarray a
    ∧ (H ≤ Z.to_nat 64)%nat ∧ (W ≤ Z.to_nat 64)%nat
    ∧ path_is_file (files Sample10.w_photo) Sample10.photo = true
    ∧ lower (PurePath.suffix Sample10.photo) ∈ ImageLoader.SUPPORTED_FORMATS
    ∧ run (DepthEstimator._validate_image (PyNdarray 0))
          (arrays Sample11.loaded)
      = (Returned (), arrays Sample11.loaded).
Proof.
  apply (load_returns_rgb_array (pil := PILRef.pil) (laws := PILRef.pil_laws)
           (F := Exact.float) (FL := Exact.float_laws)
           Sample11.icons Sample10.photo 0%nat Sample10.w_photo
           Sample11.loaded).
  - cbn. lia.
  - reflexivity.
Defined.

Lemma validate_answers_witness :
  ∃ b, exec (ImageLoader.validate (pil := PILRef.pil) Sample10.photo)
         Sample10.w_photo = (Gives b, Sample10.w_photo)
       ∧ (b = true ↔
          path_is_file (files Sample10.w_photo) Sample10.photo = true
          ∧ lower (PurePath.suffix Sample10.photo)
            ∈ ImageLoader.SUPPORTED_FORMATS
          ∧ ∃ img, PILRef.open (files Sample10.w_photo) Sample10.photo
                   = Gives img
                   ∧ (ImageLoader.MIN_DIMENSION
                      ≤ (Image_size (PIL := PILRef.pil) img).1)%Z
                   ∧ (ImageLoader.MIN_DIMENSION
                      ≤ (Image_size (PIL := PILRef.pil) img).2)%Z).
Proof.
  apply (validate_answers (pil := PILRef.pil) Sample10.photo
           Sample10.w_photo).
  intros e He. vm_compute in He. discriminate He.
Defined.

Lemma loader_turns_away_witness :
  ∃ e, exec (Sample11.load (PurePath.parse "notes.txt")) Sample10.w_photo
       = (Throws e, Sample10.w_photo)
       ∧ exec (ImageLoader.get_dimensions (pil := PILRef.pil)
                 (PurePath.parse "notes.txt")) Sample10.w_photo
         = (Throws e, Sample10.w_photo)
       ∧ exec (ImageLoader.validate (pil := PILRef.pil)
                 (PurePath.parse "notes.txt")) Sample10.w_photo
         = (Gives false, Sample10.w_photo)
       ∧ Exc.class_of e = Exc.FileNotFoundError
       ∧ Exc.issubclass Exc.FileNotFoundError Exc.ImageToScadError = false.
Proof.
  apply (loader_turns_away (pil := PILRef.pil) (F := Exact.float)
           Sample11.icons (PurePath.parse "notes.txt") Sample10.w_photo).
  left. reflexivity.
Defined.

(* ------------------------------------------------------------------ *)
(** ** The lost pixel

    With the rounding of binary64 the case "one less" of [scaled_to]
    happens: a 1122 x 561 picture loaded with the default limit comes
    out 1024 x 511, and a square of side 1122 comes out
    1023 x 1024. *)

Example lost_pixel :
  resized (F := Binary64.float) 1024 1122 561 = (1024, 511)%Z
  ∧ resized (F := Exact.float) 1024 1122 561 = (1024, 512)%Z
  ∧ resized (F := Binary64.float) 1024 1122 1122 = (1023, 1024)%Z
  ∧ resized (F := Binary64.float) 1024 4000 3000 = (1024, 768)%Z.
Proof. repeat split; vm_compute; reflexivity. Qed.
